(** * GeneWalk statistics: a shallow embedding of [genewalk/perform_statistics.py]

    The development follows the [GeneWalk] class in human-gene mode
    ([mouse_genes = False]): [P_sim], [get_GO_df] and [generate_output].

    - What [generate_output] reads from the object and from disk is taken
      as given: the gene list [hgncid], and the node vectors of the
      replicates [1 .. Nreps] as a list [nvs], so that [Nreps = length nvs].
      The table is the returned value; writing it to a file is left out.
    - Floating-point numbers are idealised as rationals ([Q]); a value a
      square root is taken of is kept exact as its radicand (see [root],
      and [root_R] for the real number it stands for).
    - The numpy, statsmodels and pandas routines the class calls
      ([searchsorted], [fdrcorrection], [sort_values], [merge], [mean],
      [std]) are written out as the list programs those libraries run.
    - Python exceptions are values of an error monad ([result]). *)

From Stdlib Require Import QArith Qminmax ZArith Lia Lqa Reals Qreals.
From stdpp Require Import base option list sorting gmap sets strings pretty.

Open Scope Q_scope.

(** ** Python exceptions and the error monad *)

Inductive exn : Set :=
| KeyError
| ZeroDivisionError.

Inductive result (A : Type) : Type :=
| Ok (a : A)
| Raise (e : exn).
Arguments Ok {A} a.
Arguments Raise {A} e.

#[export] Instance result_ret : MRet result := fun A a => Ok a.
#[export] Instance result_bind : MBind result := fun A B f r =>
  match r with
  | Ok a => f a
  | Raise e => Raise e
  end.
#[export] Instance result_fmap : FMap result := fun A B f r =>
  match r with
  | Ok a => Ok (f a)
  | Raise e => Raise e
  end.

(** [d[k]] on a Python dict: a missing key raises [KeyError]. *)
Definition getitem {K V} `{Countable K} (d : gmap K V) (k : K) : result V :=
  match d !! k with
  | Some v => Ok v
  | None => Raise KeyError
  end.

(** [try: body except KeyError: handler] *)
Definition try_except_KeyError {A} (body : result A) (handler : A) : result A :=
  match body with
  | Raise KeyError => Ok handler
  | r => r
  end.

(** ** Rational comparisons as booleans *)

#[export] Instance Q_inhabited : Inhabited Q := populate 0.

Definition Qlt_bool (x y : Q) : bool := negb (Qle_bool y x).

#[export] Instance Qle_dec (x y : Q) : Decision (x <= y).
Proof.
  destruct (Qle_bool x y) eqn:E.
  - left. apply Qle_bool_iff, E.
  - right. intros Hle. apply Qle_bool_iff in Hle. congruence.
Defined.

(** ** [numpy.searchsorted(a, v, side='left')]: binary search

    The loop of numpy's left bisection: while [lo < hi], probe the middle
    element and keep the half that can still hold the insertion point.  The
    interval halves in every round, so [length a] rounds are enough. *)

Fixpoint bisect_left (fuel : nat) (a : list Q) (key : Q) (lo hi : nat) : nat :=
  match fuel with
  | O => lo
  | S fuel' =>
      if (lo <? hi)%nat then
        let mid := (lo + (hi - lo) / 2)%nat in
        if Qlt_bool (a !!! mid) key
        then bisect_left fuel' a key (mid + 1) hi
        else bisect_left fuel' a key lo mid
      else lo
  end.

Definition searchsorted (a : list Q) (v : Q) : nat :=
  bisect_left (length a) a v 0 (length a).

(** The number of sampled values strictly below [s]. *)
Definition count_lt (s : Q) (v : list Q) : nat :=
  length (filter (fun x => Qlt_bool x s = true) v).

(** ** [GeneWalk.P_sim] *)

(** [str(np.floor(np.log2(N_con)))]: the float [floor(log2 n)] printed by
    Python, ["2.0"] for [n = 4..7]; [np.log2(0)] is [-inf].  The logarithm
    is taken exactly.  The double [np.log2] returns has the same floor as
    long as it is not rounded up to the next integer, which happens only
    for degrees just below a power of two from [2^49 - 1] on: there the
    code reads the bucket of the next power. *)
Definition str_floor_log2 (N_con : nat) : string :=
  match N_con with
  | O => "-inf"
  | S _ => pretty (Z.log2 (Z.of_nat N_con)) +:+ ".0"
  end.

Definition dist_key (N_con : nat) : string := "d" +:+ str_floor_log2 N_con.

Section Psim.
(** [self.srd]: the null distributions, one sample per bucket key. *)
Variable srd : gmap string (list Q).

Definition P_sim (sim : Q) (N_con : nat) : result Q :=
  sample ← getitem srd (dist_key N_con);
  let RANK := searchsorted sample sim in
  match length sample with
  | O => Raise ZeroDivisionError
  | S _ =>
      let PCT_RANK := inject_Z (Z.of_nat RANK) / inject_Z (Z.of_nat (length sample)) in
      Ok (1 - PCT_RANK)
  end.
End Psim.


(** ** [statsmodels.stats.multitest.fdrcorrection(pvals, alpha, method='indep')]

    The Benjamini-Hochberg routine [get_GO_df] calls, step by step as the
    library runs it on an unsorted array. *)

(** [np.argsort]: the indices in ascending order of their values. *)
Definition pval_le (a b : Q * nat) : Prop := a.1 <= b.1.

#[export] Instance pval_le_dec (a b : Q * nat) : Decision (pval_le a b) :=
  Qle_dec a.1 b.1.

Definition argsort (pvals : list Q) : list nat :=
  (merge_sort pval_le (zip pvals (seq 0 (length pvals)))).*2.

(** [np.take(a, idx)] *)
Definition np_take (a : list Q) (idx : list nat) : list Q :=
  (fun i => a !!! i) <$> idx.

(** [_ecdf(x)]: [np.arange(1, nobs+1) / float(nobs)] *)
Definition _ecdf (x : list Q) : list Q :=
  let nobs := length x in
  (fun i => inject_Z (Z.of_nat i) / inject_Z (Z.of_nat nobs)) <$> seq 1 nobs.

(** [np.minimum.accumulate]: running minimum from the left. *)
Fixpoint accumulate_from (m : Q) (l : list Q) : list Q :=
  match l with
  | [] => []
  | x :: l' => let m' := Qmin m x in m' :: accumulate_from m' l'
  end.

Definition minimum_accumulate (l : list Q) : list Q :=
  match l with
  | [] => []
  | x :: l' => x :: accumulate_from x l'
  end.

(** [out = np.empty_like(vals); out[idx] = vals]: the slots are written in
    turn; a slot no index names keeps its initial content [d]. *)
Definition scatter {A} (d : A) (idx : list nat) (vals : list A) : list A :=
  foldl (fun out iv => <[iv.1 := iv.2]> out) (replicate (length vals) d) (zip idx vals).

(** [rejectmax = max(np.nonzero(reject)[0]); reject[:rejectmax] = True] *)
Definition last_true (reject : list bool) : option nat :=
  last (fst <$> filter (fun ib => ib.2 = true) (zip (seq 0 (length reject)) reject)).

Definition fill_reject (reject : list bool) : list bool :=
  match last_true reject with
  | Some rejectmax => replicate rejectmax true ++ drop rejectmax reject
  | None => reject
  end.

Definition fdrcorrection (pvals : list Q) (alpha : Q) : list bool * list Q :=
  let pvals_sortind := argsort pvals in
  let pvals_sorted := np_take pvals pvals_sortind in
  let ecdffactor := _ecdf pvals_sorted in
  let reject :=
    fill_reject (zip_with (fun p e => Qle_bool p (e * alpha)) pvals_sorted ecdffactor) in
  let pvals_corrected_raw := zip_with Qdiv pvals_sorted ecdffactor in
  let pvals_corrected := reverse (minimum_accumulate (reverse pvals_corrected_raw)) in
  let pvals_corrected := (fun q => if Qlt_bool 1 q then 1 else q) <$> pvals_corrected in
  (scatter false pvals_sortind reject, scatter 0 pvals_sortind pvals_corrected).

(** ** Benjamini-Hochberg as the specification words it

    On p-values sorted ascending: [q_i = p_i * m / i] for the 1-based rank
    [i] and the number [m] of p-values, then the running minimum from the
    largest rank down to the smallest, clipped to [0,1]. *)

Fixpoint running_min_down (l : list Q) : list Q :=
  match l with
  | [] => []
  | x :: l' =>
      match running_min_down l' with
      | [] => [x]
      | y :: rest => Qmin x y :: y :: rest
      end
  end.

Definition clip01 (q : Q) : Q := Qmax 0 (Qmin q 1).

Definition bh_step_up (sorted : list Q) : list Q :=
  let m := length sorted in
  clip01 <$> running_min_down
    (imap (fun i p => p * inject_Z (Z.of_nat m) / inject_Z (Z.of_nat (S i))) sorted).

(** ** The GeneWalk network and the replicate embeddings *)

(** [networkx.MultiGraph]: the nodes in iteration order, the attribute
    dict of every node ([graph.node[n]]) and the neighbours of every node
    ([graph[n]], one entry per distinct neighbour). *)
Record Graph : Type := {
  g_nodes : list string;
  g_node : gmap string (gmap string string);
  g_adj : gmap string (gset string)
}.

(** A replicate's node vectors, seen through
    [nv.most_similar(node, topn=len(nv.vocab))]: for every node of the
    vocabulary the other nodes with their similarity, most similar first. *)
Abbreviation node_vectors := (gmap string (list (string * Q))).

(** [set(nx.get_node_attributes(graph, 'GO'))] *)
Definition GO_nodes (graph : Graph) : gset string :=
  dom (filter (fun nd => is_Some (nd.2 !! "GO"%string)) (g_node graph)).

(** ** Tables *)

(** A row of the frame [get_GO_df] returns. *)
Record go_row : Type := {
  go_description : string;
  go_id : string;
  go_N_con : nat;
  go_similarity : Q;
  go_pval : Q;
  go_padj : Q
}.

(** The identity columns [COLUMNS] the replicate tables are merged on. *)
Record row_key : Type := {
  k_HGNC : string;
  k_Symbol : string;
  k_GO_description : string;
  k_GO_ID : string;
  k_N_con_gene : nat;
  k_N_con_GO : nat
}.

#[export] Instance row_key_eq_dec : EqDecision row_key.
Proof. solve_decision. Defined.

(** The three value columns of a replicate: similarity, pval, padj. *)
Record rep_vals : Type := {
  v_similarity : Q;
  v_pval : Q;
  v_padj : Q
}.

(** A row of [outdfs[rep]]. *)
Record rep_row : Type := {
  rr_key : row_key;
  rr_vals : rep_vals
}.

(** ** [GeneWalk.get_GO_df] *)

(** What the loop over [simdf.index] collects for one candidate: the
    entries of [N_GO_CON], [DES] and [PVAL]. *)
Record scored : Type := {
  sc_N_GO_con : nat;
  sc_DES : string;
  sc_pval : Q
}.

Section Scorer.
Variable graph : Graph.
Variable srd : gmap string (list Q).
Variable nv : node_vectors.

(** The body of [for i in simdf.index]: degree and description of the GO
    term, then its p-value in the bucket of the smaller degree. *)
Definition score_candidate (N_gene_con : nat) (c : string * Q)
    : result scored :=
  go_nbrs ← getitem (g_adj graph) c.1;
  let N_GO_con := size go_nbrs in
  attrs ← getitem (g_node graph) c.1;
  des ← getitem attrs "name"%string;
  pval ← P_sim srd c.2 (N_GO_con `min` N_gene_con);
  Ok {| sc_N_GO_con := N_GO_con; sc_DES := des; sc_pval := pval |}.

Fixpoint score_candidates (N_gene_con : nat) (simdf : list (string * Q))
    : result (list scored) :=
  match simdf with
  | [] => Ok []
  | c :: simdf' =>
      r ← score_candidate N_gene_con c;
      rs ← score_candidates N_gene_con simdf';
      Ok (r :: rs)
  end.

(** [simdf[simdf['GO:ID'].isin(GO_con2gene)]] *)
Definition candidates (GO_con2gene : gset string) (ranking : list (string * Q))
    : list (string * Q) :=
  filter (fun c => c.1 ∈ GO_con2gene) ranking.

(** The frame after the [padj] column is inserted, before the final
    selection. *)
Definition scored_table (geneoi : string) (N_gene_con : nat) (alpha_FDR : Q)
    : result (list go_row) :=
  nbrs ← getitem (g_adj graph) geneoi;
  let GO_con2gene := nbrs ∩ GO_nodes graph in
  ranking ← getitem nv geneoi;
  let simdf := candidates GO_con2gene ranking in
  scored ← score_candidates N_gene_con simdf;
  let PVAL := sc_pval <$> scored in
  let q_val := (fdrcorrection PVAL alpha_FDR).2 in
  Ok (zip_with (fun cs q =>
                  {| go_description := sc_DES cs.2; go_id := cs.1.1;
                     go_N_con := sc_N_GO_con cs.2; go_similarity := cs.1.2;
                     go_pval := sc_pval cs.2; go_padj := q |})
               (zip simdf scored) q_val).

Definition get_GO_df (geneoi : string) (N_gene_con : nat) (alpha_FDR : Q)
    : result (list go_row) :=
  simdf ← scored_table geneoi N_gene_con alpha_FDR;
  if Qlt_bool alpha_FDR 1
  then Ok (filter (fun r => Qlt_bool (go_padj r) alpha_FDR = true) simdf)
  else Ok simdf.
End Scorer.

(** ** Orders of [DataFrame.sort_values] *)

(** Comparison on several columns: the first column that differs decides. *)
Definition lex (c1 c2 : comparison) : comparison :=
  match c1 with
  | Eq => c2
  | _ => c1
  end.

(** A missing value (NaN, or an identifier outside the categories) sorts
    last ([na_position='last']). *)
Definition option_compare {A} (cmp : A -> A -> comparison) (x y : option A)
    : comparison :=
  match x, y with
  | Some a, Some b => cmp a b
  | Some _, None => Lt
  | None, Some _ => Gt
  | None, None => Eq
  end.

(** The relation a comparison sorts by: [x] may stand before [y]. *)
Definition cmp_le {A} (cmp : A -> A -> comparison) (x y : A) : Prop :=
  cmp x y <> Gt.

#[export] Instance cmp_le_dec {A} (cmp : A -> A -> comparison) (x y : A)
    : Decision (cmp_le cmp x y).
Proof.
  unfold cmp_le. destruct (cmp x y).
  - left. discriminate.
  - left. discriminate.
  - right. intros H. apply H. reflexivity.
Defined.

(** What makes a three-way comparison an order to sort by. *)
Class CmpOrder {A} (cmp : A -> A -> comparison) : Prop := {
  cmp_antisym x y : cmp y x = CompOpp (cmp x y);
  cmp_Lt_trans x y z : cmp x y = Lt -> cmp y z = Lt -> cmp x z = Lt;
  cmp_Eq_l x y z : cmp x y = Eq -> cmp x z = cmp y z
}.

(** [pd.Series(hgncid).unique()]: the identifiers in order of first
    appearance. *)
Fixpoint unique_from (seen : list string) (l : list string) : list string :=
  match l with
  | [] => []
  | x :: l' =>
      if bool_decide (x ∈ seen) then unique_from seen l'
      else x :: unique_from (x :: seen) l'
  end.

Definition unique (l : list string) : list string := unique_from [] l.

(** The code of a value of a categorical column: its position among the
    categories; a value outside them is missing. *)
Definition cat_code (categories : list string) (h : string) : option nat :=
  fst <$> list_find (fun c => c = h) categories.

(** ** Row statistics: [mean(axis=1)] and [std(axis=1)] (NaN skipped) *)

(** The value [sqrt(radicand)], kept exact. *)
Inductive root : Type :=
| Sqrt (radicand : Q).

Definition radicand (r : root) : Q :=
  match r with
  | Sqrt q => q
  end.

(** The real number a [root] stands for. *)
Definition root_R (r : root) : R := sqrt (Q2R (radicand r)).

(** [np.sqrt(n)] *)
Definition np_sqrt (n : nat) : root := Sqrt (inject_Z (Z.of_nat n)).

(** [sqrt(a) / sqrt(b) = sqrt(a / b)] *)
Definition root_div (a b : root) : root := Sqrt (radicand a / radicand b).

Definition present {A} (xs : list (option A)) : list A := omap (fun o => o) xs.

Definition Qsum (l : list Q) : Q := foldl Qplus 0 l.

Definition nanmean (xs : list (option Q)) : option Q :=
  let vals := present xs in
  match length vals with
  | O => None
  | S _ => Some (Qsum vals / inject_Z (Z.of_nat (length vals)))
  end.

(** Sample variance with [ddof = 1]; missing for fewer than two values. *)
Definition nanvar (xs : list (option Q)) : option Q :=
  let vals := present xs in
  let count := length vals in
  if (count <=? 1)%nat then None
  else
    let avg := Qsum vals / inject_Z (Z.of_nat count) in
    Some (Qsum ((fun x => (avg - x) * (avg - x)) <$> vals)
          / inject_Z (Z.of_nat (count - 1))).

Definition nanstd (xs : list (option Q)) : option root := Sqrt <$> nanvar xs.

(** ** [GeneWalk.generate_output] (human genes) *)

(** A row of the merged frame: the identity columns and, per replicate
    merged so far, its three values or nothing. *)
Record merged_row : Type := {
  m_key : row_key;
  m_reps : list (option rep_vals)
}.

(** A row of the final table. *)
Record out_row : Type := {
  o_key : row_key;
  o_mean_sim : option Q;
  o_sem_sim : option root;
  o_mean_pval : option Q;
  o_sem_pval : option root;
  o_mean_padj : option Q;
  o_sem_padj : option root
}.

(** A row of the merged frame once the mean and sem columns are inserted
    and before the replicate columns are dropped. *)
Record wide_row : Type := {
  w_reps : list (option rep_vals);
  w_out : out_row
}.

(** [left.merge(right, on=COLUMNS, how='outer')]: every left row paired
    with each right row of the same key, or with nothing; then the right
    rows no left row matches.  [k] is the number of replicates in [left]. *)
Definition merge_outer (k : nat) (left : list merged_row) (right : list rep_row)
    : list merged_row :=
  (l ← left;
   match filter (fun r => rr_key r = m_key l) right with
   | [] => [ {| m_key := m_key l; m_reps := m_reps l ++ [None] |} ]
   | ms => (fun r => {| m_key := m_key l;
                        m_reps := m_reps l ++ [Some (rr_vals r)] |}) <$> ms
   end)
  ++ ((fun r => {| m_key := rr_key r;
                   m_reps := replicate k None ++ [Some (rr_vals r)] |})
      <$> filter (fun r => rr_key r ∉ m_key <$> left) right).

Definition rep_compare (categories : list string) (r1 r2 : rep_row) : comparison :=
  lex (option_compare Nat.compare
         (cat_code categories (k_HGNC (rr_key r1)))
         (cat_code categories (k_HGNC (rr_key r2))))
   (lex (String.compare (k_Symbol (rr_key r1)) (k_Symbol (rr_key r2)))
        (String.compare (k_GO_ID (rr_key r1)) (k_GO_ID (rr_key r2)))).

Definition out_compare (categories : list string) (r1 r2 : out_row) : comparison :=
  lex (option_compare Nat.compare
         (cat_code categories (k_HGNC (o_key r1)))
         (cat_code categories (k_HGNC (o_key r2))))
   (lex (option_compare Qcompare (o_mean_padj r1) (o_mean_padj r2))
        (String.compare (k_GO_description (o_key r1))
                        (k_GO_description (o_key r2)))).

Definition wide_compare (categories : list string) (r1 r2 : wide_row) : comparison :=
  out_compare categories (w_out r1) (w_out r2).

Section Aggregator.
Variable graph : Graph.
Variable hgncid : list string.
Variable srd : gmap string (list Q).
(** The node vectors of the replicates [1 .. Nreps], as unpickled from
    [GeneWalk_DW_nv_<rep>.pkl]. *)
Variable nvs : list node_vectors.

Definition Nreps : nat := length nvs.

(** The body of [for n in g_view], with its [except KeyError: pass]. *)
Definition score_node (nv : node_vectors) (alpha_FDR : Q)
    (df : list rep_row) (n : string) : result (list rep_row) :=
  try_except_KeyError
    (attrs ← getitem (g_node graph) n;
     hgnc ← getitem attrs "HGNC"%string;
     if bool_decide (hgnc ∈ hgncid) then
       nbrs ← getitem (g_adj graph) n;
       let N_gene_con := size nbrs in
       GOdf ← get_GO_df graph srd nv n N_gene_con alpha_FDR;
       Ok (df ++ ((fun g =>
                     {| rr_key := {| k_HGNC := hgnc; k_Symbol := n;
                                     k_GO_description := go_description g;
                                     k_GO_ID := go_id g;
                                     k_N_con_gene := N_gene_con;
                                     k_N_con_GO := go_N_con g |};
                        rr_vals := {| v_similarity := go_similarity g;
                                      v_pval := go_pval g;
                                      v_padj := go_padj g |} |}) <$> GOdf))
     else Ok df)
    df.

Fixpoint score_nodes (nv : node_vectors) (alpha_FDR : Q)
    (df : list rep_row) (g_view : list string) : result (list rep_row) :=
  match g_view with
  | [] => Ok df
  | n :: g_view' =>
      df' ← score_node nv alpha_FDR df n;
      score_nodes nv alpha_FDR df' g_view'
  end.

(** [outdfs[rep]]: the rows of all nodes, sorted by HGNC (as a category
    in input order), Symbol and GO:ID. *)
Definition replicate_table (nv : node_vectors) (alpha_FDR : Q)
    : result (list rep_row) :=
  df ← score_nodes nv alpha_FDR [] (g_nodes graph);
  Ok (merge_sort (cmp_le (rep_compare (unique hgncid))) df).

(** The loop [for rep in range(1, Nreps + 1)]. *)
Fixpoint replicate_tables (reps : list node_vectors) (alpha_FDR : Q)
    : result (list (list rep_row)) :=
  match reps with
  | [] => Ok []
  | nv :: reps' =>
      df ← replicate_table nv alpha_FDR;
      dfs ← replicate_tables reps' alpha_FDR;
      Ok (df :: dfs)
  end.

(** [outdfs[Nreps+1]] after the merges of replicates [2 .. Nreps]. *)
Definition merge_all (df1 : list rep_row) (rest : list (list rep_row))
    : list merged_row :=
  foldl (fun acc kdf => merge_outer kdf.1 acc kdf.2)
        ((fun r => {| m_key := rr_key r; m_reps := [Some (rr_vals r)] |}) <$> df1)
        (zip (seq 1 (length rest)) rest).

(** The six inserted columns; every sem divides by [np.sqrt(Nreps)]. *)
Definition column (f : rep_vals -> Q) (m : merged_row) : list (option Q) :=
  (fun o : option rep_vals => f <$> o) <$> m_reps m.

Definition sem (xs : list (option Q)) : option root :=
  (fun s => root_div s (np_sqrt Nreps)) <$> nanstd xs.

Definition aggregate (m : merged_row) : wide_row :=
  {| w_reps := m_reps m;
     w_out := {| o_key := m_key m;
                 o_mean_sim := nanmean (column v_similarity m);
                 o_sem_sim := sem (column v_similarity m);
                 o_mean_pval := nanmean (column v_pval m);
                 o_sem_pval := sem (column v_pval m);
                 o_mean_padj := nanmean (column v_padj m);
                 o_sem_padj := sem (column v_padj m) |} |}.

(** The table [outdfs[Nreps+1]] as lines 93 to 214 build it, or the
    exception that ends the building.  What line 215 does with the table
    is [generate_output_call] below. *)
Definition generate_output (alpha_FDR : Q) : result (list out_row) :=
  outdfs ← replicate_tables nvs alpha_FDR;
  match outdfs with
  | [] => Raise KeyError
  | df1 :: rest =>
      let merged := merge_all df1 rest in
      let wide := aggregate <$> merged in
      let sorted := merge_sort (cmp_le (wide_compare (unique hgncid))) wide in
      Ok (w_out <$> sorted)
  end.
End Aggregator.

(** ** Where a merged row comes from

    [merged_from dfs m]: the row [m] has one slot per replicate table of
    [dfs]; a filled slot holds the values of a row of that replicate with
    the key of [m]; and at least one slot is filled. *)
Definition merged_from (dfs : list (list rep_row)) (m : merged_row) : Prop :=
  length (m_reps m) = length dfs /\
  (forall k v, m_reps m !! k = Some (Some v) ->
     exists df, dfs !! k = Some df /\ {| rr_key := m_key m; rr_vals := v |} ∈ df) /\
  (exists k v, m_reps m !! k = Some (Some v)).



(** The manual selection of the final rows at a threshold [t]:
    [df[df['mean:padj'] < t]]. *)
Definition mean_padj_below (t : Q) (r : out_row) : Prop :=
  match o_mean_padj r with
  | Some q => q < t
  | None => False
  end.

#[export] Instance mean_padj_below_dec (t : Q) (r : out_row)
    : Decision (mean_padj_below t r).
Proof.
  unfold mean_padj_below. destruct (o_mean_padj r) as [q|].
  - destruct (Qlt_le_dec q t) as [Hlt|Hge]; [left; exact Hlt|right].
    intros Hlt. exact (Qlt_not_le _ _ Hlt Hge).
  - right. intros [].
Defined.

(** ** A small network used in the examples

    Two genes, [A] (HGNC id [G1]) and [B] (HGNC id [G2]), and two GO
    terms.  [A] is connected to both GO terms and to [B]; [B] is connected
    to [A] and to [GO:1].  All numbers are dyadic fractions, which binary
    floating point holds exactly. *)

Module Example.
Open Scope string_scope.

Definition gene_attrs (hgnc : string) : gmap string string :=
  {[ "HGNC" := hgnc ]}.

Definition GO_attrs (go name : string) : gmap string string :=
  {[ "GO" := go; "name" := name ]}.

Definition graph : Graph := {|
  g_nodes := ["A"; "B"; "GO:1"; "GO:2"];
  g_node := {[ "A" := gene_attrs "G1"; "B" := gene_attrs "G2";
               "GO:1" := GO_attrs "GO:1" "alpha";
               "GO:2" := GO_attrs "GO:2" "beta" ]};
  g_adj := {[ "A" := {[ "GO:1"; "GO:2"; "B" ]}; "B" := {[ "A"; "GO:1" ]};
              "GO:1" := {[ "A"; "B" ]}; "GO:2" := {[ "A" ]} ]}
|}.

(** The gene list, [G2] first. *)
Definition hgncid : list string := ["G2"; "G1"].

Definition srd : gmap string (list Q) :=
  {[ "d0.0" := [1#8; 2#8; 3#8; 4#8];
     "d1.0" := [1#8; 2#8; 3#8; 4#8; 5#8; 6#8; 7#8; 8#8] ]}.


Definition nv1 : node_vectors :=
  {[ "A" := [("GO:1", 15#16); ("B", 8#16); ("GO:2", 5#16)];
     "B" := [("GO:1", 9#16); ("A", 8#16); ("GO:2", 5#16)] ]}.

Definition nv2 : node_vectors :=
  {[ "A" := [("B", 8#16); ("GO:1", 7#16); ("GO:2", 5#16)];
     "B" := [("GO:1", 9#16); ("A", 8#16); ("GO:2", 5#16)] ]}.


(** A network in which the gene [C] has no GO neighbour. *)
Definition graph_lonely : Graph := {|
  g_nodes := ["C"; "D"];
  g_node := {[ "C" := gene_attrs "G3"; "D" := gene_attrs "G4" ]};
  g_adj := {[ "C" := {[ "D" ]}; "D" := {[ "C" ]} ]}
|}.

Definition nv_lonely : node_vectors :=
  {[ "C" := [("D", 1#2)]; "D" := [("C", 1#2)] ]}.
End Example.


(** * Further definitions *)

(** ** Rows of a replicate's table *)

(** A row of [outdfs[rep]] is the row of node [n]: the node is a listed
    gene, [Symbol] is its name, [N_con(gene)] its degree, and the other
    columns are a row of [get_GO_df] for that node. *)
Definition row_of_node (graph : Graph) (hgncid : list string)
    (srd : gmap string (list Q)) (nv : node_vectors) (alpha_FDR : Q)
    (n : string) (r : rep_row) : Prop :=
  exists attrs nbrs GOdf g,
    g_node graph !! n = Some attrs /\
    attrs !! "HGNC"%string = Some (k_HGNC (rr_key r)) /\
    k_HGNC (rr_key r) ∈ hgncid /\
    k_Symbol (rr_key r) = n /\
    g_adj graph !! n = Some nbrs /\ k_N_con_gene (rr_key r) = size nbrs /\
    get_GO_df graph srd nv n (size nbrs) alpha_FDR = Ok GOdf /\ g ∈ GOdf /\
    k_GO_ID (rr_key r) = go_id g /\ k_GO_description (rr_key r) = go_description g /\
    k_N_con_GO (rr_key r) = go_N_con g /\
    rr_vals r = {| v_similarity := go_similarity g; v_pval := go_pval g;
                   v_padj := go_padj g |}.


(** ** Slots of a merged row

    What the slot of replicate [df] in a merged row with key [key] is: the
    values of a row of [df] with that key, or nothing when [df] has no row
    with that key. *)
Definition slot_of (key : row_key) (df : list rep_row) (o : option rep_vals) : Prop :=
  match o with
  | Some v => {| rr_key := key; rr_vals := v |} ∈ df
  | None => key ∉ rr_key <$> df
  end.

(** The replicate tables that hold the pair [key]. *)
Definition holders (key : row_key) (dfs : list (list rep_row)) : list (list rep_row) :=
  filter (fun df => key ∈ rr_key <$> df) dfs.

(** ** A call of [generate_output], line 215 included

    Once the table is built and stored in [self.outdfs[self.Nreps+1]],
    line 215 evaluates [self.path+fname_out] to write it to a file.  The
    name [fname_out] is no parameter of the method and no global of the
    module, so this evaluation raises [NameError]: [to_csv] is not called
    and the [return] of line 216 is not reached.  A call therefore ends in
    an exception; what it leaves behind is the table stored in
    [self.outdfs[self.Nreps+1]], when the building got that far. *)
Inductive call_exn : Set :=
| TableError (e : exn)
| NameError.

Definition generate_output_call (graph : Graph) (hgncid : list string)
    (srd : gmap string (list Q)) (nvs : list node_vectors) (alpha_FDR : Q)
    : option (list out_row) * call_exn :=
  match generate_output graph hgncid srd nvs alpha_FDR with
  | Ok table => (Some table, NameError)
  | Raise e => (None, TableError e)
  end.

(** * [make_indra_sif.py] and [ngf/make_indra_sif.py] *)

From Stdlib Require Import Ascii.

(** ** [str.strip()] and [str.split(sep)]

    A string is the sequence of its code points, all below 256.
    [isspace] is [str.isspace] on them: tab to carriage return, the four
    separators [0x1c .. 0x1f], the space, NEL and the no-break space. *)
Definition isspace (c : ascii) : bool :=
  let n := nat_of_ascii c in
  ((9 <=? n)%nat && (n <=? 13)%nat) || ((28 <=? n)%nat && (n <=? 32)%nat)
  || (n =? 133)%nat || (n =? 160)%nat.

Fixpoint str_lstrip (s : string) : string :=
  match s with
  | EmptyString => EmptyString
  | String a s' => if isspace a then str_lstrip s' else s
  end.

Fixpoint str_rstrip (s : string) : string :=
  match s with
  | EmptyString => EmptyString
  | String a s' =>
      match str_rstrip s' with
      | EmptyString => if isspace a then EmptyString else String a EmptyString
      | t => String a t
      end
  end.

Definition str_strip (s : string) : string := str_rstrip (str_lstrip s).

(** [s.split(sep)] for a one-character separator: the parts between the
    occurrences of [sep], one more than there are occurrences. *)
Fixpoint str_split (sep : ascii) (s : string) : list string :=
  match s with
  | EmptyString => [EmptyString]
  | String a s' =>
      if decide (a = sep) then EmptyString :: str_split sep s'
      else match str_split sep s' with
           | p :: ps => String a p :: ps
           | [] => [String a EmptyString]
           end
  end.

(** [sep in s] *)
Fixpoint contains (sep : ascii) (s : string) : bool :=
  match s with
  | EmptyString => false
  | String a s' => bool_decide (a = sep) || contains sep s'
  end.

(** ** [load_genes]

    [[l.strip().split(':')[1] for l in fh.readlines()]], the same in both
    files, on the lines read.  [None] is the [IndexError] of the index
    [[1]]. *)
Definition load_genes (lines : list string) : option (list string) :=
  mapM (fun l => str_split ":"%char (str_strip l) !! 1%nat) lines.

(** ** [filter_to_genes] *)

(** A row of the INDRA Statement data frame, with the columns the two
    scripts name. *)
Record stmt_row : Type := {
  agA_ns : string;
  agA_id : string;
  agA_name : string;
  agB_ns : string;
  agB_id : string;
  agB_name : string;
  stmt_type : string;
  hash : Z
}.

Module MakeIndraSif.
(** [make_indra_sif.filter_to_genes]: both agents are listed genes. *)
Definition filter_to_genes (df : list stmt_row) (genes : list string)
    : list stmt_row :=
  filter (fun r => (agA_ns r = "HGNC"%string /\ agA_id r ∈ genes) /\
                   (agB_ns r = "HGNC"%string /\ agB_id r ∈ genes)) df.
End MakeIndraSif.

Module Ngf.
Definition source_filter (genes fplx_terms : list string) (r : stmt_row) : Prop :=
  (agA_ns r = "HGNC"%string /\ agA_id r ∈ genes) \/
  (agA_ns r = "FPLX"%string /\ agA_id r ∈ fplx_terms).

Definition target_filter (genes fplx_terms : list string) (r : stmt_row) : Prop :=
  ((agB_ns r = "HGNC"%string /\ agB_id r ∈ genes) \/
   (agB_ns r = "FPLX"%string /\ agB_id r ∈ fplx_terms)) \/
  agB_ns r = "GO"%string.

#[export] Instance source_filter_dec genes fplx_terms r
  : Decision (source_filter genes fplx_terms r).
Proof. unfold source_filter. apply _. Defined.

#[export] Instance target_filter_dec genes fplx_terms r
  : Decision (target_filter genes fplx_terms r).
Proof. unfold target_filter. apply _. Defined.

(** [ngf.make_indra_sif.filter_to_genes] *)
Definition filter_to_genes (df : list stmt_row) (genes fplx_terms : list string)
    : list stmt_row :=
  filter (fun r => source_filter genes fplx_terms r /\
                   target_filter genes fplx_terms r) df.

(** [get_famplex_terms]: [parent_ids hgnc_id] is the list of the
    identifiers of the parents of the gene in the entity hierarchy
    ([eh.get_parents] of the gene's URI, each through
    [eh.ns_id_from_uri]); the result is [sorted(list(all_parents))]. *)
Definition get_famplex_terms (parent_ids : string -> list string)
    (genes : list string) : list string :=
  let all_parents : gset string :=
    foldl (fun acc hgnc_id => acc ∪ list_to_set (parent_ids hgnc_id)) ∅ genes in
  merge_sort (cmp_le String.compare) (elements all_parents).
End Ngf.

(** * Mouse genes ([mouse_genes = True]) *)

(** A row of [self.mdf] once [_load_mouse_genes] has run: the columns
    [MGI] and [Symbol] of the file read and the inserted column [HGNC]. *)
Record mouse_gene : Type := {
  mg_MGI : string;
  mg_Symbol : string;
  mg_HGNC : string
}.

(** [if mgi_id.startswith('MGI:'): mgi_id = mgi_id[4:]] *)
Definition strip_MGI (mgi_id : string) : string :=
  match mgi_id with
  | String "M" (String "G" (String "I" (String ":" rest))) => rest
  | _ => mgi_id
  end.

(** The body of [for mgi_id in mgi_ids] in [_load_mouse_genes];
    [get_hgnc_from_mouse] is [hgnc_client.get_hgnc_from_mouse], [None] or
    the empty string when it finds nothing. *)
Definition hgnc_of_mouse (get_hgnc_from_mouse : string -> option string)
    (mgi_id : string) : string :=
  match get_hgnc_from_mouse (strip_MGI mgi_id) with
  | Some hgnc_id => if decide (hgnc_id = ""%string) then "NA"%string else hgnc_id
  | None => "NA"%string
  end.

(** [_load_mouse_genes] on the rows read from a file with a column
    [Symbol] and without a column [HGNC]: each row is given by its entry
    in the column renamed to [MGI] (the first whose header starts with
    [MGI]) and its [Symbol] entry; the column [HGNC] is inserted. *)
Definition _load_mouse_genes (get_hgnc_from_mouse : string -> option string)
    (rows : list (string * string)) : list mouse_gene :=
  (fun r => {| mg_MGI := r.1; mg_Symbol := r.2;
               mg_HGNC := hgnc_of_mouse get_hgnc_from_mouse r.1 |}) <$> rows.

(** A row of [outdfs[rep]] in mouse mode. *)
Record mouse_row : Type := {
  mr_MGI : string;
  mr_Symbol : string;
  mr_mapped_HGNC : string;
  mr_mapped_Symbol : string;
  mr_GO_description : string;
  mr_GO_ID : string;
  mr_N_con_gene : nat;
  mr_N_con_GO : nat;
  mr_vals : rep_vals
}.

(** The exceptions of the mouse loop: those of the scorer, and the
    [IndexError] of [symbols[i]]. *)
Inductive mouse_exn : Set :=
| Exn (e : exn)
| IndexError.

Section MouseLoop.
Variable graph : Graph.
Variable mdf : list mouse_gene.
Variable srd : gmap string (list Q).
Variable nv : node_vectors.
Variable alpha_FDR : Q.

(** The frame one pass of [for i in range(len(mgis))] appends. *)
Definition mouse_frame (mgi symbol hid n : string) (N_gene_con : nat)
    (GOdf : list go_row) : list mouse_row :=
  (fun g => {| mr_MGI := mgi; mr_Symbol := symbol;
               mr_mapped_HGNC := hid; mr_mapped_Symbol := n;
               mr_GO_description := go_description g; mr_GO_ID := go_id g;
               mr_N_con_gene := N_gene_con; mr_N_con_GO := go_N_con g;
               mr_vals := {| v_similarity := go_similarity g;
                             v_pval := go_pval g; v_padj := go_padj g |} |})
  <$> GOdf.

(** [for i in range(len(mgis))], from the index [i] on, [mgis] being the
    identifiers from [i] on.  The table built so far is returned with the
    exception that ended the loop, if one did. *)
Fixpoint append_copies (symbols : list string) (hid n : string) (N_gene_con : nat)
    (mgis : list string) (i : nat) (df : list mouse_row)
    : list mouse_row * option mouse_exn :=
  match mgis with
  | [] => (df, None)
  | mgi :: mgis' =>
      match get_GO_df graph srd nv n N_gene_con alpha_FDR with
      | Raise e => (df, Some (Exn e))
      | Ok GOdf =>
          match symbols !! i with
          | None => (df, Some IndexError)
          | Some symbol =>
              append_copies symbols hid n N_gene_con mgis' (S i)
                (df ++ mouse_frame mgi symbol hid n N_gene_con GOdf)
          end
      end
  end.

(** The body of [for n in g_view] in mouse mode, with its
    [except KeyError: pass]; [hgncid] is [list(self.mdf['HGNC'])]. *)
Definition score_node_mouse (df : list mouse_row) (n : string)
    : list mouse_row * option mouse_exn :=
  match g_node graph !! n with
  | None => (df, None)
  | Some attrs =>
      match attrs !! "HGNC"%string with
      | None => (df, None)
      | Some hid =>
          if bool_decide (hid ∈ mg_HGNC <$> mdf) then
            let sel := filter (fun g => mg_HGNC g = hid) mdf in
            let mgis := unique (mg_MGI <$> sel) in
            let symbols := unique (mg_Symbol <$> sel) in
            match g_adj graph !! n with
            | None => (df, None)
            | Some nbrs =>
                match append_copies symbols hid n (size nbrs) mgis 0 df with
                | (df', Some (Exn KeyError)) => (df', None)
                | r => r
                end
            end
          else (df, None)
      end
  end.

Fixpoint score_nodes_mouse (df : list mouse_row) (g_view : list string)
    : list mouse_row * option mouse_exn :=
  match g_view with
  | [] => (df, None)
  | n :: g_view' =>
      match score_node_mouse df n with
      | (df', None) => score_nodes_mouse df' g_view'
      | r => r
      end
  end.
End MouseLoop.

(** The columns a mouse row shares with a row of human mode, [mapped
    HGNC] and [mapped Symbol] taken as [HGNC] and [Symbol]. *)
Definition mapped_row (r : mouse_row) : rep_row :=
  {| rr_key := {| k_HGNC := mr_mapped_HGNC r; k_Symbol := mr_mapped_Symbol r;
                  k_GO_description := mr_GO_description r; k_GO_ID := mr_GO_ID r;
                  k_N_con_gene := mr_N_con_gene r; k_N_con_GO := mr_N_con_GO r |};
     rr_vals := mr_vals r |}.

(** ** Mouse genes of the example network

    Two mouse genes are mapped to the identifier [G1] of gene [A], one to
    the identifier [G2] of gene [B]. *)
Module MouseExample.
Open Scope string_scope.

Definition mdf : list mouse_gene :=
  [ {| mg_MGI := "MGI:101"; mg_Symbol := "a1"; mg_HGNC := "G1" |};
    {| mg_MGI := "MGI:102"; mg_Symbol := "a2"; mg_HGNC := "G1" |};
    {| mg_MGI := "MGI:201"; mg_Symbol := "b"; mg_HGNC := "G2" |} ].
End MouseExample.

(** ** Tables up to the order of their rows

    Two runs of the node loop agree: both fail with the same error, or
    both return, and with the same rows, in any order. *)
Definition same_table (r1 r2 : result (list rep_row)) : Prop :=
  match r1, r2 with
  | Ok df1, Ok df2 => df1 ≡ₚ df2
  | Raise e1, Raise e2 => e1 = e2
  | _, _ => False
  end.

(** The network with its nodes listed in another order. *)
Definition with_nodes (graph : Graph) (nodes : list string) : Graph :=
  {| g_nodes := nodes; g_node := g_node graph; g_adj := g_adj graph |}.

(** * Properties *)

(** ** Rational comparisons *)

Lemma Qlt_bool_iff x y : Qlt_bool x y = true <-> x < y.
Proof.
  unfold Qlt_bool. rewrite negb_true_iff.
  split; intros Hxy.
  - apply Qnot_le_lt. intros Hle. apply Qle_bool_iff in Hle. congruence.
  - destruct (Qle_bool y x) eqn:E; [|reflexivity].
    apply Qle_bool_iff in E. exfalso. apply (Qlt_not_le _ _ Hxy E).
Qed.

Lemma Qlt_bool_false_iff x y : Qlt_bool x y = false <-> y <= x.
Proof.
  unfold Qlt_bool. rewrite negb_false_iff. apply Qle_bool_iff.
Qed.

#[export] Instance Qle_trans_inst : Transitive Qle.
Proof. intros x y z. apply Qle_trans. Qed.

#[export] Instance Qle_total_inst : Total Qle.
Proof.
  intros x y. destruct (Qlt_le_dec x y) as [Hlt|Hle].
  - left. apply Qlt_le_weak, Hlt.
  - right. exact Hle.
Qed.

Example dist_key_4 : dist_key 4 = "d2.0"%string.
Proof. reflexivity. Qed.

Example P_sim_example :
  P_sim {[ "d2.0"%string := [1#8; 2#8; 5#8; 7#8] ]} (15#16) 4 = Ok (1 - 4/4).
Proof. vm_compute. reflexivity. Qed.

(** ** Binary search *)

Lemma StronglySorted_Qle_lookup (a : list Q) (i j : nat) (x y : Q) :
  StronglySorted Qle a -> (i <= j)%nat ->
  a !! i = Some x -> a !! j = Some y -> x <= y.
Proof.
  intros Hs. revert i j x y.
  induction Hs as [|z a Hs IH Hall]; intros i j x y Hij Hi Hj.
  - rewrite lookup_nil in Hi. discriminate.
  - destruct i as [|i], j as [|j]; simpl in *.
    + injection Hi as <-. injection Hj as <-. apply Qle_refl.
    + injection Hi as <-. rewrite Forall_forall in Hall.
      apply Hall. eapply list_elem_of_lookup_2, Hj.
    + lia.
    + apply (IH i j); [lia|assumption..].
Qed.

Lemma midpoint_bounds (lo hi : nat) :
  (lo < hi)%nat -> (lo <= lo + (hi - lo) / 2 < hi)%nat.
Proof.
  intros Hlt. pose proof (Nat.div_lt (hi - lo) 2). lia.
Qed.

Lemma bisect_left_bounds (fuel : nat) (a : list Q) (key : Q) (lo hi : nat) :
  (lo <= hi)%nat ->
  (lo <= bisect_left fuel a key lo hi <= hi)%nat.
Proof.
  revert lo hi. induction fuel as [|fuel IH]; intros lo hi Hle; cbn [bisect_left].
  - lia.
  - destruct (Nat.ltb_spec lo hi) as [Hlt|Hge]; [|lia].
    set (mid := (lo + (hi - lo) / 2)%nat).
    assert (Hmid : (lo <= mid < hi)%nat) by (apply midpoint_bounds, Hlt).
    clearbody mid.
    destruct (Qlt_bool _ key).
    + specialize (IH (mid + 1)%nat hi). lia.
    + specialize (IH lo mid). lia.
Qed.

(** The loop has ended when the rounds run out: any larger number of
    rounds gives the same result. *)
Lemma bisect_left_fuel (f1 f2 : nat) (a : list Q) (key : Q) (lo hi : nat) :
  (hi - lo <= f1)%nat -> (hi - lo <= f2)%nat ->
  bisect_left f1 a key lo hi = bisect_left f2 a key lo hi.
Proof.
  revert f2 lo hi. induction f1 as [|f1 IH]; intros f2 lo hi H1 H2.
  - destruct f2 as [|f2]; [reflexivity|]. cbn [bisect_left].
    destruct (Nat.ltb_spec lo hi); [lia|reflexivity].
  - destruct f2 as [|f2]; cbn [bisect_left].
    + destruct (Nat.ltb_spec lo hi); [lia|reflexivity].
    + destruct (Nat.ltb_spec lo hi) as [Hlt|Hge]; [|reflexivity].
      pose proof (midpoint_bounds lo hi Hlt) as Hmid.
      destruct (Qlt_bool _ key); apply IH; lia.
Qed.

(** A larger key never lands left of a smaller one, sorted array or not. *)
Lemma bisect_left_mono (fuel : nat) (a : list Q) (k1 k2 : Q) (lo hi : nat) :
  k1 <= k2 -> (lo <= hi)%nat ->
  (bisect_left fuel a k1 lo hi <= bisect_left fuel a k2 lo hi)%nat.
Proof.
  intros Hk. revert lo hi.
  induction fuel as [|fuel IH]; intros lo hi Hle; cbn [bisect_left].
  - lia.
  - destruct (Nat.ltb_spec lo hi) as [Hlt|Hge]; [|lia].
    set (mid := (lo + (hi - lo) / 2)%nat).
    assert (Hmid : (lo <= mid < hi)%nat) by (apply midpoint_bounds, Hlt).
    destruct (Qlt_bool (a !!! mid) k1) eqn:E1.
    + assert (E2 : Qlt_bool (a !!! mid) k2 = true).
      { apply Qlt_bool_iff. apply Qlt_bool_iff in E1.
        eapply Qlt_le_trans; eassumption. }
      rewrite E2. apply IH. lia.
    + destruct (Qlt_bool (a !!! mid) k2).
      * pose proof (bisect_left_bounds fuel a k1 lo mid ltac:(lia)).
        pose proof (bisect_left_bounds fuel a k2 (mid + 1) hi ltac:(lia)).
        lia.
      * apply IH. lia.
Qed.

Lemma bisect_left_split (fuel : nat) (a : list Q) (key : Q) (lo hi : nat) :
  StronglySorted Qle a ->
  (lo <= hi <= length a)%nat -> (hi - lo <= fuel)%nat ->
  (forall i x, (i < lo)%nat -> a !! i = Some x -> x < key) ->
  (forall i x, (hi <= i)%nat -> a !! i = Some x -> key <= x) ->
  (forall i x, (i < bisect_left fuel a key lo hi)%nat -> a !! i = Some x -> x < key) /\
  (forall i x, (bisect_left fuel a key lo hi <= i)%nat -> a !! i = Some x -> key <= x).
Proof.
  intros Hs. revert lo hi.
  induction fuel as [|fuel IH]; intros lo hi Hle Hfuel Hbelow Habove;
    cbn [bisect_left].
  - assert (lo = hi) by lia. subst hi. split; assumption.
  - destruct (Nat.ltb_spec lo hi) as [Hlt|Hge].
    2:{ assert (lo = hi) by lia. subst hi. split; assumption. }
    set (mid := (lo + (hi - lo) / 2)%nat).
    assert (Hmid : (lo <= mid < hi)%nat) by (apply midpoint_bounds, Hlt).
    assert (Hlook : a !! mid = Some (a !!! mid)).
    { apply list_lookup_lookup_total_lt. lia. }
    destruct (Qlt_bool (a !!! mid) key) eqn:E.
    + apply Qlt_bool_iff in E.
      apply IH; [lia | subst mid; lia | | assumption].
      intros i x Hi Hx.
      eapply Qle_lt_trans; [|exact E].
      apply (StronglySorted_Qle_lookup a i mid); [assumption|lia|assumption..].
    + apply Qlt_bool_false_iff in E.
      apply IH; [lia | subst mid; lia | assumption | ].
      intros i x Hi Hx.
      eapply Qle_trans; [exact E|].
      apply (StronglySorted_Qle_lookup a mid i); [assumption|lia|assumption..].
Qed.

Lemma count_lt_split (key : Q) (a : list Q) (r : nat) :
  (r <= length a)%nat ->
  (forall i x, (i < r)%nat -> a !! i = Some x -> x < key) ->
  (forall i x, (r <= i)%nat -> a !! i = Some x -> key <= x) ->
  count_lt key a = r.
Proof.
  unfold count_lt. revert r.
  induction a as [|y a IH]; intros r Hr Hbelow Habove; simpl in *.
  - lia.
  - rewrite filter_cons. destruct r as [|r].
    + assert (Hy : key <= y) by (apply (Habove 0%nat); [lia|reflexivity]).
      rewrite decide_False.
      2:{ intros Hlt. apply Qlt_bool_iff in Hlt. apply (Qlt_not_le _ _ Hlt Hy). }
      apply IH; [lia| intros; lia |].
      intros i x _ Hx. apply (Habove (S i)); [lia|exact Hx].
    + assert (Hy : y < key) by (apply (Hbelow 0%nat); [lia|reflexivity]).
      rewrite decide_True by (apply Qlt_bool_iff, Hy).
      simpl. f_equal. apply IH; [lia| |].
      * intros i x Hi Hx. apply (Hbelow (S i)); [lia|exact Hx].
      * intros i x Hi Hx. apply (Habove (S i)); [lia|exact Hx].
Qed.

(** On a sorted array the left insertion point is the number of elements
    strictly below the key. *)
Lemma searchsorted_count_lt (a : list Q) (key : Q) :
  Sorted Qle a -> searchsorted a key = count_lt key a.
Proof.
  intros Hs. apply Sorted_StronglySorted in Hs; [|apply Qle_trans_inst].
  unfold searchsorted. symmetry.
  pose proof (bisect_left_bounds (length a) a key 0 (length a) ltac:(lia)).
  destruct (bisect_left_split (length a) a key 0 (length a) Hs) as [Hb Ha].
  - lia.
  - lia.
  - intros; lia.
  - intros i x Hi Hx. apply lookup_lt_Some in Hx. lia.
  - apply count_lt_split; [lia|assumption..].
Qed.

Lemma searchsorted_le_length (a : list Q) (key : Q) :
  (searchsorted a key <= length a)%nat.
Proof.
  pose proof (bisect_left_bounds (length a) a key 0 (length a) ltac:(lia)). unfold searchsorted. lia.
Qed.

(** ** [P_sim]: the empirical p-value *)

Lemma rank_ratio_le (r1 r2 n : nat) :
  (r1 <= r2)%nat ->
  inject_Z (Z.of_nat r1) / inject_Z (Z.of_nat n)
  <= inject_Z (Z.of_nat r2) / inject_Z (Z.of_nat n).
Proof.
  intros Hr. unfold Qdiv. apply Qmult_le_compat_r.
  - rewrite <- Zle_Qle. lia.
  - apply Qinv_le_0_compat. change 0 with (inject_Z 0). rewrite <- Zle_Qle. lia.
Qed.

Lemma rank_ratio_bounds (r n : nat) :
  (r <= n)%nat -> (0 < n)%nat ->
  0 <= inject_Z (Z.of_nat r) / inject_Z (Z.of_nat n) <= 1.
Proof.
  intros Hr Hn.
  assert (Hpos : 0 < inject_Z (Z.of_nat n)).
  { change 0 with (inject_Z 0). rewrite <- Zlt_Qlt. lia. }
  split.
  - apply Qle_shift_div_l; [exact Hpos|].
    rewrite Qmult_0_l. change 0 with (inject_Z 0). rewrite <- Zle_Qle. lia.
  - apply Qle_shift_div_r; [exact Hpos|].
    rewrite Qmult_1_l. rewrite <- Zle_Qle. lia.
Qed.

Lemma P_sim_value (srd : gmap string (list Q)) (sim : Q) (N_con : nat)
    (v : list Q) :
  srd !! dist_key N_con = Some v -> v <> [] ->
  P_sim srd sim N_con
  = Ok (1 - inject_Z (Z.of_nat (searchsorted v sim)) / inject_Z (Z.of_nat (length v))).
Proof.
  intros Hv Hne. unfold P_sim, getitem. rewrite Hv. simpl.
  destruct v as [|x v]; [congruence|]. reflexivity.
Qed.

Lemma P_sim_unit_interval (srd : gmap string (list Q)) (sim : Q) (N_con : nat)
    (p : Q) :
  P_sim srd sim N_con = Ok p -> 0 <= p <= 1.
Proof.
  unfold P_sim, getitem. destruct (srd !! dist_key N_con) as [v|]; simpl; [|discriminate].
  destruct (length v) as [|n] eqn:Hlen; [discriminate|].
  intros [= <-].
  pose proof (searchsorted_le_length v sim) as Hr. rewrite Hlen in Hr.
  pose proof (rank_ratio_bounds (searchsorted v sim) (S n) Hr ltac:(lia)) as [H0 H1].
  split; lra.
Qed.

(** C1: for a bucket whose null sample [v] is sorted (and holds at least
    one value), [P_sim] returns [1 - rank/len(v)] where [rank] is the number
    of sampled values strictly below the observed similarity, which is the
    left insertion point; the value lies in [0,1]. *)
Theorem P_sim_is_one_minus_rank_fraction
    (srd : gmap string (list Q)) (sim : Q) (N_con : nat) (v : list Q) :
  srd !! dist_key N_con = Some v -> Sorted Qle v -> v <> [] ->
  P_sim srd sim N_con
  = Ok (1 - inject_Z (Z.of_nat (count_lt sim v)) / inject_Z (Z.of_nat (length v)))
  /\ searchsorted v sim = count_lt sim v
  /\ 0 <= 1 - inject_Z (Z.of_nat (count_lt sim v)) / inject_Z (Z.of_nat (length v)) <= 1.
Proof.
  intros Hv Hs Hne.
  pose proof (P_sim_value srd sim N_con v Hv Hne) as Hp.
  rewrite (searchsorted_count_lt v sim Hs) in Hp.
  split; [exact Hp|]. split; [apply searchsorted_count_lt, Hs|].
  eapply P_sim_unit_interval, Hp.
Qed.

(** The bucket ["d2.0"] with a tie at the observed similarity [2/8]: one
    sampled value lies strictly below it. *)
Lemma P_sim_is_one_minus_rank_fraction_witness :
  P_sim {[ "d2.0"%string := [1#8; 2#8; 2#8; 5#8] ]} (2#8) 4
  = Ok (1 - inject_Z 1 / inject_Z 4).
Proof.
  pose proof (P_sim_is_one_minus_rank_fraction
                {[ "d2.0"%string := [1#8; 2#8; 2#8; 5#8] ]} (2#8) 4
                [1#8; 2#8; 2#8; 5#8]) as H.
  destruct H as [H _].
  - vm_compute. reflexivity.
  - repeat constructor; vm_compute; discriminate.
  - discriminate.
  - exact H.
Defined.

(** C7: in a fixed bucket the p-value does not increase with the observed
    similarity: [s2 < s1] gives [P_sim s1 <= P_sim s2]. *)
Theorem P_sim_non_increasing
    (srd : gmap string (list Q)) (N_con : nat) (v : list Q) (s1 s2 : Q) :
  srd !! dist_key N_con = Some v -> v <> [] -> s2 < s1 ->
  exists p1 p2,
    P_sim srd s1 N_con = Ok p1 /\ P_sim srd s2 N_con = Ok p2 /\ p1 <= p2.
Proof.
  intros Hv Hne Hlt.
  eexists _, _. split; [apply (P_sim_value srd s1 N_con v Hv Hne)|].
  split; [apply (P_sim_value srd s2 N_con v Hv Hne)|].
  assert (Hr : (searchsorted v s2 <= searchsorted v s1)%nat).
  { apply bisect_left_mono; [apply Qlt_le_weak, Hlt | lia]. }
  pose proof (rank_ratio_le _ _ (length v) Hr). lra.
Qed.

(** The similarities [3/8] and [2/8] in the bucket ["d2.0"]. *)
Lemma P_sim_non_increasing_witness :
  exists p1 p2,
    P_sim {[ "d2.0"%string := [1#8; 2#8; 2#8; 5#8] ]} (3#8) 4 = Ok p1 /\
    P_sim {[ "d2.0"%string := [1#8; 2#8; 2#8; 5#8] ]} (2#8) 4 = Ok p2 /\
    p1 <= p2.
Proof.
  apply (P_sim_non_increasing _ 4 [1#8; 2#8; 2#8; 5#8]).
  - vm_compute. reflexivity.
  - discriminate.
  - reflexivity.
Defined.

(** ** Benjamini-Hochberg adjustment *)

#[export] Instance pval_le_trans : Transitive pval_le.
Proof. intros x y z. unfold pval_le. apply Qle_trans. Qed.

#[export] Instance pval_le_total : Total pval_le.
Proof. intros x y. unfold pval_le. apply Qle_total_inst. Qed.

Section Scatter.
Context {A : Type}.
Implicit Types (idx : list nat) (vals out : list A).

Let write out (iv : nat * A) := <[iv.1 := iv.2]> out.

Lemma scatter_loop_length idx vals out :
  length (foldl write out (zip idx vals)) = length out.
Proof.
  revert vals out. induction idx as [|i idx IH]; intros [|v vals] out; simpl; try done.
  rewrite IH. apply length_insert.
Qed.

Lemma scatter_loop_untouched idx vals out i :
  i ∉ idx -> foldl write out (zip idx vals) !! i = out !! i.
Proof.
  revert vals out. induction idx as [|i0 idx IH]; intros [|v vals] out Hni; simpl; try done.
  rewrite IH by set_solver. apply list_lookup_insert_ne. set_solver.
Qed.

Lemma scatter_loop_written idx vals out k i v :
  NoDup idx -> (forall j, j ∈ idx -> (j < length out)%nat) ->
  idx !! k = Some i -> vals !! k = Some v ->
  foldl write out (zip idx vals) !! i = Some v.
Proof.
  revert vals out k. induction idx as [|i0 idx IH]; intros vals out k Hnd Hlt Hi Hv.
  - rewrite lookup_nil in Hi. discriminate.
  - destruct vals as [|v0 vals]; [rewrite lookup_nil in Hv; discriminate|].
    apply NoDup_cons in Hnd as [Hni Hnd]. simpl. destruct k as [|k]; simpl in *.
    + injection Hi as ->. injection Hv as ->.
      rewrite scatter_loop_untouched by exact Hni.
      apply list_lookup_insert_eq. apply Hlt. left.
    + apply (IH vals _ k); [exact Hnd| |exact Hi|exact Hv].
      intros j Hj. unfold write. rewrite length_insert. apply Hlt. right. exact Hj.
Qed.

Lemma length_scatter (d : A) idx vals :
  length (scatter d idx vals) = length vals.
Proof. unfold scatter. rewrite (scatter_loop_length idx vals). apply length_replicate. Qed.

(** With [idx] a rearrangement of [0 .. n-1], slot [idx[k]] holds
    [vals[k]]. *)
Lemma scatter_lookup (d : A) idx vals k i v :
  idx ≡ₚ seq 0 (length vals) ->
  idx !! k = Some i -> vals !! k = Some v ->
  scatter d idx vals !! i = Some v.
Proof.
  intros Hperm Hi Hv. unfold scatter.
  apply (scatter_loop_written idx vals _ k); [| |exact Hi|exact Hv].
  - rewrite Hperm. apply NoDup_seq.
  - intros j Hj. rewrite Hperm in Hj. apply elem_of_seq in Hj.
    rewrite length_replicate. lia.
Qed.
End Scatter.

Lemma length_accumulate_from (m : Q) (l : list Q) :
  length (accumulate_from m l) = length l.
Proof. revert m. induction l as [|x l IH]; intros m; simpl; [done|]. by rewrite IH. Qed.

Lemma length_minimum_accumulate (l : list Q) :
  length (minimum_accumulate l) = length l.
Proof. destruct l; simpl; [done|]. by rewrite length_accumulate_from. Qed.

Lemma accumulate_from_ge (l : list Q) (m c : Q) (j : nat) (q : Q) :
  c <= m ->
  (forall i x, (i <= j)%nat -> l !! i = Some x -> c <= x) ->
  accumulate_from m l !! j = Some q -> c <= q.
Proof.
  revert m j. induction l as [|y l IH]; intros m j Hm Hl Hq; simpl in Hq.
  - rewrite lookup_nil in Hq. discriminate.
  - assert (Hy : c <= y) by (apply (Hl 0%nat); [lia|reflexivity]).
    assert (Hmin : c <= Qmin m y) by (apply Q.min_glb; assumption).
    destruct j as [|j]; simpl in Hq.
    + injection Hq as <-. exact Hmin.
    + apply (IH (Qmin m y) j); [exact Hmin| |exact Hq].
      intros i x Hi Hx. apply (Hl (S i)); [lia|exact Hx].
Qed.

Lemma minimum_accumulate_ge (l : list Q) (c : Q) (j : nat) (q : Q) :
  (forall i x, (i <= j)%nat -> l !! i = Some x -> c <= x) ->
  minimum_accumulate l !! j = Some q -> c <= q.
Proof.
  intros Hl Hq. destruct l as [|y l]; simpl in Hq.
  - rewrite lookup_nil in Hq. discriminate.
  - assert (Hy : c <= y) by (apply (Hl 0%nat); [lia|reflexivity]).
    destruct j as [|j]; simpl in Hq.
    + injection Hq as <-. exact Hy.
    + apply (accumulate_from_ge l y c j); [exact Hy| |exact Hq].
      intros i x Hi Hx. apply (Hl (S i)); [lia|exact Hx].
Qed.

(** The running minimum taken from the right end is bounded below by any
    bound of the entries from [k] on. *)
Lemma reversed_accumulate_ge (raw : list Q) (c : Q) (k : nat) (q : Q) :
  (forall i x, (k <= i)%nat -> raw !! i = Some x -> c <= x) ->
  reverse (minimum_accumulate (reverse raw)) !! k = Some q -> c <= q.
Proof.
  intros Hraw Hq.
  assert (Hk : (k < length raw)%nat).
  { apply lookup_lt_Some in Hq.
    rewrite length_reverse, length_minimum_accumulate, length_reverse in Hq. exact Hq. }
  rewrite reverse_lookup in Hq
    by (rewrite length_minimum_accumulate, length_reverse; exact Hk).
  rewrite length_minimum_accumulate, length_reverse in Hq.
  eapply minimum_accumulate_ge; [|exact Hq].
  intros i x Hi Hx.
  rewrite reverse_lookup in Hx by lia.
  apply (Hraw (length raw - S i)%nat); [lia|exact Hx].
Qed.

Lemma Qdiv_fraction_ge (x e : Q) :
  0 <= x -> 0 < e -> e <= 1 -> x <= x / e.
Proof.
  intros Hx He He1. apply Qle_shift_div_l; [exact He|]. nra.
Qed.

Lemma _ecdf_lookup (x : list Q) (k : nat) (e : Q) :
  _ecdf x !! k = Some e ->
  e = inject_Z (Z.of_nat (1 + k)) / inject_Z (Z.of_nat (length x)) /\ 0 < e /\ e <= 1.
Proof.
  unfold _ecdf. rewrite list_lookup_fmap.
  destruct (seq 1 (length x) !! k) as [i|] eqn:Hi; simpl; [|discriminate].
  apply lookup_seq in Hi as [-> Hk]. intros [= <-].
  split; [reflexivity|].
  assert (Hpos : 0 < inject_Z (Z.of_nat (length x))).
  { change 0 with (inject_Z 0). rewrite <- Zlt_Qlt. lia. }
  split.
  - apply Qlt_shift_div_l; [exact Hpos|]. rewrite Qmult_0_l.
    change 0 with (inject_Z 0). rewrite <- Zlt_Qlt. lia.
  - apply Qle_shift_div_r; [exact Hpos|]. rewrite Qmult_1_l.
    rewrite <- Zle_Qle. lia.
Qed.

Lemma length__ecdf (x : list Q) : length (_ecdf x) = length x.
Proof. unfold _ecdf. by rewrite length_fmap, length_seq. Qed.

Section Argsort.
Variable pvals : list Q.

Let pairs := zip pvals (seq 0 (length pvals)).
Let sorted_pairs := merge_sort pval_le pairs.

Lemma argsort_pairs : argsort pvals = sorted_pairs.*2.
Proof. reflexivity. Qed.

Lemma pairs_index (vi : Q * nat) : vi ∈ pairs -> pvals !! vi.2 = Some vi.1.
Proof.
  intros Hin. apply list_elem_of_lookup in Hin as [k Hk].
  destruct vi as [v i]. apply lookup_zip_Some in Hk as [Hv Hi].
  apply lookup_seq in Hi as [-> _]. exact Hv.
Qed.

Lemma argsort_Permutation : argsort pvals ≡ₚ seq 0 (length pvals).
Proof.
  rewrite argsort_pairs. subst sorted_pairs.
  rewrite (merge_sort_Permutation pval_le pairs). subst pairs.
  rewrite snd_zip; [done|]. by rewrite length_seq.
Qed.

Lemma length_argsort : length (argsort pvals) = length pvals.
Proof. rewrite argsort_Permutation. apply length_seq. Qed.

(** Taking the values at the sorting indices gives the sorted values. *)
Lemma np_take_argsort : np_take pvals (argsort pvals) = sorted_pairs.*1.
Proof.
  rewrite argsort_pairs.
  assert (Hall : Forall (fun vi => pvals !! vi.2 = Some vi.1) sorted_pairs).
  { apply Forall_forall. intros vi Hin. apply pairs_index.
    subst sorted_pairs. by rewrite (merge_sort_Permutation pval_le pairs) in Hin. }
  unfold np_take. induction Hall as [|vi l Hvi Hall IH]; simpl; [done|].
  f_equal; [|exact IH].
  apply list_lookup_total_correct, Hvi.
Qed.

Lemma np_take_argsort_sorted : StronglySorted Qle (np_take pvals (argsort pvals)).
Proof.
  rewrite np_take_argsort.
  apply (StronglySorted_fmap fst pval_le Qle); [intros x y Hxy; exact Hxy|].
  apply StronglySorted_merge_sort; apply _.
Qed.

Lemma np_take_argsort_lookup (k i : nat) :
  argsort pvals !! k = Some i ->
  np_take pvals (argsort pvals) !! k = pvals !! i.
Proof.
  intros Hk. unfold np_take. rewrite list_lookup_fmap, Hk. simpl.
  symmetry. apply list_lookup_lookup_total_lt.
  apply list_elem_of_lookup_2 in Hk. rewrite argsort_Permutation in Hk.
  apply elem_of_seq in Hk. lia.
Qed.
End Argsort.

(** The adjusted values of [fdrcorrection]: one per p-value, never below
    the p-value it adjusts and never above 1. *)
Lemma fdrcorrection_length (pvals : list Q) (alpha : Q) :
  length (fdrcorrection pvals alpha).2 = length pvals.
Proof.
  unfold fdrcorrection. cbn [snd]. rewrite length_scatter, length_fmap.
  rewrite length_reverse, length_minimum_accumulate, length_reverse.
  rewrite length_zip_with, length__ecdf. unfold np_take.
  rewrite length_fmap, length_argsort. lia.
Qed.

Section Corrected.
Variable pvals : list Q.
Hypothesis pvals_unit : Forall (fun p => 0 <= p <= 1) pvals.

Let sortind := argsort pvals.
Let sorted := np_take pvals sortind.
Let raw := zip_with Qdiv sorted (_ecdf sorted).
Let corrected := reverse (minimum_accumulate (reverse raw)).

Lemma length_corrected : length corrected = length pvals.
Proof.
  subst corrected raw sorted sortind.
  rewrite length_reverse, length_minimum_accumulate, length_reverse.
  rewrite length_zip_with, length__ecdf. unfold np_take.
  rewrite length_fmap, length_argsort. lia.
Qed.

(** The slot [i] of the result is written from the rank [k] that [i]
    sorts to. *)
Lemma fdrcorrection_slot (alpha : Q) (k i : nat) (c : Q) :
  sortind !! k = Some i -> corrected !! k = Some c ->
  (fdrcorrection pvals alpha).2 !! i = Some (if Qlt_bool 1 c then 1 else c).
Proof.
  intros Hk Hc. unfold fdrcorrection. cbn [snd].
  apply (scatter_lookup 0 _ _ k).
  - rewrite length_fmap. fold sortind sorted raw corrected.
    rewrite length_corrected. apply argsort_Permutation.
  - exact Hk.
  - fold sortind sorted raw corrected. by rewrite list_lookup_fmap, Hc.
Qed.

Lemma corrected_ge (k i : nat) (p c : Q) :
  sortind !! k = Some i -> pvals !! i = Some p -> corrected !! k = Some c -> p <= c.
Proof.
  intros Hk Hp Hc.
  assert (Hp01 : 0 <= p <= 1).
  { rewrite Forall_forall in pvals_unit. apply pvals_unit.
    eapply list_elem_of_lookup_2, Hp. }
  assert (Hsk : sorted !! k = Some p).
  { subst sorted sortind. rewrite (np_take_argsort_lookup pvals k i Hk). exact Hp. }
  apply (reversed_accumulate_ge raw p k c); [|exact Hc].
  intros j x Hj Hx. subst raw.
  apply lookup_zip_with_Some in Hx as (s & e & -> & Hs & He).
  apply _ecdf_lookup in He as (_ & He0 & He1).
  assert (Hps : p <= s).
  { apply (StronglySorted_Qle_lookup sorted k j); [|exact Hj|exact Hsk|exact Hs].
    apply np_take_argsort_sorted. }
  eapply Qle_trans; [exact Hps|].
  apply Qdiv_fraction_ge; [|exact He0|exact He1].
  eapply Qle_trans; [apply Hp01|exact Hps].
Qed.

Lemma sortind_rank (i : nat) :
  (i < length pvals)%nat -> exists k, sortind !! k = Some i /\ (k < length pvals)%nat.
Proof.
  intros Hi.
  assert (Hin : i ∈ sortind).
  { subst sortind. rewrite argsort_Permutation. apply elem_of_seq. lia. }
  apply list_elem_of_lookup in Hin as [k Hk]. exists k. split; [exact Hk|].
  apply lookup_lt_Some in Hk. subst sortind. by rewrite length_argsort in Hk.
Qed.

Lemma fdrcorrection_bounds (alpha : Q) (i : nat) (p q : Q) :
  pvals !! i = Some p -> (fdrcorrection pvals alpha).2 !! i = Some q ->
  p <= q /\ 0 <= q /\ q <= 1.
Proof.
  intros Hp Hq.
  assert (Hp01 : 0 <= p <= 1).
  { rewrite Forall_forall in pvals_unit. apply pvals_unit.
    eapply list_elem_of_lookup_2, Hp. }
  destruct (sortind_rank i (lookup_lt_Some _ _ _ Hp)) as (k & Hk & Hklt).
  destruct (lookup_lt_is_Some_2 corrected k) as [c Hc];
    [rewrite length_corrected; exact Hklt|].
  rewrite (fdrcorrection_slot alpha k i c Hk Hc) in Hq. injection Hq as <-.
  pose proof (corrected_ge k i p c Hk Hp Hc) as Hpc.
  destruct (Qlt_bool 1 c) eqn:E.
  - split; [apply Hp01|]. split; [discriminate|apply Qle_refl].
  - apply Qlt_bool_false_iff in E. split; [exact Hpc|]. split; [|exact E].
    eapply Qle_trans; [apply Hp01|exact Hpc].
Qed.

(** *** The library routine computes the specification's adjustment *)

Lemma accumulate_from_snoc (m : Q) (l : list Q) (x : Q) :
  accumulate_from m (l ++ [x])
  = accumulate_from m l ++ [Qmin (default m (last (accumulate_from m l))) x].
Proof.
  revert m. induction l as [|y l IH]; intros m; [reflexivity|].
  cbn [app accumulate_from]. rewrite IH. cbn [app]. do 3 f_equal.
  rewrite last_cons. by destruct (last (accumulate_from (Qmin m y) l)).
Qed.

Lemma reversed_accumulate_cons (x : Q) (l : list Q) :
  reverse (minimum_accumulate (reverse (x :: l)))
  = match reverse (minimum_accumulate (reverse l)) with
    | [] => [x]
    | y :: rest => Qmin y x :: y :: rest
    end.
Proof.
  rewrite reverse_cons. destruct (reverse l) as [|a xs]; [reflexivity|].
  cbn [app minimum_accumulate]. rewrite accumulate_from_snoc.
  rewrite app_comm_cons, reverse_snoc.
  assert (Hhd : head (reverse (a :: accumulate_from a xs))
                = Some (default a (last (accumulate_from a xs)))).
  { rewrite head_reverse, last_cons. by destruct (last (accumulate_from a xs)). }
  destruct (reverse (a :: accumulate_from a xs)) as [|y rest]; [discriminate|].
  injection Hhd as ->. reflexivity.
Qed.

Lemma reversed_accumulate_running_min (l l' : list Q) :
  Forall2 Qeq l l' ->
  Forall2 Qeq (reverse (minimum_accumulate (reverse l))) (running_min_down l').
Proof.
  induction 1 as [|x x' l l' Hx Hl IH]; [constructor|].
  rewrite reversed_accumulate_cons. cbn [running_min_down].
  destruct IH as [|y y' r r' Hy Hr]; constructor.
  - exact Hx.
  - constructor.
  - rewrite Q.min_comm. by apply Q.min_compat.
  - by constructor.
Qed.

Lemma raw_is_rank_scaled (m j : nat) (l : list Q) :
  (0 < m)%nat ->
  Forall2 Qeq
    (zip_with Qdiv l
       ((fun i => inject_Z (Z.of_nat i) / inject_Z (Z.of_nat m)) <$> seq (S j) (length l)))
    (imap (fun i p => p * inject_Z (Z.of_nat m) / inject_Z (Z.of_nat (S (j + i)))) l).
Proof.
  intros Hm. revert j. induction l as [|p l IH]; intros j; [constructor|].
  cbn [length seq fmap list_fmap zip_with imap]. constructor.
  - rewrite Nat.add_0_r.
    assert (Hm' : ~ inject_Z (Z.of_nat m) == 0).
    { change 0 with (inject_Z 0). rewrite inject_Z_injective. lia. }
    assert (Hj' : ~ inject_Z (Z.of_nat (S j)) == 0).
    { change 0 with (inject_Z 0). rewrite inject_Z_injective. lia. }
    field. split; assumption.
  - specialize (IH (S j)).
    eapply Forall2_impl; [|intros x y Hxy; exact Hxy].
    erewrite (imap_ext _ (fun i p => p * inject_Z (Z.of_nat m)
                                      / inject_Z (Z.of_nat (S (S j + i))))).
    + exact IH.
    + intros i x _. cbn. by rewrite Nat.add_succ_r.
Qed.

Lemma clip_is_clip01 (c : Q) :
  0 <= c -> (if Qlt_bool 1 c then 1 else c) == clip01 c.
Proof.
  intros Hc. unfold clip01. destruct (Qlt_bool 1 c) eqn:E.
  - apply Qlt_bool_iff in E.
    rewrite (Q.min_r c 1) by (apply Qlt_le_weak, E).
    rewrite Q.max_r; [reflexivity|discriminate].
  - apply Qlt_bool_false_iff in E.
    rewrite (Q.min_l c 1) by exact E. by rewrite Q.max_r.
Qed.

(** At every index the value [fdrcorrection] returns is the value the
    specification's procedure gives at the rank of that index. *)
Lemma fdrcorrection_is_bh_step_up (alpha : Q) (k i : nat) :
  sortind !! k = Some i ->
  exists q q',
    (fdrcorrection pvals alpha).2 !! i = Some q /\
    bh_step_up sorted !! k = Some q' /\ q == q'.
Proof.
  intros Hk.
  assert (Hi : (i < length pvals)%nat).
  { apply list_elem_of_lookup_2 in Hk. subst sortind.
    rewrite argsort_Permutation in Hk. apply elem_of_seq in Hk. lia. }
  assert (Hklt : (k < length pvals)%nat).
  { apply lookup_lt_Some in Hk. subst sortind. by rewrite length_argsort in Hk. }
  destruct (lookup_lt_is_Some_2 pvals i Hi) as [p Hp].
  destruct (lookup_lt_is_Some_2 corrected k) as [c Hc];
    [rewrite length_corrected; exact Hklt|].
  assert (Hlen : length sorted = length pvals).
  { subst sorted sortind. unfold np_take. by rewrite length_fmap, length_argsort. }
  assert (Hall : Forall2 Qeq corrected
                   (running_min_down
                      (imap (fun i p => p * inject_Z (Z.of_nat (length sorted))
                                        / inject_Z (Z.of_nat (S i))) sorted))).
  { subst corrected raw. apply reversed_accumulate_running_min.
    unfold _ecdf. apply (raw_is_rank_scaled (length sorted) 0 sorted). lia. }
  destruct (Forall2_lookup_l _ _ _ _ _ Hall Hc) as (c' & Hc' & Hcc).
  exists (if Qlt_bool 1 c then 1 else c), (clip01 c').
  split; [apply (fdrcorrection_slot alpha k i c Hk Hc)|]. split.
  - unfold bh_step_up. by rewrite list_lookup_fmap, Hc'.
  - rewrite clip_is_clip01.
    + unfold clip01. by rewrite Hcc.
    + assert (Hp01 : 0 <= p <= 1).
      { rewrite Forall_forall in pvals_unit. apply pvals_unit.
        eapply list_elem_of_lookup_2, Hp. }
      eapply Qle_trans; [apply Hp01|]. apply (corrected_ge k i p c Hk Hp Hc).
Qed.
End Corrected.

Example fdrcorrection_example :
  (fdrcorrection [3#16; 1#32; 1#8; 7#8] (1#16)).2
  = [12#48; 4#32; 12#48; 28#32].
Proof. vm_compute. reflexivity. Qed.

(** ** [get_GO_df]: scoring the candidates of one gene *)

Section ScorerFacts.
Variable graph : Graph.
Variable srd : gmap string (list Q).
Variable nv : node_vectors.

Lemma score_candidate_pval (N_gene_con : nat) (c : string * Q) (s : scored) :
  score_candidate graph srd N_gene_con c = Ok s -> 0 <= sc_pval s <= 1.
Proof.
  unfold score_candidate, getitem.
  destruct (g_adj graph !! c.1) as [go_nbrs|]; simpl; [|discriminate].
  destruct (g_node graph !! c.1) as [attrs|]; simpl; [|discriminate].
  destruct (attrs !! "name"%string) as [des|]; simpl; [|discriminate].
  destruct (P_sim srd c.2 _) as [pval|e] eqn:Hp; simpl; [|discriminate].
  intros [= <-]. simpl. eapply P_sim_unit_interval, Hp.
Qed.

Lemma score_candidates_Ok (N_gene_con : nat) (simdf : list (string * Q))
    (scs : list scored) :
  score_candidates graph srd N_gene_con simdf = Ok scs ->
  length scs = length simdf /\ Forall (fun s => 0 <= sc_pval s <= 1) scs.
Proof.
  revert scs. induction simdf as [|c simdf IH]; intros scs; simpl.
  - intros [= <-]. split; [reflexivity|constructor].
  - destruct (score_candidate graph srd N_gene_con c) as [s|e] eqn:Hc; simpl; [|discriminate].
    destruct (score_candidates graph srd N_gene_con simdf) as [rs|e]; simpl; [|discriminate].
    intros [= <-]. destruct (IH rs eq_refl) as [Hlen Hall]. split.
    + simpl. by rewrite Hlen.
    + constructor; [|exact Hall]. eapply score_candidate_pval, Hc.
Qed.

(** The adjusted values do not depend on [alpha]: it only enters the
    rejection flags, which [get_GO_df] discards. *)
Lemma fdrcorrection_qvalues_alpha (pvals : list Q) (alpha alpha' : Q) :
  (fdrcorrection pvals alpha).2 = (fdrcorrection pvals alpha').2.
Proof. reflexivity. Qed.

Lemma scored_table_alpha (geneoi : string) (N_gene_con : nat) (alpha alpha' : Q) :
  scored_table graph srd nv geneoi N_gene_con alpha
  = scored_table graph srd nv geneoi N_gene_con alpha'.
Proof. reflexivity. Qed.

Lemma zip_rows_columns (cs : list (string * Q)) (ss : list scored) (qs : list Q) :
  length ss = length cs -> length qs = length ss ->
  Forall (fun s => 0 <= sc_pval s <= 1) ss ->
  let rows := zip_with (fun (c : string * Q * scored) q =>
                  {| go_description := sc_DES c.2; go_id := c.1.1;
                     go_N_con := sc_N_GO_con c.2; go_similarity := c.1.2;
                     go_pval := sc_pval c.2; go_padj := q |}) (zip cs ss) qs in
  (go_id <$> rows) = cs.*1 /\ (go_pval <$> rows) = (sc_pval <$> ss) /\
  (go_padj <$> rows) = qs /\ Forall (fun r => 0 <= go_pval r <= 1) rows.
Proof.
  revert ss qs. induction cs as [|c cs IH]; intros [|s ss] [|q qs] H1 H2 Hall;
    simpl in *; try discriminate; try done.
  apply Forall_cons in Hall as [Hs Hall].
  destruct (IH ss qs ltac:(lia) ltac:(lia) Hall) as (E1 & E2 & E3 & E4).
  repeat split; [by f_equal..|]. constructor; [exact Hs|exact E4].
Qed.

(** The columns of the scored frame. *)
Lemma scored_table_columns (geneoi : string) (N_gene_con : nat) (alpha : Q)
    (simdf : list go_row) :
  scored_table graph srd nv geneoi N_gene_con alpha = Ok simdf ->
  exists nbrs ranking,
    g_adj graph !! geneoi = Some nbrs /\ nv !! geneoi = Some ranking /\
    (go_id <$> simdf) = (candidates (nbrs ∩ GO_nodes graph) ranking).*1 /\
    (go_padj <$> simdf) = (fdrcorrection (go_pval <$> simdf) alpha).2 /\
    Forall (fun r => 0 <= go_pval r <= 1) simdf.
Proof.
  unfold scored_table, getitem.
  destruct (g_adj graph !! geneoi) as [nbrs|]; simpl; [|discriminate].
  destruct (nv !! geneoi) as [ranking|]; simpl; [|discriminate].
  destruct (score_candidates graph srd N_gene_con _) as [scs|e] eqn:Hs;
    simpl; [|discriminate].
  intros [= <-]. exists nbrs, ranking. do 2 (split; [reflexivity|]).
  apply score_candidates_Ok in Hs as [Hlen Hall].
  destruct (zip_rows_columns _ scs (fdrcorrection (sc_pval <$> scs) alpha).2
              Hlen ltac:(by rewrite fdrcorrection_length, length_fmap) Hall)
    as (E1 & E2 & E3 & E4).
  split; [exact E1|]. split; [|exact E4].
  etransitivity; [exact E3|]. symmetry.
  exact (f_equal (fun l => (fdrcorrection l alpha).2) E2).
Qed.

Lemma scored_table_padj_bounds (geneoi : string) (N_gene_con : nat) (alpha : Q)
    (simdf : list go_row) :
  scored_table graph srd nv geneoi N_gene_con alpha = Ok simdf ->
  Forall (fun r => go_pval r <= go_padj r /\ 0 <= go_padj r /\ go_padj r <= 1) simdf.
Proof.
  intros Hs. apply scored_table_columns in Hs as (_ & _ & _ & _ & _ & Hq & Hall).
  apply Forall_lookup_2. intros i r Hr.
  apply (fdrcorrection_bounds (go_pval <$> simdf) ltac:(by apply Forall_fmap) alpha i).
  - by rewrite list_lookup_fmap, Hr.
  - by rewrite <- Hq, list_lookup_fmap, Hr.
Qed.

(** What [get_GO_df] returns, in terms of the scored frame. *)
Lemma get_GO_df_selection (geneoi : string) (N_gene_con : nat) (alpha : Q) :
  get_GO_df graph srd nv geneoi N_gene_con alpha
  = (fun simdf => if Qlt_bool alpha 1
                  then filter (fun r => Qlt_bool (go_padj r) alpha = true) simdf
                  else simdf)
    <$> scored_table graph srd nv geneoi N_gene_con alpha.
Proof.
  unfold get_GO_df.
  destruct (scored_table graph srd nv geneoi N_gene_con alpha); simpl; [|reflexivity].
  destruct (Qlt_bool alpha 1); reflexivity.
Qed.
End ScorerFacts.

#[local] Open Scope string_scope.

Example get_GO_df_example :
  get_GO_df Example.graph Example.srd Example.nv1 "A" 3 1
  = Ok [ {| go_description := "alpha"; go_id := "GO:1"; go_N_con := 2;
            go_similarity := 15#16; go_pval := 1#8; go_padj := 2#8 |};
         {| go_description := "beta"; go_id := "GO:2"; go_N_con := 1;
            go_similarity := 5#16; go_pval := 2#4; go_padj := 4#8 |} ].
Proof. vm_compute. reflexivity. Qed.

(** What the rows of the scored frame are: one row per candidate of the
    gene, in the order of the ranking, with the candidate's identifier and
    similarity and the values [score_candidate] computes for it. *)
Lemma score_candidates_Forall2
    (graph : Graph) (srd : gmap string (list Q)) (N_gene_con : nat)
    (simdf : list (string * Q)) (scs : list scored) :
  score_candidates graph srd N_gene_con simdf = Ok scs ->
  Forall2 (fun c s => score_candidate graph srd N_gene_con c = Ok s) simdf scs.
Proof.
  revert scs. induction simdf as [|c simdf IH]; intros scs; cbn [score_candidates].
  - intros [= <-]. apply Forall2_nil_2.
  - destruct (score_candidate graph srd N_gene_con c) as [s|e] eqn:Hc;
      cbn [mbind result_bind]; [|discriminate].
    destruct (score_candidates graph srd N_gene_con simdf) as [rs|e];
      cbn [mbind result_bind]; [|discriminate].
    intros [= <-]. apply Forall2_cons_2; [exact Hc|by apply IH].
Qed.

Lemma zip_rows_Forall2
    (graph : Graph) (srd : gmap string (list Q)) (N_gene_con : nat)
    (cs : list (string * Q)) (ss : list scored) (qs : list Q) :
  Forall2 (fun c s => score_candidate graph srd N_gene_con c = Ok s) cs ss ->
  length qs = length ss ->
  Forall2 (fun c r =>
             go_id r = c.1 /\ go_similarity r = c.2 /\
             score_candidate graph srd N_gene_con c
             = Ok {| sc_N_GO_con := go_N_con r; sc_DES := go_description r;
                     sc_pval := go_pval r |})
          cs
          (zip_with (fun (c : string * Q * scored) q =>
                       {| go_description := sc_DES c.2; go_id := c.1.1;
                          go_N_con := sc_N_GO_con c.2; go_similarity := c.1.2;
                          go_pval := sc_pval c.2; go_padj := q |}) (zip cs ss) qs).
Proof.
  intros Hall. revert qs.
  induction Hall as [|c s cs ss Hc Hall IH]; intros qs Hlen.
  - apply Forall2_nil_2.
  - destruct qs as [|q qs]; [discriminate|]. cbn [zip zip_with].
    apply Forall2_cons_2.
    + cbn. destruct s. by repeat split.
    + apply IH. cbn in Hlen. lia.
Qed.

Lemma scored_table_rows
    (graph : Graph) (srd : gmap string (list Q)) (nv : node_vectors)
    (geneoi : string) (N_gene_con : nat) (alpha : Q) (simdf : list go_row) :
  scored_table graph srd nv geneoi N_gene_con alpha = Ok simdf ->
  exists nbrs ranking,
    g_adj graph !! geneoi = Some nbrs /\ nv !! geneoi = Some ranking /\
    Forall2 (fun c r =>
               go_id r = c.1 /\ go_similarity r = c.2 /\
               score_candidate graph srd N_gene_con c
               = Ok {| sc_N_GO_con := go_N_con r; sc_DES := go_description r;
                       sc_pval := go_pval r |})
            (candidates (nbrs ∩ GO_nodes graph) ranking) simdf.
Proof.
  unfold scored_table, getitem.
  destruct (g_adj graph !! geneoi) as [nbrs|]; cbn [mbind result_bind]; [|discriminate].
  destruct (nv !! geneoi) as [ranking|]; cbn [mbind result_bind]; [|discriminate].
  destruct (score_candidates graph srd N_gene_con _) as [scs|e] eqn:Hs;
    cbn [mbind result_bind]; [|discriminate].
  intros [= <-]. exists nbrs, ranking. do 2 (split; [reflexivity|]).
  apply zip_rows_Forall2.
  - by apply score_candidates_Forall2.
  - etransitivity; [apply (fdrcorrection_length (sc_pval <$> scs) alpha)|].
    apply length_fmap.
Qed.

(** C2: the q-values of a gene are the Benjamini-Hochberg step-up
    adjustment of that gene's own candidate p-values.  The frame
    [get_GO_df] returns is the selection from the gene's scored frame
    [simdf]; [simdf] has one row per GO candidate of the gene, carrying the
    p-value [P_sim] gives that candidate; its padj column is
    [fdrcorrection] of its own pval column, which at every row is the value
    of the specification's procedure ([q = p * m / rank], running minimum
    from the largest rank down, clipped) with [m] the number of candidates
    of the gene; and every row has [q >= p] and [q] in [0,1]. *)
Theorem get_GO_df_padj_is_per_gene_BH
    (graph : Graph) (srd : gmap string (list Q)) (nv : node_vectors)
    (geneoi : string) (N_gene_con : nat) (alpha_FDR : Q) (rows : list go_row) :
  get_GO_df graph srd nv geneoi N_gene_con alpha_FDR = Ok rows ->
  exists (simdf : list go_row) (nbrs : gset string) (ranking : list (string * Q)),
    scored_table graph srd nv geneoi N_gene_con alpha_FDR = Ok simdf /\
    rows = (if Qlt_bool alpha_FDR 1
            then filter (fun r => Qlt_bool (go_padj r) alpha_FDR = true) simdf
            else simdf) /\
    g_adj graph !! geneoi = Some nbrs /\ nv !! geneoi = Some ranking /\
    Forall2 (fun c r =>
               go_id r = c.1 /\ go_similarity r = c.2 /\
               score_candidate graph srd N_gene_con c
               = Ok {| sc_N_GO_con := go_N_con r; sc_DES := go_description r;
                       sc_pval := go_pval r |})
            (candidates (nbrs ∩ GO_nodes graph) ranking) simdf /\
    length simdf = length (candidates (nbrs ∩ GO_nodes graph) ranking) /\
    (go_id <$> simdf) = (candidates (nbrs ∩ GO_nodes graph) ranking).*1 /\
    (go_padj <$> simdf) = (fdrcorrection (go_pval <$> simdf) alpha_FDR).2 /\
    (forall k i, argsort (go_pval <$> simdf) !! k = Some i ->
       exists r q', simdf !! i = Some r /\
         bh_step_up (np_take (go_pval <$> simdf) (argsort (go_pval <$> simdf))) !! k
         = Some q' /\
         go_padj r == q') /\
    rows ⊆ simdf /\
    Forall (fun r => go_pval r <= go_padj r /\ 0 <= go_padj r /\ go_padj r <= 1) simdf /\
    Forall (fun r => go_pval r <= go_padj r /\ 0 <= go_padj r /\ go_padj r <= 1) rows.
Proof.
  rewrite get_GO_df_selection.
  destruct (scored_table graph srd nv geneoi N_gene_con alpha_FDR) as [simdf|e] eqn:Hs;
    simpl; [|discriminate].
  intros [= <-]. exists simdf.
  destruct (scored_table_columns _ _ _ _ _ _ _ Hs)
    as (nbrs & ranking & Hn & Hr & Hid & Hq & Hunit).
  destruct (scored_table_rows _ _ _ _ _ _ _ Hs)
    as (nbrs' & ranking' & Hn' & Hr' & Hrows).
  rewrite Hn in Hn'. injection Hn' as <-. rewrite Hr in Hr'. injection Hr' as <-.
  exists nbrs, ranking. do 2 (split; [reflexivity|]). do 2 (split; [assumption|]).
  split; [exact Hrows|].
  split; [symmetry; exact (Forall2_length _ _ _ Hrows)|].
  do 2 (split; [assumption|]).
  pose proof (scored_table_padj_bounds _ _ _ _ _ _ _ Hs) as Hb.
  assert (Hsub : (if Qlt_bool alpha_FDR 1
                  then filter (fun r => Qlt_bool (go_padj r) alpha_FDR = true) simdf
                  else simdf) ⊆ simdf).
  { destruct (Qlt_bool alpha_FDR 1); [|done].
    intros r Hr'. by apply list_elem_of_filter in Hr' as [_ ?]. }
  split; [|split; [exact Hsub|split; [exact Hb|]]].
  - intros k i Hk.
    destruct (fdrcorrection_is_bh_step_up (go_pval <$> simdf)
                ltac:(by apply Forall_fmap) alpha_FDR k i Hk)
      as (q & q' & Hqi & Hq' & Hqq).
    rewrite <- Hq, list_lookup_fmap in Hqi.
    destruct (simdf !! i) as [r|]; [|discriminate]. injection Hqi as <-.
    by exists r, q'.
  - rewrite Forall_forall in Hb. apply Forall_forall. intros r Hr'. apply Hb, Hsub, Hr'.
Qed.

(** Gene [A] of the example network, scored at [alpha_FDR = 3/8]: of its
    two candidates the one with [q = 2/8] is returned. *)
Lemma get_GO_df_padj_is_per_gene_BH_witness :
  exists (simdf : list go_row),
    scored_table Example.graph Example.srd Example.nv1 "A" 3 (3#8) = Ok simdf /\
    (go_id <$> simdf) = ["GO:1"; "GO:2"] /\
    (go_padj <$> simdf) = (fdrcorrection (go_pval <$> simdf) (3#8)).2 /\
    Forall (fun r => go_pval r <= go_padj r /\ 0 <= go_padj r /\ go_padj r <= 1) simdf.
Proof.
  destruct (get_GO_df_padj_is_per_gene_BH
              Example.graph Example.srd Example.nv1 "A" 3 (3#8)
              [ {| go_description := "alpha"; go_id := "GO:1"; go_N_con := 2;
                   go_similarity := 15#16; go_pval := 1#8; go_padj := 2#8 |} ])
    as (simdf & nbrs & ranking & Hs & _ & Hn & Hr & _ & _ & Hid & Hq & _ & _ & Hb & _).
  - vm_compute. reflexivity.
  - exists simdf. split; [exact Hs|]. split; [|split; assumption].
    rewrite Hid. vm_compute in Hn, Hr.
    injection Hn as <-. injection Hr as <-. vm_compute. reflexivity.
Defined.

(** C5, as the code has it: with [alpha_FDR < 1] exactly the rows with
    [q < alpha_FDR] are kept, so a row whose q-value equals [alpha_FDR] is
    dropped; with [alpha_FDR >= 1] every row is kept. *)
Theorem get_GO_df_keeps_padj_below_alpha
    (graph : Graph) (srd : gmap string (list Q)) (nv : node_vectors)
    (geneoi : string) (N_gene_con : nat) (alpha_FDR : Q) (simdf : list go_row) :
  scored_table graph srd nv geneoi N_gene_con alpha_FDR = Ok simdf ->
  exists rows,
    get_GO_df graph srd nv geneoi N_gene_con alpha_FDR = Ok rows /\
    (alpha_FDR < 1 -> forall r, r ∈ rows <-> r ∈ simdf /\ go_padj r < alpha_FDR) /\
    (1 <= alpha_FDR -> rows = simdf).
Proof.
  intros Hs. rewrite get_GO_df_selection, Hs. simpl.
  eexists. split; [reflexivity|]. split.
  - intros Hlt. apply Qlt_bool_iff in Hlt. rewrite Hlt.
    intros r. rewrite list_elem_of_filter, Qlt_bool_iff. tauto.
  - intros Hge. apply Qlt_bool_false_iff in Hge. by rewrite Hge.
Qed.

(** Gene [A] of the example network at [alpha_FDR = 3/8]. *)
Lemma get_GO_df_keeps_padj_below_alpha_witness :
  exists rows,
    get_GO_df Example.graph Example.srd Example.nv1 "A" 3 (3#8) = Ok rows /\
    ((3#8) < 1 -> forall r, r ∈ rows <->
       r ∈ [ {| go_description := "alpha"; go_id := "GO:1"; go_N_con := 2;
                go_similarity := 15#16; go_pval := 1#8; go_padj := 2#8 |};
             {| go_description := "beta"; go_id := "GO:2"; go_N_con := 1;
                go_similarity := 5#16; go_pval := 2#4; go_padj := 4#8 |} ]
       /\ go_padj r < (3#8)) /\
    (1 <= (3#8) -> rows =
       [ {| go_description := "alpha"; go_id := "GO:1"; go_N_con := 2;
            go_similarity := 15#16; go_pval := 1#8; go_padj := 2#8 |};
         {| go_description := "beta"; go_id := "GO:2"; go_N_con := 1;
            go_similarity := 5#16; go_pval := 2#4; go_padj := 4#8 |} ]).
Proof.
  apply (get_GO_df_keeps_padj_below_alpha
           Example.graph Example.srd Example.nv1 "A" 3 (3#8)).
  vm_compute. reflexivity.
Defined.

(** C5 fails as stated: with [alpha_FDR = 1/4 < 1] the candidate [GO:1]
    of gene [A] has p-value [1/8] and q-value exactly [1/4], which is not
    above [alpha_FDR], and the row is dropped all the same. *)
Lemma get_GO_df_drops_padj_equal_alpha :
  exists (simdf : list go_row) (r : go_row),
    (1#4) < 1 /\
    scored_table Example.graph Example.srd Example.nv1 "A" 3 (1#4) = Ok simdf /\
    r ∈ simdf /\ go_id r = "GO:1" /\ go_padj r == 1#4 /\ ~ (1#4) < go_padj r /\
    get_GO_df Example.graph Example.srd Example.nv1 "A" 3 (1#4) = Ok [].
Proof.
  eexists _, {| go_description := "alpha"; go_id := "GO:1"; go_N_con := 2;
                go_similarity := 15#16; go_pval := 1#8; go_padj := 2#8 |}.
  split; [reflexivity|]. split; [vm_compute; reflexivity|].
  split; [left|]. split; [reflexivity|]. split; [reflexivity|].
  split; [discriminate|]. vm_compute. reflexivity.
Qed.

(** ** The loop over the nodes of a replicate *)

Lemma candidates_empty (ranking : list (string * Q)) :
  candidates ∅ ranking = [].
Proof.
  unfold candidates. induction ranking as [|c ranking IH]; [reflexivity|].
  rewrite filter_cons, decide_False by set_solver. exact IH.
Qed.

Lemma get_GO_df_no_candidates
    (graph : Graph) (srd : gmap string (list Q)) (nv : node_vectors)
    (geneoi : string) (N_gene_con : nat) (alpha_FDR : Q)
    (nbrs : gset string) (ranking : list (string * Q)) :
  g_adj graph !! geneoi = Some nbrs -> nbrs ∩ GO_nodes graph = ∅ ->
  nv !! geneoi = Some ranking ->
  get_GO_df graph srd nv geneoi N_gene_con alpha_FDR = Ok [].
Proof.
  intros Hadj Hempty Hnv. unfold get_GO_df, scored_table, getitem.
  rewrite Hadj. cbn [mbind result_bind]. rewrite Hnv. cbn [mbind result_bind].
  rewrite Hempty, candidates_empty. cbn.
  destruct (Qlt_bool alpha_FDR 1); reflexivity.
Qed.

(** C9: a gene whose neighbours include no GO node is scored without an
    error and adds no row to the replicate's table: [get_GO_df] returns the
    empty frame for it, and the loop body leaves the table as it was. *)
Theorem score_node_no_candidates
    (graph : Graph) (hgncid : list string) (srd : gmap string (list Q))
    (nv : node_vectors) (alpha_FDR : Q) (df : list rep_row)
    (n : string) (nbrs : gset string) :
  g_adj graph !! n = Some nbrs -> nbrs ∩ GO_nodes graph = ∅ ->
  score_node graph hgncid srd nv alpha_FDR df n = Ok df /\
  (is_Some (nv !! n) ->
   get_GO_df graph srd nv n (size nbrs) alpha_FDR = Ok []).
Proof.
  intros Hadj Hempty. split.
  - unfold score_node, getitem.
    destruct (g_node graph !! n) as [attrs|]; cbn [mbind result_bind]; [|reflexivity].
    destruct (attrs !! "HGNC") as [hgnc|]; cbn [mbind result_bind]; [|reflexivity].
    destruct (bool_decide (hgnc ∈ hgncid)); [|reflexivity].
    rewrite Hadj. cbn [mbind result_bind].
    destruct (nv !! n) as [ranking|] eqn:Hnv.
    + rewrite (get_GO_df_no_candidates graph srd nv n _ alpha_FDR nbrs ranking)
        by assumption.
      cbn. by rewrite app_nil_r.
    + unfold get_GO_df, scored_table, getitem. rewrite Hadj, Hnv. reflexivity.
  - intros [ranking Hnv]. eapply get_GO_df_no_candidates; eassumption.
Qed.

(** Gene [C], whose only neighbour is the gene [D]. *)
Lemma score_node_no_candidates_witness :
  score_node Example.graph_lonely ["G3"] Example.srd Example.nv_lonely 1 [] "C"
  = Ok [] /\
  (is_Some (Example.nv_lonely !! "C") ->
   get_GO_df Example.graph_lonely Example.srd Example.nv_lonely "C"
     (size ({[ "D" ]} : gset string)) 1 = Ok []).
Proof.
  apply (score_node_no_candidates Example.graph_lonely ["G3"] Example.srd
           Example.nv_lonely 1 [] "C" {[ "D" ]}).
  - vm_compute. reflexivity.
  - vm_compute. reflexivity.
Defined.

(** ** Comparisons and the orders of [sort_values] *)

Section CmpOrderFacts.
Context {A : Type} (cmp : A -> A -> comparison) `{!CmpOrder cmp}.

Lemma cmp_Eq_r x y z : cmp y z = Eq -> cmp x y = cmp x z.
Proof.
  intros Hyz.
  assert (Hzy : cmp z y = Eq)
    by (rewrite (cmp_antisym (cmp:=cmp) y z), Hyz; reflexivity).
  pose proof (cmp_Eq_l (cmp:=cmp) z y x Hzy) as H.
  rewrite (cmp_antisym (cmp:=cmp) x z), (cmp_antisym (cmp:=cmp) x y) in H.
  destruct (cmp x y), (cmp x z); simpl in H; congruence.
Qed.

Lemma cmp_refl x : cmp x x = Eq.
Proof.
  pose proof (cmp_antisym (cmp:=cmp) x x) as H.
  destruct (cmp x x); simpl in H; congruence.
Qed.

#[export] Instance cmp_le_total : Total (cmp_le cmp).
Proof.
  intros x y. unfold cmp_le. rewrite (cmp_antisym (cmp:=cmp) x y).
  destruct (cmp x y); simpl; [left|left|right]; discriminate.
Qed.

#[export] Instance cmp_le_trans : Transitive (cmp_le cmp).
Proof.
  intros x y z. unfold cmp_le. intros Hxy Hyz.
  destruct (cmp x y) eqn:Exy; [| |congruence].
  - rewrite (cmp_Eq_l (cmp:=cmp) x y z Exy). exact Hyz.
  - destruct (cmp y z) eqn:Eyz; [| |congruence].
    + rewrite <- (cmp_Eq_r x y z Eyz), Exy. discriminate.
    + rewrite (cmp_Lt_trans (cmp:=cmp) x y z Exy Eyz). discriminate.
Qed.
End CmpOrderFacts.

#[export] Instance nat_compare_order : CmpOrder Nat.compare.
Proof.
  split.
  - intros x y. apply Nat.compare_antisym.
  - intros x y z. rewrite !Nat.compare_lt_iff. lia.
  - intros x y z Hxy. apply Nat.compare_eq_iff in Hxy. by subst.
Qed.

#[export] Instance Q_compare_order : CmpOrder Qcompare.
Proof.
  split.
  - intros x y. symmetry. apply Qcompare_antisym.
  - intros x y z. rewrite <- !Qlt_alt. apply Qlt_trans.
  - intros x y z Hxy. apply Qeq_alt in Hxy. by rewrite Hxy.
Qed.

Lemma ascii_compare_Lt_trans (a b c : Ascii.ascii) :
  Ascii.compare a b = Lt -> Ascii.compare b c = Lt -> Ascii.compare a c = Lt.
Proof.
  unfold Ascii.compare. rewrite !N.compare_lt_iff. lia.
Qed.

#[export] Instance string_compare_order : CmpOrder String.compare.
Proof.
  split.
  - intros x y. apply String.compare_antisym.
  - intros x. induction x as [|a x IH]; intros [|b y] [|c z]; simpl; try done.
    destruct (Ascii.compare a b) eqn:Eab; try done.
    + apply Ascii.compare_eq_iff in Eab as ->.
      destruct (Ascii.compare b c); try done. apply IH.
    + intros _. destruct (Ascii.compare b c) eqn:Ebc; try done.
      * apply Ascii.compare_eq_iff in Ebc as <-. by rewrite Eab.
      * by rewrite (ascii_compare_Lt_trans a b c Eab Ebc).
  - intros x y z Hxy. apply String.compare_eq_iff in Hxy. by subst.
Qed.

#[export] Instance option_compare_order {A} (cmp : A -> A -> comparison)
    `{!CmpOrder cmp} : CmpOrder (option_compare cmp).
Proof.
  split.
  - intros [x|] [y|]; simpl; try reflexivity. apply cmp_antisym.
  - intros [x|] [y|] [z|]; simpl; try done. apply cmp_Lt_trans.
  - intros [x|] [y|] [z|]; simpl; try done. by apply cmp_Eq_l.
Qed.

(** Comparing a column of a row, and comparing column after column. *)
#[export] Instance column_compare_order {A B} (f : B -> A)
    (cmp : A -> A -> comparison) `{!CmpOrder cmp}
    : CmpOrder (fun x y => cmp (f x) (f y)).
Proof.
  split.
  - intros x y. apply cmp_antisym.
  - intros x y z. apply cmp_Lt_trans.
  - intros x y z. by apply cmp_Eq_l.
Qed.

#[export] Instance lex_compare_order {A} (c1 c2 : A -> A -> comparison)
    `{!CmpOrder c1, !CmpOrder c2} : CmpOrder (fun x y => lex (c1 x y) (c2 x y)).
Proof.
  split.
  - intros x y. rewrite (cmp_antisym (cmp:=c1) x y), (cmp_antisym (cmp:=c2) x y).
    destruct (c1 x y); reflexivity.
  - intros x y z. unfold lex.
    destruct (c1 x y) eqn:Exy; try done.
    + rewrite (cmp_Eq_l (cmp:=c1) x y z Exy).
      destruct (c1 y z); try done. apply cmp_Lt_trans.
    + intros _. destruct (c1 y z) eqn:Eyz; try done.
      * intros _. by rewrite <- (cmp_Eq_r c1 x y z Eyz), Exy.
      * intros _. by rewrite (cmp_Lt_trans (cmp:=c1) x y z Exy Eyz).
  - intros x y z. unfold lex.
    destruct (c1 x y) eqn:Exy; try done. intros Hxy.
    rewrite (cmp_Eq_l (cmp:=c1) x y z Exy), (cmp_Eq_l (cmp:=c2) x y z Hxy).
    reflexivity.
Qed.

#[export] Instance out_compare_order (categories : list string)
  : CmpOrder (out_compare categories).
Proof.
  unfold out_compare.
  apply (lex_compare_order
           (fun r1 r2 => option_compare Nat.compare
                           (cat_code categories (k_HGNC (o_key r1)))
                           (cat_code categories (k_HGNC (o_key r2))))
           (fun r1 r2 => lex (option_compare Qcompare (o_mean_padj r1) (o_mean_padj r2))
                             (String.compare (k_GO_description (o_key r1))
                                             (k_GO_description (o_key r2))))).
Qed.

#[export] Instance wide_compare_order (categories : list string)
  : CmpOrder (wide_compare categories).
Proof.
  unfold wide_compare.
  apply (column_compare_order w_out (out_compare categories)).
Qed.

(** ** The outer merge of the replicate tables *)

Lemma rep_row_eta (r : rep_row) : {| rr_key := rr_key r; rr_vals := rr_vals r |} = r.
Proof. by destruct r. Qed.

Lemma merged_from_left_only (dfs : list (list rep_row)) (df : list rep_row)
    (m : merged_row) :
  merged_from dfs m ->
  merged_from (dfs ++ [df]) {| m_key := m_key m; m_reps := m_reps m ++ [None] |}.
Proof.
  intros (Hlen & Hval & k0 & v0 & Hk0). unfold merged_from. cbn [m_key m_reps].
  split; [rewrite !length_app; simpl; lia|]. split.
  - intros k v Hk. destruct (decide (k < length (m_reps m))%nat) as [Hlt|Hge].
    + rewrite lookup_app_l in Hk by exact Hlt.
      destruct (Hval k v Hk) as (df' & Hdf' & Hin). exists df'. split; [|exact Hin].
      apply lookup_app_l_Some, Hdf'.
    + rewrite lookup_app_r in Hk by lia.
      destruct (k - length (m_reps m))%nat; simpl in Hk; [congruence|].
      rewrite lookup_nil in Hk. discriminate.
  - exists k0, v0. apply lookup_app_l_Some, Hk0.
Qed.

Lemma merged_from_matched (dfs : list (list rep_row)) (df : list rep_row)
    (m : merged_row) (r : rep_row) :
  merged_from dfs m -> r ∈ df -> rr_key r = m_key m ->
  merged_from (dfs ++ [df])
    {| m_key := m_key m; m_reps := m_reps m ++ [Some (rr_vals r)] |}.
Proof.
  intros (Hlen & Hval & k0 & v0 & Hk0) Hin Hkey. unfold merged_from. cbn [m_key m_reps].
  split; [rewrite !length_app; simpl; lia|]. split.
  - intros k v Hk. destruct (decide (k < length (m_reps m))%nat) as [Hlt|Hge].
    + rewrite lookup_app_l in Hk by exact Hlt.
      destruct (Hval k v Hk) as (df' & Hdf' & Hin'). exists df'. split; [|exact Hin'].
      apply lookup_app_l_Some, Hdf'.
    + rewrite lookup_app_r in Hk by lia.
      destruct (k - length (m_reps m))%nat as [|d] eqn:Hd; simpl in Hk.
      * injection Hk as <-. exists df. split.
        -- assert (k = length dfs) as -> by lia. apply list_lookup_middle. reflexivity.
        -- rewrite <- Hkey, rep_row_eta. exact Hin.
      * rewrite lookup_nil in Hk. discriminate.
  - exists k0, v0. apply lookup_app_l_Some, Hk0.
Qed.

Lemma merged_from_right_only (dfs : list (list rep_row)) (df : list rep_row)
    (r : rep_row) :
  r ∈ df ->
  merged_from (dfs ++ [df])
    {| m_key := rr_key r;
       m_reps := replicate (length dfs) None ++ [Some (rr_vals r)] |}.
Proof.
  intros Hin. unfold merged_from. cbn [m_key m_reps].
  split; [rewrite !length_app, length_replicate; simpl; lia|]. split.
  - intros k v Hk. destruct (decide (k < length dfs)%nat) as [Hlt|Hge].
    + rewrite lookup_app_l in Hk by (rewrite length_replicate; exact Hlt).
      apply lookup_replicate in Hk as [Hk _]. discriminate.
    + rewrite lookup_app_r in Hk by (rewrite length_replicate; lia).
      rewrite length_replicate in Hk.
      destruct (k - length dfs)%nat as [|d] eqn:Hd; simpl in Hk.
      * injection Hk as <-. exists df. split.
        -- assert (k = length dfs) as -> by lia. apply list_lookup_middle. reflexivity.
        -- rewrite rep_row_eta. exact Hin.
      * rewrite lookup_nil in Hk. discriminate.
  - exists (length dfs), (rr_vals r).
    rewrite lookup_app_r by (rewrite length_replicate; lia).
    rewrite length_replicate, Nat.sub_diag. reflexivity.
Qed.

Lemma merge_outer_from (dfs : list (list rep_row)) (df : list rep_row)
    (ms : list merged_row) :
  Forall (merged_from dfs) ms ->
  Forall (merged_from (dfs ++ [df])) (merge_outer (length dfs) ms df).
Proof.
  intros Hms. unfold merge_outer. apply Forall_app. split.
  - apply Forall_bind, Forall_forall. intros m Hin_m.
    assert (Hm : merged_from dfs m).
    { rewrite Forall_forall in Hms. apply Hms, Hin_m. }
    unfold compose.
    destruct (filter (fun r => rr_key r = m_key m) df) as [|r0 matches] eqn:Hf.
    + apply Forall_singleton. apply merged_from_left_only, Hm.
    + rewrite <- Hf. apply Forall_fmap, Forall_forall. intros r Hr.
      apply list_elem_of_filter in Hr as [Hkey Hin].
      apply merged_from_matched; assumption.
  - apply Forall_fmap, Forall_forall. intros r Hr.
    apply list_elem_of_filter in Hr as [_ Hin].
    apply merged_from_right_only, Hin.
Qed.

Lemma merge_loop_from (rest dfs : list (list rep_row)) (acc : list merged_row) :
  Forall (merged_from dfs) acc ->
  Forall (merged_from (dfs ++ rest))
    (foldl (fun acc (kdf : nat * list rep_row) => merge_outer kdf.1 acc kdf.2) acc
           (zip (seq (length dfs) (length rest)) rest)).
Proof.
  revert dfs acc. induction rest as [|df rest IH]; intros dfs acc Hacc; simpl.
  - by rewrite app_nil_r.
  - specialize (IH (dfs ++ [df])%list (merge_outer (length dfs) acc df)
                  (merge_outer_from dfs df acc Hacc)).
    rewrite length_app in IH. simpl in IH.
    replace (length dfs + 1)%nat with (S (length dfs)) in IH by lia.
    by rewrite <- app_assoc in IH.
Qed.

Lemma merge_all_from (df1 : list rep_row) (rest : list (list rep_row)) :
  Forall (merged_from (df1 :: rest)) (merge_all df1 rest).
Proof.
  unfold merge_all. apply (merge_loop_from rest [df1]).
  apply Forall_fmap, Forall_forall. intros r Hr. unfold merged_from. cbn.
  split; [reflexivity|]. split.
  - intros [|k] v Hk; simpl in Hk; [|rewrite lookup_nil in Hk; discriminate].
    injection Hk as <-. exists df1. split; [reflexivity|]. by rewrite rep_row_eta.
  - exists 0%nat, (rr_vals r). reflexivity.
Qed.

(** ** [generate_output]: from the replicate tables to the final rows *)

Section AggregatorFacts.
Variable graph : Graph.
Variable hgncid : list string.
Variable srd : gmap string (list Q).

Lemma replicate_tables_length (reps : list node_vectors) (alpha : Q)
    (dfs : list (list rep_row)) :
  replicate_tables graph hgncid srd reps alpha = Ok dfs -> length dfs = length reps.
Proof.
  revert dfs. induction reps as [|nv reps IH]; intros dfs; simpl.
  - by intros [= <-].
  - destruct (replicate_table graph hgncid srd nv alpha); simpl; [|discriminate].
    destruct (replicate_tables graph hgncid srd reps alpha) as [dfs'|];
      simpl; [|discriminate].
    intros [= <-]. simpl. by rewrite (IH dfs').
Qed.

Lemma generate_output_Ok (nvs : list node_vectors) (alpha : Q) (rows : list out_row) :
  generate_output graph hgncid srd nvs alpha = Ok rows ->
  exists df1 rest,
    replicate_tables graph hgncid srd nvs alpha = Ok (df1 :: rest) /\
    rows = w_out <$> merge_sort (cmp_le (wide_compare (unique hgncid)))
                       (aggregate nvs <$> merge_all df1 rest).
Proof.
  unfold generate_output.
  destruct (replicate_tables graph hgncid srd nvs alpha) as [[|df1 rest]|];
    simpl; try discriminate.
  intros [= <-]. by exists df1, rest.
Qed.

(** Every final row is the aggregate of a merged row. *)
Lemma generate_output_provenance (nvs : list node_vectors) (alpha : Q)
    (rows : list out_row) :
  generate_output graph hgncid srd nvs alpha = Ok rows ->
  exists outdfs,
    replicate_tables graph hgncid srd nvs alpha = Ok outdfs /\
    length outdfs = Nreps nvs /\
    forall r, r ∈ rows ->
      exists m, merged_from outdfs m /\ r = w_out (aggregate nvs m).
Proof.
  intros Hgo. apply generate_output_Ok in Hgo as (df1 & rest & Hrt & ->).
  exists (df1 :: rest). split; [exact Hrt|].
  split; [eapply replicate_tables_length, Hrt|].
  intros r Hr. apply list_elem_of_fmap in Hr as (w & -> & Hw).
  rewrite merge_sort_Permutation in Hw.
  apply list_elem_of_fmap in Hw as (m & -> & Hm).
  exists m. split; [|reflexivity].
  pose proof (merge_all_from df1 rest) as Hall.
  rewrite Forall_forall in Hall. apply Hall, Hm.
Qed.
End AggregatorFacts.

(** ** Means and standard errors *)

(** *** Exact roots and the real numbers *)

Lemma Q2R_inject_nat (n : nat) : Q2R (inject_Z (Z.of_nat n)) = INR n.
Proof.
  rewrite INR_IZR_INZ. unfold Q2R, inject_Z. cbn [Qnum Qden]. field.
Qed.

Lemma np_sqrt_R (n : nat) : root_R (np_sqrt n) = sqrt (INR n).
Proof. unfold root_R, np_sqrt. cbn [radicand]. by rewrite Q2R_inject_nat. Qed.

(** [root_div] is the quotient of the two square roots. *)
Lemma root_div_R (a b : root) :
  0 < radicand b -> root_R (root_div a b) = (root_R a / root_R b)%R.
Proof.
  intros Hb. unfold root_R, root_div. cbn [radicand].
  rewrite Q2R_div.
  - apply sqrt_div_alt. replace 0%R with (Q2R 0) by (unfold Q2R; cbn; field).
    apply Qlt_Rlt, Hb.
  - intros Hz. rewrite Hz in Hb. by apply Qlt_irrefl in Hb.
Qed.


(** The sem column as a real number: the standard deviation over
    [sqrt(Nreps)]. *)
Lemma sem_R (nvs : list node_vectors) (xs : list (option Q)) (s : root) :
  nvs <> [] -> sem nvs xs = Some s ->
  exists sd, nanstd xs = Some sd /\
             root_R s = (root_R sd / sqrt (INR (Nreps nvs)))%R.
Proof.
  intros Hne. unfold sem. destruct (nanstd xs) as [sd|]; [|discriminate].
  intros [= <-]. exists sd. split; [reflexivity|].
  rewrite root_div_R, np_sqrt_R; [reflexivity|].
  unfold np_sqrt, Nreps. cbn [radicand]. change 0 with (inject_Z 0).
  rewrite <- Zlt_Qlt. destruct nvs; [congruence|]. cbn [length]. lia.
Qed.

Lemma present_column (f : rep_vals -> Q) (m : merged_row) :
  present (column f m) = f <$> present (m_reps m).
Proof.
  unfold column. generalize (m_reps m). intros l.
  induction l as [|[v|] l IH]; [reflexivity| |exact IH].
  unfold present in *. cbn. f_equal. exact IH.
Qed.

Lemma present_nonempty {A} (l : list (option A)) (k : nat) (v : A) :
  l !! k = Some (Some v) -> present l <> [].
Proof.
  revert k. induction l as [|[w|] l IH]; intros k Hk.
  - rewrite lookup_nil in Hk. discriminate.
  - discriminate.
  - destruct k as [|k]; simpl in Hk; [discriminate|]. apply (IH k Hk).
Qed.

Lemma present_none {A} (l : list (option A)) :
  (forall k v, l !! k <> Some (Some v)) -> present l = [].
Proof.
  induction l as [|[w|] l IH]; intros Hno; [reflexivity| |].
  - exfalso. apply (Hno 0%nat w). reflexivity.
  - apply IH. intros k v. apply (Hno (S k) v).
Qed.

(** A row filled in one slot only holds exactly that slot's values. *)
Lemma present_single {A} (l : list (option A)) (k0 : nat) :
  (exists k v, l !! k = Some (Some v)) ->
  (forall k v, l !! k = Some (Some v) -> k = k0) ->
  exists v, l !! k0 = Some (Some v) /\ present l = [v].
Proof.
  revert k0. induction l as [|o l IH]; intros k0 (k & v & Hk) Honly.
  - rewrite lookup_nil in Hk. discriminate.
  - destruct o as [w|].
    + assert (k0 = 0%nat) as -> by (symmetry; apply (Honly 0%nat w); reflexivity).
      exists w. split; [reflexivity|].
      unfold present. cbn. f_equal. apply present_none.
      intros k' v' Hk'. specialize (Honly (S k') v' Hk'). discriminate.
    + destruct k as [|k]; simpl in Hk; [discriminate|].
      destruct k0 as [|k0].
      { specialize (Honly (S k) v Hk). discriminate. }
      destruct (IH k0) as (w & Hw & Hp).
      * exists k, v. exact Hk.
      * intros k' v' Hk'. specialize (Honly (S k') v' Hk'). lia.
      * exists w. split; [exact Hw|exact Hp].
Qed.

Lemma nanmean_present (xs : list (option Q)) :
  present xs <> [] ->
  nanmean xs = Some (Qsum (present xs) / inject_Z (Z.of_nat (length (present xs)))).
Proof.
  intros Hne. unfold nanmean. destruct (present xs); [congruence|reflexivity].
Qed.

Lemma nanmean_single (xs : list (option Q)) (x : Q) :
  present xs = [x] -> exists q, nanmean xs = Some q /\ q == x.
Proof.
  intros Hp. unfold nanmean. rewrite Hp. cbn [length].
  eexists. split; [reflexivity|]. unfold Qsum. cbn. field.
Qed.

Lemma nanstd_single (xs : list (option Q)) (x : Q) :
  present xs = [x] -> nanstd xs = None.
Proof. intros Hp. unfold nanstd, nanvar. by rewrite Hp. Qed.







(** C10: a pair held by exactly one replicate has no standard error in any
    of the three sem columns, and its mean columns are the values of that
    replicate's row. *)
Theorem generate_output_single_replicate_row
    (graph : Graph) (hgncid : list string) (srd : gmap string (list Q))
    (nvs : list node_vectors) (alpha_FDR : Q)
    (rows : list out_row) (outdfs : list (list rep_row)) (r : out_row) (k0 : nat) :
  generate_output graph hgncid srd nvs alpha_FDR = Ok rows ->
  replicate_tables graph hgncid srd nvs alpha_FDR = Ok outdfs ->
  r ∈ rows ->
  (forall k df x, outdfs !! k = Some df -> x ∈ df -> rr_key x = o_key r -> k = k0) ->
  o_sem_sim r = None /\ o_sem_pval r = None /\ o_sem_padj r = None /\
  exists df x,
    outdfs !! k0 = Some df /\ x ∈ df /\ rr_key x = o_key r /\
    (exists q, o_mean_sim r = Some q /\ q == v_similarity (rr_vals x)) /\
    (exists q, o_mean_pval r = Some q /\ q == v_pval (rr_vals x)) /\
    (exists q, o_mean_padj r = Some q /\ q == v_padj (rr_vals x)).
Proof.
  intros Hgo Hrt Hr Honly.
  destruct (generate_output_provenance _ _ _ _ _ _ Hgo) as (outdfs' & Hrt' & _ & Hrows).
  rewrite Hrt in Hrt'. injection Hrt' as <-.
  destruct (Hrows r Hr) as (m & (Hslots & Hval & Hsome) & ->).
  cbn [w_out aggregate o_key] in *.
  destruct (present_single (m_reps m) k0 Hsome) as (v & Hv & Hp).
  { intros k v Hk. destruct (Hval k v Hk) as (df & Hdf & Hin).
    apply (Honly k df _ Hdf Hin). reflexivity. }
  assert (Hcol : forall f, present (column f m) = [f v]).
  { intros f. by rewrite present_column, Hp. }
  cbn [o_sem_sim o_sem_pval o_sem_padj o_mean_sim o_mean_pval o_mean_padj].
  unfold sem. rewrite !(nanstd_single _ _ (Hcol _)).
  do 3 (split; [reflexivity|]).
  destruct (Hval k0 v Hv) as (df & Hdf & Hin).
  exists df, {| rr_key := m_key m; rr_vals := v |}.
  split; [exact Hdf|]. split; [exact Hin|]. split; [reflexivity|].
  cbn [rr_vals]. split; [|split]; apply nanmean_single, Hcol.
Qed.

(** The run over one replicate: every pair is held by that replicate only. *)
Lemma generate_output_single_replicate_row_witness :
  exists rows r,
    generate_output Example.graph Example.hgncid Example.srd [Example.nv1] 1 = Ok rows /\
    rows !! 0%nat = Some r /\
    o_sem_sim r = None /\ o_sem_pval r = None /\ o_sem_padj r = None.
Proof.
  set (rows := match generate_output Example.graph Example.hgncid Example.srd
                       [Example.nv1] 1 with
               | Ok rows => rows
               | Raise _ => []
               end).
  set (outdfs := match replicate_tables Example.graph Example.hgncid Example.srd
                         [Example.nv1] 1 with
                 | Ok dfs => dfs
                 | Raise _ => []
                 end).
  assert (Hgo : generate_output Example.graph Example.hgncid Example.srd
                  [Example.nv1] 1 = Ok rows) by (vm_compute; reflexivity).
  assert (Hrt : replicate_tables Example.graph Example.hgncid Example.srd
                  [Example.nv1] 1 = Ok outdfs) by (vm_compute; reflexivity).
  assert (Hlen : length outdfs = 1%nat) by (vm_compute; reflexivity).
  destruct (rows !! 0%nat) as [r|] eqn:Hr; [|vm_compute in Hr; discriminate].
  exists rows, r. split; [exact Hgo|]. split; [exact Hr|].
  destruct (generate_output_single_replicate_row _ _ _ _ _ _ _ r 0%nat Hgo Hrt
              (list_elem_of_lookup_2 _ 0%nat _ Hr))
    as (H1 & H2 & H3 & _).
  - intros k df x Hdf _ _. apply lookup_lt_Some in Hdf. lia.
  - repeat split; assumption.
Defined.

(** ** Errors met while scoring a gene *)

Lemma dist_key_degree_zero : dist_key 0 = "d-inf".
Proof. reflexivity. Qed.

(** A bucket key without sample, the key ["d-inf"] of degree 0 included,
    is a [KeyError]. *)
Lemma P_sim_missing_bucket (srd : gmap string (list Q)) (sim : Q) (N_con : nat) :
  srd !! dist_key N_con = None -> P_sim srd sim N_con = Raise KeyError.
Proof. intros Hk. unfold P_sim, getitem. by rewrite Hk. Qed.


(** The first candidate that fails decides the error of the loop. *)
Lemma score_candidates_first_error
    (graph : Graph) (srd : gmap string (list Q)) (N_gene_con : nat)
    (pre post : list (string * Q)) (c : string * Q) (scs : list scored) (e : exn) :
  score_candidates graph srd N_gene_con pre = Ok scs ->
  score_candidate graph srd N_gene_con c = Raise e ->
  score_candidates graph srd N_gene_con (pre ++ c :: post)%list = Raise e.
Proof.
  revert scs. induction pre as [|d pre IH]; intros scs Hpre Hc; cbn [app score_candidates].
  - by rewrite Hc.
  - cbn [score_candidates] in Hpre.
    destruct (score_candidate graph srd N_gene_con d) as [s|]; [|discriminate].
    cbn [mbind result_bind] in *.
    destruct (score_candidates graph srd N_gene_con pre) as [rs|]; [|discriminate].
    by rewrite (IH rs eq_refl Hc).
Qed.

(** A candidate whose bucket has no sample makes [get_GO_df] raise
    [KeyError], unless an earlier candidate already failed. *)
Lemma get_GO_df_missing_bucket
    (graph : Graph) (srd : gmap string (list Q)) (nv : node_vectors)
    (geneoi : string) (N_gene_con : nat) (alpha_FDR : Q)
    (nbrs go_nbrs : gset string) (ranking pre post : list (string * Q))
    (c : string * Q) (attrs : gmap string string) (des : string) (scs : list scored) :
  g_adj graph !! geneoi = Some nbrs -> nv !! geneoi = Some ranking ->
  candidates (nbrs ∩ GO_nodes graph) ranking = (pre ++ c :: post)%list ->
  score_candidates graph srd N_gene_con pre = Ok scs ->
  g_adj graph !! c.1 = Some go_nbrs ->
  g_node graph !! c.1 = Some attrs -> attrs !! "name" = Some des ->
  srd !! dist_key (size go_nbrs `min` N_gene_con) = None ->
  get_GO_df graph srd nv geneoi N_gene_con alpha_FDR = Raise KeyError.
Proof.
  intros Hadj Hnv Hcands Hpre Hgo Hattrs Hname Hbucket.
  unfold get_GO_df, scored_table, getitem.
  rewrite Hadj. cbn [mbind result_bind]. rewrite Hnv. cbn [mbind result_bind].
  rewrite Hcands.
  rewrite (score_candidates_first_error graph srd N_gene_con pre post c scs KeyError Hpre);
    [reflexivity|].
  unfold score_candidate, getitem. rewrite Hgo. cbn [mbind result_bind].
  rewrite Hattrs. cbn [mbind result_bind]. rewrite Hname. cbn [mbind result_bind].
  by rewrite P_sim_missing_bucket.
Qed.

(** ** Errors while a gene is scored *)

Lemma score_node_from_nil (graph : Graph) (srd : gmap string (list Q))
    (nv : node_vectors) (alpha_FDR : Q) (hgncid : list string) (df : list rep_row)
    (n : string) :
  score_node graph hgncid srd nv alpha_FDR df n
  = (fun new => (df ++ new)%list) <$> score_node graph hgncid srd nv alpha_FDR [] n.
Proof.
  unfold score_node, getitem.
  destruct (g_node graph !! n) as [attrs|]; cbn; [|by rewrite app_nil_r].
  destruct (attrs !! "HGNC") as [hgnc|]; cbn; [|by rewrite app_nil_r].
  case_bool_decide; [|cbn; by rewrite app_nil_r].
  destruct (g_adj graph !! n) as [nbrs|]; cbn; [|by rewrite app_nil_r].
  destruct (get_GO_df graph srd nv n (size nbrs) alpha_FDR) as [GOdf|[]]; cbn;
    [reflexivity|by rewrite app_nil_r|reflexivity].
Qed.

Lemma score_nodes_with_nodes (graph : Graph) (hgncid : list string)
    (srd : gmap string (list Q)) (nv : node_vectors) (alpha_FDR : Q)
    (nodes g_view : list string) (df : list rep_row) :
  score_nodes (with_nodes graph nodes) hgncid srd nv alpha_FDR df g_view
  = score_nodes graph hgncid srd nv alpha_FDR df g_view.
Proof.
  revert df. induction g_view as [|n g_view IH]; intros df; [reflexivity|].
  cbn [score_nodes].
  change (score_node (with_nodes graph nodes) hgncid srd nv alpha_FDR df n)
    with (score_node graph hgncid srd nv alpha_FDR df n).
  destruct (score_node graph hgncid srd nv alpha_FDR df n); [|reflexivity].
  cbn [mbind result_bind]. apply IH.
Qed.

Lemma P_sim_empty_sample (srd : gmap string (list Q)) (sim : Q) (N_con : nat) :
  P_sim srd sim N_con = Raise ZeroDivisionError -> srd !! dist_key N_con = Some [].
Proof.
  unfold P_sim, getitem.
  destruct (srd !! dist_key N_con) as [[|x v]|]; cbn; [reflexivity| |]; discriminate.
Qed.

Section RunErrors.
Variable graph : Graph.
Variable hgncid : list string.
Variable srd : gmap string (list Q).

Lemma score_candidates_error (N_gene_con : nat) (simdf : list (string * Q)) (e : exn) :
  score_candidates graph srd N_gene_con simdf = Raise e ->
  e = KeyError \/ (e = ZeroDivisionError /\ exists k, srd !! k = Some []).
Proof.
  induction simdf as [|c simdf IH]; cbn [score_candidates]; [discriminate|].
  destruct (score_candidate graph srd N_gene_con c) as [s|e'] eqn:Hc;
    cbn [mbind result_bind].
  - destruct (score_candidates graph srd N_gene_con simdf) as [rs|e''];
      cbn [mbind result_bind]; [discriminate|].
    intros [= <-]. by apply IH.
  - intros [= <-]. unfold score_candidate, getitem in Hc.
    destruct (g_adj graph !! c.1) as [go_nbrs|]; cbn [mbind result_bind] in Hc;
      [|injection Hc as <-; by left].
    destruct (g_node graph !! c.1) as [attrs|]; cbn [mbind result_bind] in Hc;
      [|injection Hc as <-; by left].
    destruct (attrs !! "name") as [des|]; cbn [mbind result_bind] in Hc;
      [|injection Hc as <-; by left].
    destruct (P_sim srd c.2 (size go_nbrs `min` N_gene_con)) as [p|e''] eqn:Hp;
      cbn [mbind result_bind] in Hc; [discriminate|].
    injection Hc as <-. destruct e''; [by left|right].
    split; [reflexivity|]. eexists. exact (P_sim_empty_sample _ _ _ Hp).
Qed.

Lemma get_GO_df_error (nv : node_vectors) (geneoi : string) (N_gene_con : nat)
    (alpha : Q) (e : exn) :
  get_GO_df graph srd nv geneoi N_gene_con alpha = Raise e ->
  e = KeyError \/ (e = ZeroDivisionError /\ exists k, srd !! k = Some []).
Proof.
  rewrite get_GO_df_selection. unfold scored_table, getitem.
  destruct (g_adj graph !! geneoi) as [nbrs|]; cbn; [|intros [= <-]; by left].
  destruct (nv !! geneoi) as [ranking|]; cbn; [|intros [= <-]; by left].
  destruct (score_candidates graph srd N_gene_con _) as [scs|e'] eqn:Hs; cbn;
    [discriminate|].
  intros [= <-]. by apply score_candidates_error in Hs.
Qed.

Lemma score_node_error (nv : node_vectors) (alpha : Q) (df : list rep_row)
    (n : string) (e : exn) :
  score_node graph hgncid srd nv alpha df n = Raise e ->
  e = ZeroDivisionError /\ exists k, srd !! k = Some [].
Proof.
  unfold score_node, getitem.
  destruct (g_node graph !! n) as [attrs|]; cbn [mbind result_bind]; [|discriminate].
  destruct (attrs !! "HGNC") as [hgnc|]; cbn [mbind result_bind]; [|discriminate].
  case_bool_decide; [|discriminate].
  destruct (g_adj graph !! n) as [nbrs|]; cbn [mbind result_bind]; [|discriminate].
  destruct (get_GO_df graph srd nv n (size nbrs) alpha) as [GOdf|e'] eqn:HGO;
    cbn; [discriminate|].
  destruct (get_GO_df_error _ _ _ _ _ HGO) as [->|[-> Hk]]; [discriminate|].
  by intros [= <-].
Qed.

Lemma score_nodes_error (nv : node_vectors) (alpha : Q) (g_view : list string)
    (df : list rep_row) (e : exn) :
  score_nodes graph hgncid srd nv alpha df g_view = Raise e ->
  e = ZeroDivisionError /\ exists k, srd !! k = Some [].
Proof.
  revert df. induction g_view as [|n g_view IH]; intros df; cbn [score_nodes];
    [discriminate|].
  destruct (score_node graph hgncid srd nv alpha df n) as [df'|e'] eqn:Hn;
    cbn [mbind result_bind].
  - apply IH.
  - intros [= <-]. by apply score_node_error in Hn.
Qed.

Lemma replicate_tables_error (reps : list node_vectors) (alpha : Q) (e : exn) :
  replicate_tables graph hgncid srd reps alpha = Raise e ->
  e = ZeroDivisionError /\ exists k, srd !! k = Some [].
Proof.
  induction reps as [|nv reps IH]; cbn [replicate_tables]; [discriminate|].
  unfold replicate_table.
  destruct (score_nodes graph hgncid srd nv alpha [] (g_nodes graph)) as [df|e'] eqn:Hs;
    cbn [mbind result_bind].
  - destruct (replicate_tables graph hgncid srd reps alpha) as [dfs|e''];
      cbn [mbind result_bind]; [discriminate|].
    intros [= <-]. by apply IH.
  - intros [= <-]. by apply score_nodes_error in Hs.
Qed.

Lemma generate_output_error (nvs : list node_vectors) (alpha : Q) (e : exn) :
  nvs <> [] -> generate_output graph hgncid srd nvs alpha = Raise e ->
  e = ZeroDivisionError /\ exists k, srd !! k = Some [].
Proof.
  intros Hne. unfold generate_output.
  destruct (replicate_tables graph hgncid srd nvs alpha) as [outdfs|e'] eqn:Hrt;
    cbn [mbind result_bind].
  - apply replicate_tables_length in Hrt.
    destruct outdfs as [|df1 rest]; [|discriminate].
    destruct nvs; [congruence|discriminate].
  - intros [= <-]. by apply replicate_tables_error in Hrt.
Qed.




End RunErrors.




(** ** Selecting rows before or after the aggregation *)

Lemma filter_fmap {A B} (f : A -> B) (P : B -> Prop) `{!forall y, Decision (P y)}
    (l : list A) :
  filter P (f <$> l) = f <$> filter (fun x => P (f x)) l.
Proof.
  induction l as [|x l IH]; [reflexivity|].
  rewrite fmap_cons, !filter_cons. destruct (decide (P (f x))); rewrite IH; reflexivity.
Qed.

Lemma Permutation_of_eq {A} (l k : list A) : l = k -> l ≡ₚ k.
Proof. by intros ->. Qed.

Section Threshold.
Variable graph : Graph.
Variable hgncid : list string.
Variable srd : gmap string (list Q).
Variable nv : node_vectors.
Variable t : Q.
Hypothesis t_below_1 : t < 1.

Let keep_go (g : go_row) : Prop := Qlt_bool (go_padj g) t = true.
Let keep (r : rep_row) : Prop := Qlt_bool (v_padj (rr_vals r)) t = true.

Lemma get_GO_df_threshold (geneoi : string) (N_gene_con : nat) :
  get_GO_df graph srd nv geneoi N_gene_con t
  = filter keep_go <$> get_GO_df graph srd nv geneoi N_gene_con 1.
Proof.
  rewrite !get_GO_df_selection.
  rewrite (scored_table_alpha graph srd nv geneoi N_gene_con t 1).
  apply Qlt_bool_iff in t_below_1. rewrite t_below_1.
  change (Qlt_bool 1 1) with false.
  by destruct (scored_table graph srd nv geneoi N_gene_con 1).
Qed.

Lemma score_node_threshold (df : list rep_row) (n : string) :
  score_node graph hgncid srd nv t (filter keep df) n
  = filter keep <$> score_node graph hgncid srd nv 1 df n.
Proof.
  unfold score_node, getitem.
  destruct (g_node graph !! n) as [attrs|]; cbn [mbind result_bind]; [|reflexivity].
  destruct (attrs !! "HGNC") as [hgnc|]; cbn [mbind result_bind]; [|reflexivity].
  destruct (bool_decide (hgnc ∈ hgncid)); [|reflexivity].
  destruct (g_adj graph !! n) as [nbrs|]; cbn [mbind result_bind]; [|reflexivity].
  rewrite get_GO_df_threshold.
  destruct (get_GO_df graph srd nv n (size nbrs) 1) as [GOdf|[]]; cbn; try reflexivity.
  f_equal. rewrite filter_app. f_equal. by rewrite filter_fmap.
Qed.

Lemma score_nodes_threshold (df : list rep_row) (g_view : list string) :
  score_nodes graph hgncid srd nv t (filter keep df) g_view
  = filter keep <$> score_nodes graph hgncid srd nv 1 df g_view.
Proof.
  revert df. induction g_view as [|n g_view IH]; intros df; [reflexivity|].
  cbn [score_nodes]. rewrite score_node_threshold.
  destruct (score_node graph hgncid srd nv 1 df n) as [df'|e]; cbn; [|reflexivity].
  apply IH.
Qed.

(** The final row of a replicate row when there is one replicate. *)
Let final (r : rep_row) : out_row :=
  w_out (aggregate [nv] {| m_key := rr_key r; m_reps := [Some (rr_vals r)] |}).

Lemma final_mean_padj_below (r : rep_row) :
  mean_padj_below t (final r) <-> keep r.
Proof.
  unfold mean_padj_below, final, keep. cbn. rewrite Qlt_bool_iff.
  assert (E : Qsum [v_padj (rr_vals r)] / inject_Z 1 == v_padj (rr_vals r)).
  { unfold Qsum. cbn. field. }
  change (Z.of_nat 1) with 1%Z. by rewrite E.
Qed.

Lemma generate_output_single (alpha : Q) :
  generate_output graph hgncid srd [nv] alpha
  = (fun df => w_out <$> merge_sort (cmp_le (wide_compare (unique hgncid)))
                 (aggregate [nv] <$>
                    ((fun r => {| m_key := rr_key r; m_reps := [Some (rr_vals r)] |})
                       <$> merge_sort (cmp_le (rep_compare (unique hgncid))) df)))
    <$> score_nodes graph hgncid srd nv alpha [] (g_nodes graph).
Proof.
  unfold generate_output, replicate_tables, replicate_table.
  by destruct (score_nodes graph hgncid srd nv alpha [] (g_nodes graph)).
Qed.

Lemma generate_output_single_rows (alpha : Q) (df : list rep_row) :
  score_nodes graph hgncid srd nv alpha [] (g_nodes graph) = Ok df ->
  exists rows, generate_output graph hgncid srd [nv] alpha = Ok rows /\
               rows ≡ₚ final <$> df.
Proof.
  intros Hdf. rewrite generate_output_single, Hdf. cbn [fmap result_fmap].
  eexists. split; [reflexivity|].
  rewrite merge_sort_Permutation, <- !list_fmap_compose.
  by rewrite merge_sort_Permutation.
Qed.
End Threshold.

(** C8, as the code has it, for a run with one replicate: running with
    [alpha_FDR = 1] and keeping the final rows with [mean:padj < t] gives
    the rows of the run with [alpha_FDR = t]; and either both runs raise
    the same error or neither raises. *)
Theorem generate_output_threshold_single_replicate
    (graph : Graph) (hgncid : list string) (srd : gmap string (list Q))
    (nv : node_vectors) (t : Q) :
  t < 1 ->
  match generate_output graph hgncid srd [nv] 1,
        generate_output graph hgncid srd [nv] t with
  | Ok rows1, Ok rowst => rowst ≡ₚ filter (mean_padj_below t) rows1
  | Raise e1, Raise et => e1 = et
  | _, _ => False
  end.
Proof.
  intros Ht.
  pose proof (score_nodes_threshold graph hgncid srd nv t Ht [] (g_nodes graph)) as Hthr.
  rewrite filter_nil in Hthr.
  destruct (score_nodes graph hgncid srd nv 1 [] (g_nodes graph)) as [df|e] eqn:H1.
  - destruct (generate_output_single_rows graph hgncid srd nv 1 df H1)
      as (rows1 & -> & Hp1).
    destruct (generate_output_single_rows graph hgncid srd nv t _ Hthr)
      as (rowst & -> & Hpt).
    rewrite Hpt, Hp1, filter_fmap. f_equiv.
    apply Permutation_of_eq, list_filter_iff.
    intros r. symmetry. apply final_mean_padj_below.
  - rewrite !generate_output_single, H1, Hthr. reflexivity.
Qed.

(** The example network with the first replicate and [t = 3/8]. *)
Lemma generate_output_threshold_single_replicate_witness :
  match generate_output Example.graph Example.hgncid Example.srd [Example.nv1] 1,
        generate_output Example.graph Example.hgncid Example.srd [Example.nv1] (3#8) with
  | Ok rows1, Ok rowst => rowst ≡ₚ filter (mean_padj_below (3#8)) rows1
  | Raise e1, Raise et => e1 = et
  | _, _ => False
  end.
Proof.
  apply (generate_output_threshold_single_replicate
           Example.graph Example.hgncid Example.srd Example.nv1 (3#8)).
  reflexivity.
Defined.

(** C8 fails as stated with two replicates and [t = 3/8]: the pair
    ([A], [GO:1]) has q-value [2/8] in the first replicate and [5/8] in
    the second.  The run with [alpha_FDR = t] reports it (from the first
    replicate alone); in the run with [alpha_FDR = 1] its mean q-value is
    [7/16], every mean q-value is above [t], and selecting at [t] leaves no
    row. *)
Lemma generate_output_threshold_two_replicates :
  exists rows1 rowst,
    (3#8) < 1 /\
    generate_output Example.graph Example.hgncid Example.srd
      [Example.nv1; Example.nv2] 1 = Ok rows1 /\
    generate_output Example.graph Example.hgncid Example.srd
      [Example.nv1; Example.nv2] (3#8) = Ok rowst /\
    filter (mean_padj_below (3#8)) rows1 = [] /\
    Forall (fun r => exists q, o_mean_padj r = Some q /\ (3#8) < q) rows1 /\
    (k_Symbol ∘ o_key <$> rowst) = ["A"] /\ (k_GO_ID ∘ o_key <$> rowst) = ["GO:1"] /\
    (o_mean_padj <$> rowst) = [Some (2#8)] /\
    (exists r q, rows1 !! 1%nat = Some r /\ k_Symbol (o_key r) = "A" /\
                 k_GO_ID (o_key r) = "GO:1" /\ o_mean_padj r = Some q /\ q == 7#16).
Proof.
  eexists _, _.
  split; [reflexivity|].
  split; [vm_compute; reflexivity|].
  split; [vm_compute; reflexivity|].
  split; [vm_compute; reflexivity|].
  split; [repeat constructor; eexists; (split; [reflexivity|reflexivity])|].
  split; [reflexivity|]. split; [reflexivity|]. split; [reflexivity|].
  eexists _, _. split; [reflexivity|]. repeat (split; [reflexivity|]). reflexivity.
Qed.

(** ** The order of the final table *)

Lemma cat_code_cons (x : string) (l : list string) (h : string) :
  cat_code (x :: l) h = if decide (x = h) then Some 0%nat else S <$> cat_code l h.
Proof.
  unfold cat_code. cbn [list_find]. destruct (decide (x = h)); [reflexivity|].
  by destruct (list_find (fun c => c = h) l) as [[c y]|].
Qed.

Lemma cat_code_Some_elem_of (l : list string) (h : string) :
  h ∈ l -> is_Some (cat_code l h).
Proof.
  intros Hin. unfold cat_code.
  destruct (list_find_elem_of (fun c => c = h) l h Hin eq_refl) as [[c y] ->].
  by eexists.
Qed.

Lemma cat_code_lookup (l : list string) (h : string) (c : nat) :
  cat_code l h = Some c -> l !! c = Some h.
Proof.
  unfold cat_code. destruct (list_find (fun c => c = h) l) as [[c' y]|] eqn:Hf;
    simpl; [|discriminate].
  intros [= <-]. apply list_find_Some in Hf as (Hl & -> & _). exact Hl.
Qed.

Lemma elem_of_unique_from (seen l : list string) (h : string) :
  h ∈ unique_from seen l <-> h ∈ l /\ h ∉ seen.
Proof.
  revert seen. induction l as [|x l IH]; intros seen; simpl.
  - rewrite elem_of_nil. tauto.
  - case_bool_decide as Hx.
    + rewrite IH, elem_of_cons. split; [tauto|].
      intros [[->|Hin] Hns]; [contradiction|tauto].
    + rewrite !elem_of_cons, IH, not_elem_of_cons.
      destruct (decide (h = x)) as [->|Hne]; tauto.
Qed.

Lemma elem_of_unique (l : list string) (h : string) : h ∈ unique l <-> h ∈ l.
Proof.
  unfold unique. rewrite elem_of_unique_from. split; [tauto|].
  intros Hin. split; [exact Hin|apply not_elem_of_nil].
Qed.

(** The categories keep the order in which the identifiers first appear
    in the gene list. *)
Lemma unique_from_order (seen l : list string) (h1 h2 : string) (c1 c2 p1 p2 : nat) :
  h1 ∉ seen -> h2 ∉ seen ->
  cat_code (unique_from seen l) h1 = Some c1 ->
  cat_code (unique_from seen l) h2 = Some c2 ->
  cat_code l h1 = Some p1 -> cat_code l h2 = Some p2 ->
  ((c1 <= c2)%nat <-> (p1 <= p2)%nat).
Proof.
  revert seen c1 c2 p1 p2.
  induction l as [|x l IH]; intros seen c1 c2 p1 p2 Hs1 Hs2 Hc1 Hc2 Hp1 Hp2.
  - discriminate.
  - rewrite cat_code_cons in Hp1, Hp2. cbn [unique_from] in Hc1, Hc2.
    case_bool_decide as Hx.
    + destruct (decide (x = h1)) as [->|N1]; [contradiction|].
      destruct (decide (x = h2)) as [->|N2]; [contradiction|].
      destruct (cat_code l h1) as [p1'|]; [|discriminate].
      destruct (cat_code l h2) as [p2'|]; [|discriminate].
      injection Hp1 as <-. injection Hp2 as <-.
      pose proof (IH seen c1 c2 p1' p2' Hs1 Hs2 Hc1 Hc2 eq_refl eq_refl). lia.
    + rewrite cat_code_cons in Hc1, Hc2.
      destruct (decide (x = h1)) as [->|N1].
      { injection Hc1 as <-. injection Hp1 as <-. lia. }
      destruct (decide (x = h2)) as [->|N2].
      { injection Hc2 as <-. injection Hp2 as <-.
        destruct (cat_code (unique_from (h2 :: seen) l) h1); [|discriminate].
        injection Hc1 as <-.
        destruct (cat_code l h1); [|discriminate]. injection Hp1 as <-. lia. }
      destruct (cat_code (unique_from (x :: seen) l) h1) as [c1'|] eqn:E1; [|discriminate].
      destruct (cat_code (unique_from (x :: seen) l) h2) as [c2'|] eqn:E2; [|discriminate].
      destruct (cat_code l h1) as [p1'|]; [|discriminate].
      destruct (cat_code l h2) as [p2'|]; [|discriminate].
      injection Hc1 as <-. injection Hc2 as <-. injection Hp1 as <-. injection Hp2 as <-.
      assert (Hs1' : h1 ∉ x :: seen) by (rewrite not_elem_of_cons; split; congruence).
      assert (Hs2' : h2 ∉ x :: seen) by (rewrite not_elem_of_cons; split; congruence).
      pose proof (IH (x :: seen) c1' c2' p1' p2' Hs1' Hs2' E1 E2 eq_refl eq_refl). lia.
Qed.

Lemma unique_order (l : list string) (h1 h2 : string) (c1 c2 p1 p2 : nat) :
  cat_code (unique l) h1 = Some c1 -> cat_code (unique l) h2 = Some c2 ->
  cat_code l h1 = Some p1 -> cat_code l h2 = Some p2 ->
  ((c1 <= c2)%nat <-> (p1 <= p2)%nat).
Proof. apply unique_from_order; apply not_elem_of_nil. Qed.

Lemma StronglySorted_lookup_lt {A} (R : relation A) (l : list A) (i j : nat) (x y : A) :
  StronglySorted R l -> (i < j)%nat -> l !! i = Some x -> l !! j = Some y -> R x y.
Proof.
  intros Hs. revert i j. induction Hs as [|z l Hs IH Hall]; intros i j Hij Hi Hj.
  - rewrite lookup_nil in Hi. discriminate.
  - destruct j as [|j]; [lia|]. simpl in Hj. destruct i as [|i]; simpl in Hi.
    + injection Hi as <-. rewrite Forall_forall in Hall.
      apply Hall. eapply list_elem_of_lookup_2, Hj.
    + apply (IH i j); [lia|assumption..].
Qed.

Section RowOrder.
Variable graph : Graph.
Variable hgncid : list string.
Variable srd : gmap string (list Q).

Let listed (r : rep_row) : Prop := k_HGNC (rr_key r) ∈ hgncid.

Lemma score_node_listed (nv : node_vectors) (alpha : Q) (df df' : list rep_row)
    (n : string) :
  Forall listed df ->
  score_node graph hgncid srd nv alpha df n = Ok df' -> Forall listed df'.
Proof.
  intros Hdf. unfold score_node, getitem.
  destruct (g_node graph !! n) as [attrs|]; cbn [mbind result_bind];
    [|by intros [= <-]].
  destruct (attrs !! "HGNC") as [hgnc|]; cbn [mbind result_bind];
    [|by intros [= <-]].
  case_bool_decide as Hin; [|by intros [= <-]].
  destruct (g_adj graph !! n) as [nbrs|]; cbn [mbind result_bind];
    [|by intros [= <-]].
  destruct (get_GO_df graph srd nv n (size nbrs) alpha) as [GOdf|[]]; cbn;
    [|by intros [= <-]|discriminate].
  intros [= <-]. apply Forall_app. split; [exact Hdf|].
  apply Forall_fmap, Forall_forall. intros g _. exact Hin.
Qed.

Lemma score_nodes_listed (nv : node_vectors) (alpha : Q) (g_view : list string)
    (df df' : list rep_row) :
  Forall listed df ->
  score_nodes graph hgncid srd nv alpha df g_view = Ok df' -> Forall listed df'.
Proof.
  revert df. induction g_view as [|n g_view IH]; intros df Hdf; cbn [score_nodes].
  - by intros [= <-].
  - destruct (score_node graph hgncid srd nv alpha df n) as [df1|] eqn:Hn;
      cbn [mbind result_bind]; [|discriminate].
    apply IH. eapply score_node_listed; eassumption.
Qed.

Lemma replicate_tables_listed (reps : list node_vectors) (alpha : Q)
    (dfs : list (list rep_row)) :
  replicate_tables graph hgncid srd reps alpha = Ok dfs -> Forall (Forall listed) dfs.
Proof.
  revert dfs. induction reps as [|nv reps IH]; intros dfs; cbn [replicate_tables].
  - intros [= <-]. constructor.
  - unfold replicate_table.
    destruct (score_nodes graph hgncid srd nv alpha [] (g_nodes graph)) as [df|] eqn:Hdf;
      cbn [mbind result_bind]; [|discriminate].
    destruct (replicate_tables graph hgncid srd reps alpha) as [dfs'|];
      cbn [mbind result_bind]; [|discriminate].
    intros [= <-]. constructor; [|by apply IH].
    rewrite merge_sort_Permutation.
    eapply score_nodes_listed; [|exact Hdf]. constructor.
Qed.

(** The final rows are strongly sorted by the three sort columns. *)
Lemma generate_output_StronglySorted (nvs : list node_vectors) (alpha : Q)
    (rows : list out_row) :
  generate_output graph hgncid srd nvs alpha = Ok rows ->
  StronglySorted (cmp_le (out_compare (unique hgncid))) rows.
Proof.
  intros Hgo. apply generate_output_Ok in Hgo as (df1 & rest & _ & ->).
  apply (StronglySorted_fmap w_out (cmp_le (wide_compare (unique hgncid)))).
  - intros x y Hxy. exact Hxy.
  - apply StronglySorted_merge_sort; apply _.
Qed.

(** Every final row belongs to a listed gene and has a mean q-value. *)
Lemma generate_output_row_listed (nvs : list node_vectors) (alpha : Q)
    (rows : list out_row) (r : out_row) :
  generate_output graph hgncid srd nvs alpha = Ok rows -> r ∈ rows ->
  k_HGNC (o_key r) ∈ hgncid /\ is_Some (o_mean_padj r).
Proof.
  intros Hgo Hr.
  destruct (generate_output_provenance _ _ _ _ _ _ Hgo) as (outdfs & Hrt & _ & Hrows).
  destruct (Hrows r Hr) as (m & (_ & Hval & k & v & Hk) & ->).
  cbn [w_out aggregate o_key o_mean_padj]. split.
  - destruct (Hval k v Hk) as (df & Hdf & Hin).
    pose proof (replicate_tables_listed _ _ _ Hrt) as Hall.
    rewrite Forall_forall in Hall.
    specialize (Hall df (list_elem_of_lookup_2 _ _ _ Hdf)).
    rewrite Forall_forall in Hall. apply (Hall _ Hin).
  - rewrite nanmean_present; [by eexists|].
    rewrite present_column. pose proof (present_nonempty _ _ _ Hk).
    destruct (present (m_reps m)); [congruence|discriminate].
Qed.
End RowOrder.

(** C6: in the final table a row never stands before a row of a gene that
    comes earlier in the gene list (position of first appearance, whatever
    the identifiers are), and among the rows of one gene the mean q-values
    ascend, rows of equal mean q-value standing in the order of their GO
    descriptions. *)
Theorem generate_output_row_order
    (graph : Graph) (hgncid : list string) (srd : gmap string (list Q))
    (nvs : list node_vectors) (alpha_FDR : Q) (rows : list out_row)
    (i j : nat) (r1 r2 : out_row) :
  generate_output graph hgncid srd nvs alpha_FDR = Ok rows ->
  (i < j)%nat -> rows !! i = Some r1 -> rows !! j = Some r2 ->
  exists p1 p2 q1 q2,
    cat_code hgncid (k_HGNC (o_key r1)) = Some p1 /\
    cat_code hgncid (k_HGNC (o_key r2)) = Some p2 /\
    o_mean_padj r1 = Some q1 /\ o_mean_padj r2 = Some q2 /\
    (p1 <= p2)%nat /\
    (k_HGNC (o_key r1) = k_HGNC (o_key r2) ->
     q1 <= q2 /\
     (q1 == q2 ->
      (k_GO_description (o_key r1) <=? k_GO_description (o_key r2))%string = true)).
Proof.
  intros Hgo Hij Hi Hj.
  pose proof (generate_output_StronglySorted _ _ _ _ _ _ Hgo) as Hsorted.
  pose proof (StronglySorted_lookup_lt _ _ _ _ _ _ Hsorted Hij Hi Hj) as Hle.
  destruct (generate_output_row_listed _ _ _ _ _ _ r1 Hgo (list_elem_of_lookup_2 _ _ _ Hi))
    as [Hin1 [q1 Hq1]].
  destruct (generate_output_row_listed _ _ _ _ _ _ r2 Hgo (list_elem_of_lookup_2 _ _ _ Hj))
    as [Hin2 [q2 Hq2]].
  destruct (cat_code_Some_elem_of _ _ Hin1) as [p1 Hp1].
  destruct (cat_code_Some_elem_of _ _ Hin2) as [p2 Hp2].
  destruct (cat_code_Some_elem_of _ _ (proj2 (elem_of_unique _ _) Hin1)) as [c1 Hc1].
  destruct (cat_code_Some_elem_of _ _ (proj2 (elem_of_unique _ _) Hin2)) as [c2 Hc2].
  exists p1, p2, q1, q2. do 4 (split; [assumption|]).
  unfold cmp_le, out_compare in Hle. rewrite Hc1, Hc2, Hq1, Hq2 in Hle.
  cbn [option_compare] in Hle.
  pose proof (unique_order hgncid _ _ c1 c2 p1 p2 Hc1 Hc2 Hp1 Hp2) as Hord.
  destruct (Nat.compare_spec c1 c2) as [Heq|Hlt|Hgt]; cbn [lex] in Hle.
  - split; [lia|]. intros _.
    destruct (Qcompare_spec q1 q2) as [Hqeq|Hqlt|Hqgt]; cbn [lex] in Hle.
    + split; [rewrite Hqeq; apply Qle_refl|]. intros _.
      unfold String.leb.
      by destruct (k_GO_description (o_key r1) ?= k_GO_description (o_key r2))%string.
    + split; [apply Qlt_le_weak, Hqlt|]. intros Heq'.
      rewrite Heq' in Hqlt. by apply Qlt_irrefl in Hqlt.
    + congruence.
  - split; [lia|]. intros Hsame. exfalso.
    rewrite Hsame, Hc2 in Hc1. injection Hc1 as ->. lia.
  - congruence.
Qed.

(** The first two rows of the run over two replicates. *)
Lemma generate_output_row_order_witness :
  exists rows r1 r2 p1 p2,
    generate_output Example.graph Example.hgncid Example.srd
      [Example.nv1; Example.nv2] 1 = Ok rows /\
    rows !! 0%nat = Some r1 /\ rows !! 1%nat = Some r2 /\
    cat_code Example.hgncid (k_HGNC (o_key r1)) = Some p1 /\
    cat_code Example.hgncid (k_HGNC (o_key r2)) = Some p2 /\
    (p1 <= p2)%nat.
Proof.
  set (rows := match generate_output Example.graph Example.hgncid Example.srd
                       [Example.nv1; Example.nv2] 1 with
               | Ok rows => rows
               | Raise _ => []
               end).
  assert (Hgo : generate_output Example.graph Example.hgncid Example.srd
                  [Example.nv1; Example.nv2] 1 = Ok rows) by (vm_compute; reflexivity).
  destruct (rows !! 0%nat) as [r1|] eqn:H0; [|vm_compute in H0; discriminate].
  destruct (rows !! 1%nat) as [r2|] eqn:H1; [|vm_compute in H1; discriminate].
  destruct (generate_output_row_order _ _ _ _ _ _ 0%nat 1%nat r1 r2 Hgo
              ltac:(lia) H0 H1)
    as (p1 & p2 & _ & _ & Hp1 & Hp2 & _ & _ & Hle & _).
  exists rows, r1, r2, p1, p2. repeat (split; [assumption|]). exact Hle.
Defined.

(** The gene list [G2; G1] puts the rows of [G2] before the rows of [G1],
    and the two rows of [G1] in the order of their mean q-values. *)
Example generate_output_keeps_gene_list_order :
  exists rows,
    generate_output Example.graph Example.hgncid Example.srd
      [Example.nv1; Example.nv2] 1 = Ok rows /\
    (k_HGNC ∘ o_key <$> rows) = ["G2"; "G1"; "G1"] /\
    (k_GO_ID ∘ o_key <$> rows) = ["GO:1"; "GO:1"; "GO:2"].
Proof.
  eexists. split; [vm_compute; reflexivity|]. split; reflexivity.
Qed.


(** * Further properties of the code *)

(** ** [P_sim]: errors, extremes and buckets *)

(** X1: [P_sim] raises [KeyError] exactly when the bucket of the degree has
    no sample, [ZeroDivisionError] exactly when its sample is empty, and
    otherwise returns a value of [0,1]. *)
Theorem P_sim_outcome (srd : gmap string (list Q)) (sim : Q) (N_con : nat) :
  (P_sim srd sim N_con = Raise KeyError <-> srd !! dist_key N_con = None) /\
  (P_sim srd sim N_con = Raise ZeroDivisionError <-> srd !! dist_key N_con = Some []) /\
  ((exists p, P_sim srd sim N_con = Ok p) <->
   exists x v, srd !! dist_key N_con = Some (x :: v)) /\
  (forall p, P_sim srd sim N_con = Ok p -> 0 <= p <= 1).
Proof.
  split; [|split; [|split]].
  - unfold P_sim, getitem.
    destruct (srd !! dist_key N_con) as [[|x v]|]; cbn; split; try done.
  - unfold P_sim, getitem.
    destruct (srd !! dist_key N_con) as [[|x v]|]; cbn; split; try done.
  - unfold P_sim, getitem.
    destruct (srd !! dist_key N_con) as [[|x v]|]; cbn; split;
      try (intros [p Hp]; discriminate);
      try (intros (x' & v' & Hxv); discriminate).
    + intros _. by exists x, v.
    + intros _. by eexists.
  - apply P_sim_unit_interval.
Qed.

Lemma bisect_left_all_below (fuel : nat) (a : list Q) (key : Q) (lo hi : nat) :
  (forall x, x ∈ a -> x < key) ->
  (lo <= hi <= length a)%nat -> (hi - lo <= fuel)%nat ->
  bisect_left fuel a key lo hi = hi.
Proof.
  intros Hall. revert lo hi. induction fuel as [|fuel IH]; intros lo hi Hle Hfuel;
    cbn [bisect_left].
  - lia.
  - destruct (Nat.ltb_spec lo hi) as [Hlt|Hge]; [|lia].
    pose proof (midpoint_bounds lo hi Hlt) as Hmid.
    set (mid := (lo + (hi - lo) / 2)%nat) in *.
    assert (Hlook : a !! mid = Some (a !!! mid))
      by (apply list_lookup_lookup_total_lt; lia).
    assert (E : Qlt_bool (a !!! mid) key = true).
    { apply Qlt_bool_iff, Hall. eapply list_elem_of_lookup_2, Hlook. }
    rewrite E. apply IH; lia.
Qed.

Lemma bisect_left_none_below (fuel : nat) (a : list Q) (key : Q) (lo hi : nat) :
  (forall x, x ∈ a -> key <= x) ->
  (lo <= hi <= length a)%nat -> (hi - lo <= fuel)%nat ->
  bisect_left fuel a key lo hi = lo.
Proof.
  intros Hall. revert lo hi. induction fuel as [|fuel IH]; intros lo hi Hle Hfuel;
    cbn [bisect_left].
  - reflexivity.
  - destruct (Nat.ltb_spec lo hi) as [Hlt|Hge]; [|reflexivity].
    pose proof (midpoint_bounds lo hi Hlt) as Hmid.
    set (mid := (lo + (hi - lo) / 2)%nat) in *.
    assert (Hlook : a !! mid = Some (a !!! mid))
      by (apply list_lookup_lookup_total_lt; lia).
    assert (E : Qlt_bool (a !!! mid) key = false).
    { apply Qlt_bool_false_iff, Hall. eapply list_elem_of_lookup_2, Hlook. }
    rewrite E. apply IH; lia.
Qed.

(** X2: there is no pseudo-count.  A similarity above every value of the
    bucket's sample gets the p-value 0, a similarity not above any of them
    the p-value 1, whether the sample is sorted or not. *)
Theorem P_sim_extremes (srd : gmap string (list Q)) (sim : Q) (N_con : nat)
    (v : list Q) :
  srd !! dist_key N_con = Some v -> v <> [] ->
  ((forall x, x ∈ v -> x < sim) ->
   exists p, P_sim srd sim N_con = Ok p /\ p == 0) /\
  ((forall x, x ∈ v -> sim <= x) ->
   exists p, P_sim srd sim N_con = Ok p /\ p == 1).
Proof.
  intros Hv Hne.
  assert (Hpos : ~ inject_Z (Z.of_nat (length v)) == 0).
  { change 0 with (inject_Z 0). rewrite inject_Z_injective.
    destruct v; [congruence|]. cbn [length]. lia. }
  split; intros Hall.
  - eexists. split; [apply (P_sim_value srd sim N_con v Hv Hne)|].
    unfold searchsorted. rewrite bisect_left_all_below by (auto; lia).
    field. exact Hpos.
  - eexists. split; [apply (P_sim_value srd sim N_con v Hv Hne)|].
    unfold searchsorted. rewrite bisect_left_none_below by (auto; lia).
    change (inject_Z (Z.of_nat 0)) with 0. field. exact Hpos.
Qed.

(** The bucket ["d2.0"] of the degrees 4 to 7. *)
Lemma P_sim_extremes_witness :
  (exists p, P_sim {[ "d2.0" := [1#8; 2#8; 5#8] ]} (7#8) 5 = Ok p /\ p == 0) /\
  (exists p, P_sim {[ "d2.0" := [1#8; 2#8; 5#8] ]} (1#8) 5 = Ok p /\ p == 1).
Proof.
  split.
  - apply (P_sim_extremes {[ "d2.0" := [1#8; 2#8; 5#8] ]} (7#8) 5 [1#8; 2#8; 5#8]).
    + vm_compute. reflexivity.
    + discriminate.
    + intros x Hx. apply list_elem_of_In in Hx. simpl in Hx.
      destruct Hx as [<-|[<-|[<-|[]]]]; reflexivity.
  - apply (P_sim_extremes {[ "d2.0" := [1#8; 2#8; 5#8] ]} (1#8) 5 [1#8; 2#8; 5#8]).
    + vm_compute. reflexivity.
    + discriminate.
    + intros x Hx. apply list_elem_of_In in Hx. simpl in Hx.
      destruct Hx as [<-|[<-|[<-|[]]]]; discriminate.
Defined.

Lemma string_length_app (s t : string) :
  String.length (s +:+ t) = (String.length s + String.length t)%nat.
Proof.
  induction s as [|a s IH]; [reflexivity|].
  change (S (String.length (s +:+ t)) = S (String.length s + String.length t)).
  by rewrite IH.
Qed.

Lemma append_inj_r (s1 s2 t : string) : s1 +:+ t = s2 +:+ t -> s1 = s2.
Proof.
  revert s2. induction s1 as [|a s1 IH]; intros [|b s2] H.
  - reflexivity.
  - apply (f_equal String.length) in H. rewrite !string_length_app in H.
    cbn [String.length] in H. lia.
  - apply (f_equal String.length) in H. rewrite !string_length_app in H.
    cbn [String.length] in H. lia.
  - change (String a (s1 +:+ t) = String b (s2 +:+ t)) in H.
    injection H as -> H. f_equal. by apply IH.
Qed.

Lemma dist_key_positive (N_con : nat) :
  (0 < N_con)%nat ->
  dist_key N_con = "d" +:+ pretty (Z.log2 (Z.of_nat N_con)) +:+ ".0".
Proof. intros Hpos. unfold dist_key, str_floor_log2. by destruct N_con; [lia|]. Qed.

Lemma dist_key_zero_apart (N_con : nat) :
  (0 < N_con)%nat -> dist_key N_con <> dist_key 0.
Proof.
  intros Hpos. rewrite dist_key_positive by exact Hpos.
  generalize (pretty (Z.log2 (Z.of_nat N_con))). intros s H.
  apply (inj (String.append "d")) in H.
  assert (Hlen : String.length s = 2%nat).
  { apply (f_equal String.length) in H. rewrite string_length_app in H.
    cbn in H. lia. }
  destruct s as [|a [|b [|c s]]]; cbn [String.length] in Hlen; try lia.
  vm_compute in H. discriminate.
Qed.

(** X3: the bucket of a degree is decided by [floor(log2(degree))] alone,
    for degrees below [2^32], where the double that [np.log2] returns and
    the exact logarithm have the same floor.  Two such positive degrees
    have the same key exactly when they lie between the same powers of
    two, then [P_sim] gives them the same p-value; and the key of degree 0
    is the key of no positive degree. *)
Theorem dist_key_buckets (n m : nat) :
  (0 < n)%nat -> (0 < m)%nat ->
  (Z.of_nat n < 2 ^ 32)%Z -> (Z.of_nat m < 2 ^ 32)%Z ->
  (dist_key n = dist_key m <-> Z.log2 (Z.of_nat n) = Z.log2 (Z.of_nat m)) /\
  (forall k : nat, (2 ^ k <= n < 2 ^ S k)%nat ->
     dist_key n = "d" +:+ pretty (Z.of_nat k) +:+ ".0") /\
  (Z.log2 (Z.of_nat n) = Z.log2 (Z.of_nat m) ->
   forall srd sim, P_sim srd sim n = P_sim srd sim m) /\
  dist_key n <> dist_key 0.
Proof.
  intros Hn Hm _ _.
  assert (Hiff : dist_key n = dist_key m <-> Z.log2 (Z.of_nat n) = Z.log2 (Z.of_nat m)).
  { rewrite !dist_key_positive by assumption. split.
    - intros H. apply (inj (String.append "d")) in H.
      apply append_inj_r in H. by apply (inj pretty) in H.
    - by intros ->. }
  split; [exact Hiff|]. split; [|split].
  - intros k [Hlo Hhi]. rewrite dist_key_positive by exact Hn.
    do 3 f_equal. apply Z.log2_unique; [lia|].
    replace (Z.succ (Z.of_nat k)) with (Z.of_nat (S k)) by lia.
    change 2%Z with (Z.of_nat 2). rewrite <- !Nat2Z.inj_pow. lia.
  - intros Hlog srd sim. unfold P_sim. by rewrite (proj2 Hiff Hlog).
  - by apply dist_key_zero_apart.
Qed.

(** The degrees 4 and 7 share the bucket ["d2.0"]. *)
Lemma dist_key_buckets_witness :
  (dist_key 4 = dist_key 7 <-> Z.log2 4 = Z.log2 7) /\
  dist_key 7 = "d2.0" /\ dist_key 4 <> dist_key 0.
Proof.
  destruct (dist_key_buckets 4 7 ltac:(lia) ltac:(lia) ltac:(reflexivity)
              ltac:(reflexivity)) as (H1 & _ & _ & H4).
  split; [exact H1|]. split; [reflexivity|exact H4].
Defined.

(** ** The Benjamini-Hochberg values keep the order of the p-values *)

Lemma accumulate_from_le (l : list Q) (m : Q) (j : nat) (q : Q) :
  accumulate_from m l !! j = Some q ->
  q <= m /\ forall i x, (i <= j)%nat -> l !! i = Some x -> q <= x.
Proof.
  revert m j. induction l as [|y l IH]; intros m j Hq; cbn [accumulate_from] in Hq.
  - rewrite lookup_nil in Hq. discriminate.
  - destruct j as [|j]; cbn in Hq.
    + injection Hq as <-. split; [apply Q.le_min_l|].
      intros i x Hi Hx. assert (i = 0)%nat as -> by lia.
      injection Hx as <-. apply Q.le_min_r.
    + destruct (IH _ _ Hq) as [Hm Hl]. split.
      * eapply Qle_trans; [exact Hm|apply Q.le_min_l].
      * intros [|i] x Hi Hx; cbn in Hx.
        -- injection Hx as <-. eapply Qle_trans; [exact Hm|apply Q.le_min_r].
        -- apply (Hl i); [lia|exact Hx].
Qed.

Lemma accumulate_from_attained (l : list Q) (m : Q) (j : nat) (q : Q) :
  accumulate_from m l !! j = Some q ->
  q == m \/ exists i x, (i <= j)%nat /\ l !! i = Some x /\ q == x.
Proof.
  revert m j. induction l as [|y l IH]; intros m j Hq; cbn [accumulate_from] in Hq.
  - rewrite lookup_nil in Hq. discriminate.
  - assert (Hmin : Qmin m y == m \/ Qmin m y == y)
      by (destruct (Q.min_dec m y); [left|right]; assumption).
    destruct j as [|j]; cbn in Hq.
    + injection Hq as <-. destruct Hmin as [E|E]; [by left|].
      right. exists 0%nat, y. split; [lia|]. by split.
    + destruct (IH _ _ Hq) as [E|(i & x & Hi & Hx & E)].
      * destruct Hmin as [E'|E']; [left; by rewrite E, E'|].
        right. exists 0%nat, y. split; [lia|]. split; [reflexivity|]. by rewrite E, E'.
      * right. exists (S i), x. split; [lia|]. by split.
Qed.

Lemma minimum_accumulate_le (l : list Q) (j : nat) (q : Q) :
  minimum_accumulate l !! j = Some q ->
  forall i x, (i <= j)%nat -> l !! i = Some x -> q <= x.
Proof.
  intros Hq. destruct l as [|y l]; cbn [minimum_accumulate] in Hq.
  - rewrite lookup_nil in Hq. discriminate.
  - destruct j as [|j]; cbn in Hq.
    + injection Hq as <-. intros i x Hi Hx. assert (i = 0)%nat as -> by lia.
      injection Hx as <-. apply Qle_refl.
    + destruct (accumulate_from_le _ _ _ _ Hq) as [Hm Hl].
      intros [|i] x Hi Hx; cbn in Hx.
      * by injection Hx as <-.
      * apply (Hl i); [lia|exact Hx].
Qed.

Lemma minimum_accumulate_attained (l : list Q) (j : nat) (q : Q) :
  minimum_accumulate l !! j = Some q ->
  exists i x, (i <= j)%nat /\ l !! i = Some x /\ q == x.
Proof.
  intros Hq. destruct l as [|y l]; cbn [minimum_accumulate] in Hq.
  - rewrite lookup_nil in Hq. discriminate.
  - destruct j as [|j]; cbn in Hq.
    + injection Hq as <-. exists 0%nat, y. split; [lia|]. by split.
    + destruct (accumulate_from_attained _ _ _ _ Hq) as [E|(i & x & Hi & Hx & E)].
      * exists 0%nat, y. split; [lia|]. by split.
      * exists (S i), x. split; [lia|]. by split.
Qed.

Lemma reversed_accumulate_le (raw : list Q) (k : nat) (q : Q) :
  reverse (minimum_accumulate (reverse raw)) !! k = Some q ->
  forall j x, (k <= j)%nat -> raw !! j = Some x -> q <= x.
Proof.
  intros Hq j x Hj Hx.
  assert (Hk : (k < length raw)%nat).
  { apply lookup_lt_Some in Hq.
    rewrite length_reverse, length_minimum_accumulate, length_reverse in Hq. exact Hq. }
  pose proof (lookup_lt_Some _ _ _ Hx) as Hjlt.
  rewrite reverse_lookup in Hq
    by (rewrite length_minimum_accumulate, length_reverse; exact Hk).
  rewrite length_minimum_accumulate, length_reverse in Hq.
  apply (minimum_accumulate_le _ _ _ Hq (length raw - S j)%nat); [lia|].
  rewrite reverse_lookup by lia.
  replace (length raw - S (length raw - S j))%nat with j by lia. exact Hx.
Qed.

Lemma reversed_accumulate_attained (raw : list Q) (k : nat) (q : Q) :
  reverse (minimum_accumulate (reverse raw)) !! k = Some q ->
  exists j x, (k <= j)%nat /\ raw !! j = Some x /\ q == x.
Proof.
  intros Hq.
  assert (Hk : (k < length raw)%nat).
  { apply lookup_lt_Some in Hq.
    rewrite length_reverse, length_minimum_accumulate, length_reverse in Hq. exact Hq. }
  rewrite reverse_lookup in Hq
    by (rewrite length_minimum_accumulate, length_reverse; exact Hk).
  rewrite length_minimum_accumulate, length_reverse in Hq.
  destruct (minimum_accumulate_attained _ _ _ Hq) as (i & x & Hi & Hx & E).
  pose proof (lookup_lt_Some _ _ _ Hx) as Hilt. rewrite length_reverse in Hilt.
  rewrite reverse_lookup in Hx by exact Hilt.
  exists (length raw - S i)%nat, x. split; [lia|]. by split.
Qed.

Lemma Qdiv_antitone (s e e' : Q) :
  0 <= s -> 0 < e -> e <= e' -> s / e' <= s / e.
Proof.
  intros Hs He Hee.
  assert (He' : 0 < e') by (eapply Qlt_le_trans; eassumption).
  apply Qle_shift_div_r; [exact He'|].
  assert (Ht : 0 <= s / e).
  { apply Qle_shift_div_l; [exact He|]. by rewrite Qmult_0_l. }
  assert (Es : s == s / e * e).
  { field. intros Hz. rewrite Hz in He. by apply Qlt_irrefl in He. }
  rewrite Es at 1. set (t := s / e) in *. clearbody t. nra.
Qed.

Section CorrectedOrder.
Variable pvals : list Q.
Hypothesis pvals_unit : Forall (fun p => 0 <= p <= 1) pvals.

Let sortind := argsort pvals.
Let sorted := np_take pvals sortind.
Let raw := zip_with Qdiv sorted (_ecdf sorted).
Let corrected := reverse (minimum_accumulate (reverse raw)).

Lemma sorted_unit (k : nat) (s : Q) : sorted !! k = Some s -> 0 <= s <= 1.
Proof.
  intros Hs. subst sorted sortind. unfold np_take in Hs.
  rewrite list_lookup_fmap in Hs.
  destruct (argsort pvals !! k) as [i|] eqn:Hk; [|discriminate].
  injection Hs as <-.
  assert (Hi : (i < length pvals)%nat).
  { apply list_elem_of_lookup_2 in Hk. rewrite argsort_Permutation in Hk.
    apply elem_of_seq in Hk. lia. }
  rewrite Forall_forall in pvals_unit. apply pvals_unit.
  apply list_elem_of_lookup. exists i. by apply list_lookup_lookup_total_lt.
Qed.

Lemma length_sorted : length sorted = length pvals.
Proof. subst sorted sortind. unfold np_take. by rewrite length_fmap, length_argsort. Qed.

Lemma raw_lookup (k : nat) (x : Q) :
  raw !! k = Some x <->
  exists s, sorted !! k = Some s /\
    x = s / (inject_Z (Z.of_nat (1 + k)) / inject_Z (Z.of_nat (length pvals))).
Proof.
  subst raw. rewrite lookup_zip_with_Some. split.
  - intros (s & e & -> & Hs & He). exists s. split; [exact Hs|].
    apply _ecdf_lookup in He as (-> & _). by rewrite length_sorted.
  - intros (s & Hs & ->). exists s. eexists. split; [reflexivity|]. split; [exact Hs|].
    unfold _ecdf. rewrite list_lookup_fmap, length_sorted.
    pose proof (lookup_lt_Some _ _ _ Hs) as Hk. rewrite length_sorted in Hk.
    rewrite (proj2 (lookup_seq 1 (length pvals) k (1 + k)) (conj eq_refl Hk)).
    reflexivity.
Qed.

(** Between tied p-values the scaled value only shrinks with the rank. *)
Lemma raw_tied_later_le (j k' : nat) (sj sk xj xk : Q) :
  (j <= k')%nat -> sorted !! j = Some sj -> sorted !! k' = Some sk -> sj == sk ->
  raw !! j = Some xj -> raw !! k' = Some xk -> xk <= xj.
Proof.
  intros Hjk Hsj Hsk Heq Hxj Hxk.
  apply raw_lookup in Hxj as (sj' & Hsj' & ->). rewrite Hsj in Hsj'. injection Hsj' as <-.
  apply raw_lookup in Hxk as (sk' & Hsk' & ->). rewrite Hsk in Hsk'. injection Hsk' as <-.
  pose proof (lookup_lt_Some _ _ _ Hsk) as Hk'. rewrite length_sorted in Hk'.
  rewrite <- Heq. apply Qdiv_antitone.
  - apply (sorted_unit j sj Hsj).
  - apply Qlt_shift_div_l.
    + change 0 with (inject_Z 0). rewrite <- Zlt_Qlt. lia.
    + rewrite Qmult_0_l. change 0 with (inject_Z 0). rewrite <- Zlt_Qlt. lia.
  - apply rank_ratio_le. lia.
Qed.

Lemma corrected_monotone (k k' : nat) (c c' : Q) :
  (k <= k')%nat -> corrected !! k = Some c -> corrected !! k' = Some c' -> c <= c'.
Proof.
  intros Hkk Hc Hc'.
  destruct (reversed_accumulate_attained raw k' c' Hc') as (j & x & Hj & Hx & ->).
  apply (reversed_accumulate_le raw k c Hc j x); [lia|exact Hx].
Qed.

Lemma corrected_tied (k k' : nat) (s s' c c' : Q) :
  (k <= k')%nat -> sorted !! k = Some s -> sorted !! k' = Some s' -> s == s' ->
  corrected !! k = Some c -> corrected !! k' = Some c' -> c' <= c.
Proof.
  intros Hkk Hs Hs' Heq Hc Hc'.
  destruct (reversed_accumulate_attained raw k c Hc) as (j & x & Hj & Hx & ->).
  destruct (decide (k' <= j)%nat) as [Hle|Hgt].
  - apply (reversed_accumulate_le raw k' c' Hc' j x Hle Hx).
  - pose proof (lookup_lt_Some _ _ _ Hs') as Hk'. rewrite length_sorted in Hk'.
    destruct (lookup_lt_is_Some_2 sorted j) as [sj Hsj]; [rewrite length_sorted; lia|].
    destruct (lookup_lt_is_Some_2 raw k') as [xk Hxk].
    { subst raw. rewrite length_zip_with, length__ecdf, length_sorted. lia. }
    assert (Hsorted : StronglySorted Qle sorted) by apply np_take_argsort_sorted.
    assert (Hsj' : sj == s').
    { apply Qle_antisym.
      - apply (StronglySorted_Qle_lookup sorted j k'); [assumption|lia|assumption..].
      - rewrite <- Heq.
        apply (StronglySorted_Qle_lookup sorted k j); [assumption|lia|assumption..]. }
    eapply Qle_trans.
    + apply (reversed_accumulate_le raw k' c' Hc' k' xk); [lia|exact Hxk].
    + apply (raw_tied_later_le j k' sj s' x xk); [lia|assumption..].
Qed.

Lemma clip_monotone (c c' : Q) :
  c <= c' -> (if Qlt_bool 1 c then 1 else c) <= (if Qlt_bool 1 c' then 1 else c').
Proof.
  intros Hcc. destruct (Qlt_bool 1 c) eqn:E, (Qlt_bool 1 c') eqn:E'.
  - apply Qle_refl.
  - apply Qlt_bool_iff in E. apply Qlt_bool_false_iff in E'.
    exfalso. apply (Qlt_not_le _ _ E). eapply Qle_trans; eassumption.
  - by apply Qlt_bool_false_iff in E.
  - exact Hcc.
Qed.

(** A smaller p-value never gets the larger adjusted value. *)
Lemma fdrcorrection_monotone (alpha : Q) (i j : nat) (p p' q q' : Q) :
  pvals !! i = Some p -> pvals !! j = Some p' -> p <= p' ->
  (fdrcorrection pvals alpha).2 !! i = Some q ->
  (fdrcorrection pvals alpha).2 !! j = Some q' -> q <= q'.
Proof.
  intros Hp Hp' Hpp Hq Hq'.
  destruct (sortind_rank pvals i (lookup_lt_Some _ _ _ Hp)) as (ki & Hki & Hkilt).
  destruct (sortind_rank pvals j (lookup_lt_Some _ _ _ Hp')) as (kj & Hkj & Hkjlt).
  destruct (lookup_lt_is_Some_2 corrected ki) as [ci Hci].
  { subst corrected raw sorted sortind. rewrite length_corrected. exact Hkilt. }
  destruct (lookup_lt_is_Some_2 corrected kj) as [cj Hcj].
  { subst corrected raw sorted sortind. rewrite length_corrected. exact Hkjlt. }
  rewrite (fdrcorrection_slot pvals alpha ki i ci Hki Hci) in Hq. injection Hq as <-.
  rewrite (fdrcorrection_slot pvals alpha kj j cj Hkj Hcj) in Hq'. injection Hq' as <-.
  apply clip_monotone.
  assert (Hsi : sorted !! ki = Some p).
  { subst sorted sortind. by rewrite (np_take_argsort_lookup pvals ki i Hki). }
  assert (Hsj : sorted !! kj = Some p').
  { subst sorted sortind. by rewrite (np_take_argsort_lookup pvals kj j Hkj). }
  destruct (decide (ki <= kj)%nat) as [Hle|Hgt].
  - apply (corrected_monotone ki kj ci cj Hle Hci Hcj).
  - apply (corrected_tied kj ki p' p cj ci ltac:(lia) Hsj Hsi); [|exact Hcj|exact Hci].
    apply Qle_antisym; [|exact Hpp].
    apply (StronglySorted_Qle_lookup sorted kj ki); [|lia|assumption..].
    apply np_take_argsort_sorted.
Qed.

(** No adjusted value exceeds a bound of all the p-values. *)
Lemma fdrcorrection_le_bound (alpha : Q) (i : nat) (q M : Q) :
  (forall p, p ∈ pvals -> p <= M) ->
  (fdrcorrection pvals alpha).2 !! i = Some q -> q <= M.
Proof.
  intros HM Hq.
  assert (Hi : (i < length pvals)%nat).
  { apply lookup_lt_Some in Hq. by rewrite fdrcorrection_length in Hq. }
  destruct (sortind_rank pvals i Hi) as (k & Hk & Hklt).
  destruct (lookup_lt_is_Some_2 corrected k) as [c Hc].
  { subst corrected raw sorted sortind. rewrite length_corrected. exact Hklt. }
  rewrite (fdrcorrection_slot pvals alpha k i c Hk Hc) in Hq. injection Hq as <-.
  set (last := (length pvals - 1)%nat).
  destruct (lookup_lt_is_Some_2 sorted last) as [s Hs]; [rewrite length_sorted; lia|].
  assert (Hraw : raw !! last = Some
            (s / (inject_Z (Z.of_nat (1 + last)) / inject_Z (Z.of_nat (length pvals))))).
  { apply raw_lookup. by exists s. }
  assert (Hcs : c <= s).
  { eapply Qle_trans; [apply (reversed_accumulate_le raw k c Hc last _ ltac:(lia) Hraw)|].
    replace (1 + last)%nat with (length pvals) by lia.
    assert (Hn : ~ inject_Z (Z.of_nat (length pvals)) == 0).
    { change 0 with (inject_Z 0). rewrite inject_Z_injective. lia. }
    apply Qle_lteq. right. field. exact Hn. }
  assert (HsM : s <= M).
  { apply HM. subst sorted sortind. unfold np_take in Hs.
    rewrite list_lookup_fmap in Hs.
    destruct (argsort pvals !! last) as [i'|] eqn:Hi'; [|discriminate].
    injection Hs as <-.
    apply list_elem_of_lookup. exists i'. apply list_lookup_lookup_total_lt.
    apply list_elem_of_lookup_2 in Hi'. rewrite argsort_Permutation in Hi'.
    apply elem_of_seq in Hi'. lia. }
  destruct (Qlt_bool 1 c) eqn:E.
  - apply Qlt_bool_iff in E. apply Qlt_le_weak in E.
    eapply Qle_trans; [exact E|]. eapply Qle_trans; eassumption.
  - eapply Qle_trans; eassumption.
Qed.
End CorrectedOrder.

(** ** [get_GO_df]: where the rows come from *)

Lemma elem_of_GO_nodes (graph : Graph) (n : string) :
  n ∈ GO_nodes graph <->
  exists attrs, g_node graph !! n = Some attrs /\ is_Some (attrs !! "GO").
Proof.
  unfold GO_nodes. rewrite elem_of_dom. split.
  - intros [attrs Hf]. apply map_lookup_filter_Some in Hf as [Hn HGO]. by exists attrs.
  - intros (attrs & Hn & HGO). exists attrs. by apply map_lookup_filter_Some.
Qed.

(** X4: every row [get_GO_df] returns is read off the network and the null
    distribution: its GO term is a neighbour of the gene and carries the
    [GO] attribute, its similarity is the one the embedding ranks the term
    with, [N_con(GO)] is the term's degree, the description its [name]
    attribute, and the p-value is [P_sim] in the bucket of the smaller of
    the two degrees; the rows keep the order of the ranking. *)
Theorem get_GO_df_rows_from_network
    (graph : Graph) (srd : gmap string (list Q)) (nv : node_vectors)
    (geneoi : string) (N_gene_con : nat) (alpha_FDR : Q) (rows : list go_row) :
  get_GO_df graph srd nv geneoi N_gene_con alpha_FDR = Ok rows ->
  exists nbrs ranking,
    g_adj graph !! geneoi = Some nbrs /\ nv !! geneoi = Some ranking /\
    (go_id <$> rows) `sublist_of` ranking.*1 /\
    forall r, r ∈ rows ->
      (go_id r, go_similarity r) ∈ ranking /\ go_id r ∈ nbrs /\
      exists go_nbrs attrs,
        g_adj graph !! go_id r = Some go_nbrs /\ go_N_con r = size go_nbrs /\
        g_node graph !! go_id r = Some attrs /\ is_Some (attrs !! "GO") /\
        attrs !! "name" = Some (go_description r) /\
        P_sim srd (go_similarity r) (size go_nbrs `min` N_gene_con) = Ok (go_pval r).
Proof.
  rewrite get_GO_df_selection.
  destruct (scored_table graph srd nv geneoi N_gene_con alpha_FDR) as [simdf|e] eqn:Hs;
    cbn [fmap result_fmap]; [|discriminate].
  intros [= <-].
  destruct (scored_table_rows _ _ _ _ _ _ _ Hs) as (nbrs & ranking & Hadj & Hnv & Hall).
  destruct (scored_table_columns _ _ _ _ _ _ _ Hs)
    as (nbrs' & ranking' & Hadj' & Hnv' & Hid & _).
  rewrite Hadj in Hadj'. injection Hadj' as <-.
  rewrite Hnv in Hnv'. injection Hnv' as <-.
  exists nbrs, ranking. do 2 (split; [assumption|]).
  assert (Hsub : (if Qlt_bool alpha_FDR 1
                  then filter (fun r => Qlt_bool (go_padj r) alpha_FDR = true) simdf
                  else simdf) `sublist_of` simdf).
  { destruct (Qlt_bool alpha_FDR 1); [apply sublist_filter|reflexivity]. }
  split.
  - etransitivity; [apply fmap_sublist, Hsub|]. rewrite Hid.
    apply fmap_sublist. unfold candidates. apply sublist_filter.
  - intros r Hr. apply (elem_of_sublist _ _ _ Hr) in Hsub.
    apply list_elem_of_lookup in Hsub as [i Hi].
    destruct (Forall2_lookup_r _ _ _ _ _ Hall Hi) as (c & Hc & Hid' & Hsim & Hscore).
    apply list_elem_of_lookup_2 in Hc. unfold candidates in Hc.
    apply list_elem_of_filter in Hc as [Hcand Hcin].
    destruct c as [go sim]. cbn in Hid', Hsim, Hcand. subst go sim.
    apply elem_of_intersection in Hcand as [Hnb HGO].
    apply elem_of_GO_nodes in HGO as (attrs & Hattrs & HGOattr).
    split; [exact Hcin|]. split; [exact Hnb|].
    unfold score_candidate, getitem in Hscore. cbn [fst snd] in Hscore.
    destruct (g_adj graph !! go_id r) as [go_nbrs|]; cbn [mbind result_bind] in Hscore;
      [|discriminate].
    rewrite Hattrs in Hscore. cbn [mbind result_bind] in Hscore.
    destruct (attrs !! "name") as [des|] eqn:Hname; cbn [mbind result_bind] in Hscore;
      [|discriminate].
    destruct (P_sim srd (go_similarity r) _) as [pval|] eqn:Hp;
      cbn [mbind result_bind] in Hscore; [|discriminate].
    injection Hscore as HN Hdes Hpv.
    exists go_nbrs, attrs. split; [reflexivity|]. split; [by symmetry|].
    split; [exact Hattrs|]. split; [exact HGOattr|].
    split; [rewrite Hname; by f_equal|]. rewrite Hp. by f_equal.
Qed.

(** Gene [A] of the example network. *)
Lemma get_GO_df_rows_from_network_witness :
  exists nbrs ranking,
    g_adj Example.graph !! "A" = Some nbrs /\ Example.nv1 !! "A" = Some ranking /\
    ["GO:1"; "GO:2"] `sublist_of` ranking.*1.
Proof.
  destruct (get_GO_df_rows_from_network Example.graph Example.srd Example.nv1 "A" 3 1
              [ {| go_description := "alpha"; go_id := "GO:1"; go_N_con := 2;
                   go_similarity := 15#16; go_pval := 1#8; go_padj := 2#8 |};
                {| go_description := "beta"; go_id := "GO:2"; go_N_con := 1;
                   go_similarity := 5#16; go_pval := 2#4; go_padj := 4#8 |} ])
    as (nbrs & ranking & Hadj & Hnv & Hsub & _).
  - vm_compute. reflexivity.
  - exists nbrs, ranking. by repeat split.
Defined.

(** ** [get_GO_df]: the threshold and the order of the q-values *)

Lemma filter_sublist_impl {A} (P1 P2 : A -> Prop)
    `{!forall x, Decision (P1 x), !forall x, Decision (P2 x)} (l : list A) :
  (forall x, P1 x -> P2 x) -> filter P1 l `sublist_of` filter P2 l.
Proof.
  intros Himp. induction l as [|x l IH]; [reflexivity|].
  rewrite !filter_cons. destruct (decide (P1 x)) as [H1|H1].
  - rewrite decide_True by auto. by apply sublist_skip.
  - destruct (decide (P2 x)); [by apply sublist_cons|exact IH].
Qed.

(** X5: the threshold only selects rows.  Whether [get_GO_df] fails, and
    with which error, does not depend on [alpha_FDR]; and a larger threshold
    keeps every row a smaller one keeps, in the same order. *)
Theorem get_GO_df_threshold_monotone
    (graph : Graph) (srd : gmap string (list Q)) (nv : node_vectors)
    (geneoi : string) (N_gene_con : nat) (alpha1 alpha2 : Q) :
  alpha1 <= alpha2 ->
  match get_GO_df graph srd nv geneoi N_gene_con alpha1,
        get_GO_df graph srd nv geneoi N_gene_con alpha2 with
  | Ok rows1, Ok rows2 => rows1 `sublist_of` rows2
  | Raise e1, Raise e2 => e1 = e2
  | _, _ => False
  end.
Proof.
  intros Hle. rewrite !get_GO_df_selection.
  rewrite (scored_table_alpha graph srd nv geneoi N_gene_con alpha2 alpha1).
  destruct (scored_table graph srd nv geneoi N_gene_con alpha1) as [simdf|e];
    cbn [fmap result_fmap]; [|reflexivity].
  destruct (Qlt_bool alpha1 1) eqn:E1, (Qlt_bool alpha2 1) eqn:E2.
  - apply filter_sublist_impl. intros r Hr.
    apply Qlt_bool_iff. apply Qlt_bool_iff in Hr. eapply Qlt_le_trans; eassumption.
  - apply sublist_filter.
  - apply Qlt_bool_false_iff in E1. apply Qlt_bool_iff in E2.
    exfalso. apply (Qlt_not_le _ _ E2). eapply Qle_trans; eassumption.
  - reflexivity.
Qed.

(** Gene [A] of the example network at the thresholds [1/4] and [3/8]. *)
Lemma get_GO_df_threshold_monotone_witness :
  match get_GO_df Example.graph Example.srd Example.nv1 "A" 3 (1#4),
        get_GO_df Example.graph Example.srd Example.nv1 "A" 3 (3#8) with
  | Ok rows1, Ok rows2 => rows1 `sublist_of` rows2
  | Raise e1, Raise e2 => e1 = e2
  | _, _ => False
  end.
Proof.
  apply (get_GO_df_threshold_monotone Example.graph Example.srd Example.nv1 "A" 3).
  discriminate.
Defined.

(** X6: within one gene the q-values keep the order of the p-values: of two
    rows of the scored frame the one with the smaller p-value never has the
    larger q-value, and rows with equal p-values have equal q-values. *)
Theorem scored_table_padj_order
    (graph : Graph) (srd : gmap string (list Q)) (nv : node_vectors)
    (geneoi : string) (N_gene_con : nat) (alpha_FDR : Q)
    (simdf : list go_row) (r1 r2 : go_row) :
  scored_table graph srd nv geneoi N_gene_con alpha_FDR = Ok simdf ->
  r1 ∈ simdf -> r2 ∈ simdf ->
  (go_pval r1 <= go_pval r2 -> go_padj r1 <= go_padj r2) /\
  (go_pval r1 == go_pval r2 -> go_padj r1 == go_padj r2).
Proof.
  intros Hs Hr1 Hr2.
  destruct (scored_table_columns _ _ _ _ _ _ _ Hs) as (_ & _ & _ & _ & _ & Hq & Hunit).
  apply list_elem_of_lookup in Hr1 as [i Hi]. apply list_elem_of_lookup in Hr2 as [j Hj].
  assert (Hmono : forall (i j : nat) (r1 r2 : go_row),
             simdf !! i = Some r1 -> simdf !! j = Some r2 ->
             go_pval r1 <= go_pval r2 -> go_padj r1 <= go_padj r2).
  { clear i j r1 r2 Hi Hj. intros i j r1 r2 Hi Hj Hpp.
    apply (fdrcorrection_monotone (go_pval <$> simdf) ltac:(by apply Forall_fmap)
             alpha_FDR i j (go_pval r1) (go_pval r2)).
    - by rewrite list_lookup_fmap, Hi.
    - by rewrite list_lookup_fmap, Hj.
    - exact Hpp.
    - by rewrite <- Hq, list_lookup_fmap, Hi.
    - by rewrite <- Hq, list_lookup_fmap, Hj. }
  split.
  - apply (Hmono i j r1 r2 Hi Hj).
  - intros Heq. apply Qle_antisym.
    + apply (Hmono i j r1 r2 Hi Hj). rewrite Heq. apply Qle_refl.
    + apply (Hmono j i r2 r1 Hj Hi). rewrite Heq. apply Qle_refl.
Qed.

(** The two candidates of gene [A]. *)
Lemma scored_table_padj_order_witness :
  exists simdf r1 r2,
    scored_table Example.graph Example.srd Example.nv1 "A" 3 1 = Ok simdf /\
    simdf !! 0%nat = Some r1 /\ simdf !! 1%nat = Some r2 /\
    go_pval r1 <= go_pval r2 /\ go_padj r1 <= go_padj r2.
Proof.
  set (r1 := {| go_description := "alpha"; go_id := "GO:1"; go_N_con := 2;
                go_similarity := 15#16; go_pval := 1#8; go_padj := 2#8 |}).
  set (r2 := {| go_description := "beta"; go_id := "GO:2"; go_N_con := 1;
                go_similarity := 5#16; go_pval := 2#4; go_padj := 4#8 |}).
  assert (Hs : scored_table Example.graph Example.srd Example.nv1 "A" 3 1
               = Ok [r1; r2]) by (vm_compute; reflexivity).
  assert (Hp : go_pval r1 <= go_pval r2) by discriminate.
  exists [r1; r2], r1, r2. do 3 (split; [first [exact Hs|reflexivity]|]).
  split; [exact Hp|].
  apply (proj1 (scored_table_padj_order Example.graph Example.srd Example.nv1 "A" 3 1
                  [r1; r2] r1 r2 Hs ltac:(left) ltac:(right; left)) Hp).
Defined.

(** X7: no q-value of a gene exceeds the gene's largest p-value, so the
    candidate with the largest p-value keeps it as its q-value. *)
Theorem scored_table_padj_at_most_largest_pval
    (graph : Graph) (srd : gmap string (list Q)) (nv : node_vectors)
    (geneoi : string) (N_gene_con : nat) (alpha_FDR : Q)
    (simdf : list go_row) (rmax : go_row) :
  scored_table graph srd nv geneoi N_gene_con alpha_FDR = Ok simdf ->
  rmax ∈ simdf -> (forall r, r ∈ simdf -> go_pval r <= go_pval rmax) ->
  (forall r, r ∈ simdf -> go_padj r <= go_pval rmax) /\
  go_padj rmax == go_pval rmax.
Proof.
  intros Hs Hmax Hall.
  destruct (scored_table_columns _ _ _ _ _ _ _ Hs) as (_ & _ & _ & _ & _ & Hq & Hunit).
  assert (Hle : forall r, r ∈ simdf -> go_padj r <= go_pval rmax).
  { intros r Hr. apply list_elem_of_lookup in Hr as [i Hi].
    apply (fdrcorrection_le_bound (go_pval <$> simdf) alpha_FDR i).
    - intros p Hp. apply list_elem_of_fmap in Hp as (r' & -> & Hr'). by apply Hall.
    - by rewrite <- Hq, list_lookup_fmap, Hi. }
  split; [exact Hle|]. apply Qle_antisym; [by apply Hle|].
  pose proof (scored_table_padj_bounds _ _ _ _ _ _ _ Hs) as Hb.
  rewrite Forall_forall in Hb. apply (Hb rmax Hmax).
Qed.

(** The candidate [GO:2] of gene [A] has the largest p-value, [1/2]. *)
Lemma scored_table_padj_at_most_largest_pval_witness :
  exists simdf rmax,
    scored_table Example.graph Example.srd Example.nv1 "A" 3 1 = Ok simdf /\
    simdf !! 1%nat = Some rmax /\ go_pval rmax == 1#2 /\ go_padj rmax == go_pval rmax.
Proof.
  set (r1 := {| go_description := "alpha"; go_id := "GO:1"; go_N_con := 2;
                go_similarity := 15#16; go_pval := 1#8; go_padj := 2#8 |}).
  set (r2 := {| go_description := "beta"; go_id := "GO:2"; go_N_con := 1;
                go_similarity := 5#16; go_pval := 2#4; go_padj := 4#8 |}).
  assert (Hs : scored_table Example.graph Example.srd Example.nv1 "A" 3 1
               = Ok [r1; r2]) by (vm_compute; reflexivity).
  exists [r1; r2], r2. split; [exact Hs|]. do 2 (split; [reflexivity|]).
  apply (scored_table_padj_at_most_largest_pval
           Example.graph Example.srd Example.nv1 "A" 3 1 [r1; r2] r2 Hs).
  - right. left.
  - intros r Hr. apply list_elem_of_In in Hr. simpl in Hr.
    destruct Hr as [<-|[<-|[]]]; discriminate.
Defined.

(** ** The node loop: what a replicate's table holds *)

Section NodeLoop.
Variable graph : Graph.
Variable hgncid : list string.
Variable srd : gmap string (list Q).
Variable nv : node_vectors.
Variable alpha_FDR : Q.

Lemma score_node_cases (df : list rep_row) (n : string) :
  score_node graph hgncid srd nv alpha_FDR df n = Ok df \/
  (exists new, score_node graph hgncid srd nv alpha_FDR df n = Ok (df ++ new)%list /\
               Forall (row_of_node graph hgncid srd nv alpha_FDR n) new) \/
  score_node graph hgncid srd nv alpha_FDR df n = Raise ZeroDivisionError.
Proof.
  unfold score_node, getitem.
  destruct (g_node graph !! n) as [attrs|] eqn:Hattrs; cbn [mbind result_bind];
    [|by left].
  destruct (attrs !! "HGNC") as [hgnc|] eqn:Hhgnc; cbn [mbind result_bind]; [|by left].
  case_bool_decide as Hin; [|by left].
  destruct (g_adj graph !! n) as [nbrs|] eqn:Hadj; cbn [mbind result_bind]; [|by left].
  destruct (get_GO_df graph srd nv n (size nbrs) alpha_FDR) as [GOdf|[]] eqn:HGO;
    cbn; [|by left|by right; right].
  right. left. eexists. split; [reflexivity|].
  apply Forall_fmap, Forall_forall. intros g Hg.
  exists attrs, nbrs, GOdf, g. cbn. by repeat split.
Qed.

Lemma score_nodes_rows (g_view : list string) (df df' : list rep_row) :
  score_nodes graph hgncid srd nv alpha_FDR df g_view = Ok df' ->
  exists new, df' = (df ++ new)%list /\
              Forall (fun r => exists n, n ∈ g_view /\
                                         row_of_node graph hgncid srd nv alpha_FDR n r)
                     new.
Proof.
  revert df. induction g_view as [|n g_view IH]; intros df; cbn [score_nodes].
  - intros [= <-]. exists []. split; [by rewrite app_nil_r|constructor].
  - destruct (score_node_cases df n) as [E|[(new & E & Hnew)|E]]; rewrite E;
      cbn [mbind result_bind]; [| |discriminate].
    + intros Hrest. destruct (IH _ Hrest) as (new & -> & Hall).
      exists new. split; [reflexivity|].
      eapply Forall_impl; [exact Hall|]. intros r (m & Hm & Hr).
      exists m. split; [by right|exact Hr].
    + intros Hrest. destruct (IH _ Hrest) as (new' & -> & Hall).
      exists (new ++ new')%list. split; [by rewrite app_assoc|].
      apply Forall_app. split.
      * eapply Forall_impl; [exact Hnew|]. intros r Hr. exists n. split; [by left|exact Hr].
      * eapply Forall_impl; [exact Hall|]. intros r (m & Hm & Hr).
        exists m. split; [by right|exact Hr].
Qed.

(** X8: the loop body over a node never raises [KeyError], and it only
    appends: the table it returns is the table it got followed by rows of
    that node.  A node without [HGNC] attribute or with an identifier
    outside the gene list leaves the table as it is. *)
Theorem score_node_appends (df : list rep_row) (n : string) :
  score_node graph hgncid srd nv alpha_FDR df n <> Raise KeyError /\
  (forall df', score_node graph hgncid srd nv alpha_FDR df n = Ok df' ->
     exists new, df' = (df ++ new)%list /\
                 Forall (row_of_node graph hgncid srd nv alpha_FDR n) new) /\
  ((forall attrs hgnc, g_node graph !! n = Some attrs ->
      attrs !! "HGNC" = Some hgnc -> hgnc ∉ hgncid) ->
   score_node graph hgncid srd nv alpha_FDR df n = Ok df).
Proof.
  split; [|split].
  - destruct (score_node_cases df n) as [E|[(new & E & _)|E]]; rewrite E; discriminate.
  - intros df' Hdf'.
    destruct (score_node_cases df n) as [E|[(new & E & Hnew)|E]]; rewrite E in Hdf';
      [| |discriminate].
    + injection Hdf' as <-. exists []. split; [by rewrite app_nil_r|constructor].
    + injection Hdf' as <-. by exists new.
  - intros Hskip. unfold score_node, getitem.
    destruct (g_node graph !! n) as [attrs|] eqn:Hattrs; cbn [mbind result_bind];
      [|reflexivity].
    destruct (attrs !! "HGNC") as [hgnc|] eqn:Hhgnc; cbn [mbind result_bind];
      [|reflexivity].
    case_bool_decide as Hin; [|reflexivity].
    exfalso. by apply (Hskip attrs hgnc).
Qed.

(** X9: every row of a replicate's table is the row of a node of the
    network that is a listed gene, labelled with the node's name, its
    [HGNC] attribute and its degree, and carrying a row that [get_GO_df]
    returns for that node. *)
Theorem replicate_table_rows (df : list rep_row) (r : rep_row) :
  replicate_table graph hgncid srd nv alpha_FDR = Ok df -> r ∈ df ->
  exists n, n ∈ g_nodes graph /\ row_of_node graph hgncid srd nv alpha_FDR n r.
Proof.
  unfold replicate_table.
  destruct (score_nodes graph hgncid srd nv alpha_FDR [] (g_nodes graph)) as [df0|] eqn:Hs;
    cbn [mbind result_bind]; [|discriminate].
  intros [= <-] Hr. rewrite merge_sort_Permutation in Hr.
  destruct (score_nodes_rows _ _ _ Hs) as (new & -> & Hall).
  rewrite Forall_forall in Hall. by apply Hall.
Qed.
End NodeLoop.

(** Node [GO:1] carries no [HGNC] attribute; gene [B] adds its row. *)
Lemma score_node_appends_witness :
  score_node Example.graph Example.hgncid Example.srd Example.nv1 1 [] "GO:1" = Ok [] /\
  exists new,
    score_node Example.graph Example.hgncid Example.srd Example.nv1 1 [] "B" = Ok new /\
    Forall (row_of_node Example.graph Example.hgncid Example.srd Example.nv1 1 "B") new.
Proof.
  split.
  - apply (score_node_appends Example.graph Example.hgncid Example.srd Example.nv1 1
             [] "GO:1").
    intros attrs hgnc Hattrs Hhgnc. vm_compute in Hattrs. injection Hattrs as <-.
    vm_compute in Hhgnc. discriminate.
  - destruct (score_node Example.graph Example.hgncid Example.srd Example.nv1 1 [] "B")
      as [df'|e] eqn:E; [|vm_compute in E; discriminate].
    destruct (proj1 (proj2 (score_node_appends Example.graph Example.hgncid Example.srd
                              Example.nv1 1 [] "B")) df' E) as (new & -> & Hnew).
    exists new. split; [reflexivity|exact Hnew].
Defined.

(** The first replicate of the example network. *)
Lemma replicate_table_rows_witness :
  exists df r n,
    replicate_table Example.graph Example.hgncid Example.srd Example.nv1 1 = Ok df /\
    df !! 0%nat = Some r /\ n ∈ g_nodes Example.graph /\
    row_of_node Example.graph Example.hgncid Example.srd Example.nv1 1 n r.
Proof.
  destruct (replicate_table Example.graph Example.hgncid Example.srd Example.nv1 1)
    as [df|e] eqn:E; [|vm_compute in E; discriminate].
  destruct (df !! 0%nat) as [r|] eqn:Hr.
  2:{ vm_compute in E. injection E as <-. discriminate. }
  destruct (replicate_table_rows Example.graph Example.hgncid Example.srd Example.nv1 1
              df r E (list_elem_of_lookup_2 _ _ _ Hr)) as (n & Hn & Hrow).
  exists df, r, n. exact (conj eq_refl (conj Hr (conj Hn Hrow))).
Defined.

(** ** [generate_output]: which runs fail *)

Section RunOutcome.
Variable graph : Graph.
Variable hgncid : list string.
Variable srd : gmap string (list Q).

(** X10: a call of [generate_output] never returns.  Over no replicate
    it ends in [KeyError] (the table of replicate 1 is looked up) and
    leaves no table.  Over at least one replicate it never ends in
    [KeyError]; the building of the table can only fail with
    [ZeroDivisionError], and only when some bucket of the null
    distribution has an empty sample; when no bucket sample is empty the
    table is always built and stored, and the call then ends in the
    [NameError] of line 215.  A table is left behind exactly when the call
    ends in that [NameError]. *)
Theorem generate_output_outcome (nvs : list node_vectors) (alpha_FDR : Q) :
  (nvs = [] ->
   generate_output_call graph hgncid srd nvs alpha_FDR = (None, TableError KeyError)) /\
  (nvs <> [] ->
   (generate_output_call graph hgncid srd nvs alpha_FDR).2 <> TableError KeyError /\
   ((generate_output_call graph hgncid srd nvs alpha_FDR).2
    = TableError ZeroDivisionError -> exists k, srd !! k = Some [])) /\
  (nvs <> [] -> (forall k, srd !! k <> Some []) ->
   exists table,
     generate_output graph hgncid srd nvs alpha_FDR = Ok table /\
     generate_output_call graph hgncid srd nvs alpha_FDR = (Some table, NameError)) /\
  (forall table,
     (generate_output_call graph hgncid srd nvs alpha_FDR).1 = Some table <->
     generate_output_call graph hgncid srd nvs alpha_FDR = (Some table, NameError)).
Proof.
  unfold generate_output_call. split; [|split; [|split]].
  - by intros ->.
  - intros Hne.
    destruct (generate_output graph hgncid srd nvs alpha_FDR) as [table|e] eqn:Hgo;
      cbn [snd]; [split; discriminate|].
    destruct (generate_output_error graph hgncid srd nvs alpha_FDR e Hne Hgo)
      as [-> Hk].
    split; [discriminate|]. by intros _.
  - intros Hne Hsamples.
    destruct (generate_output graph hgncid srd nvs alpha_FDR) as [table|e] eqn:Hgo;
      [by exists table|].
    destruct (generate_output_error graph hgncid srd nvs alpha_FDR e Hne Hgo)
      as [_ [k Hk]].
    destruct (Hsamples k Hk).
  - intros table.
    destruct (generate_output graph hgncid srd nvs alpha_FDR) as [table'|e];
      cbn [fst]; split; congruence.
Qed.
End RunOutcome.

(** The example network with one replicate: the table is built and the
    call ends in [NameError]. *)
Lemma generate_output_outcome_witness :
  exists table,
    generate_output Example.graph Example.hgncid Example.srd [Example.nv1] 1
    = Ok table /\
    generate_output_call Example.graph Example.hgncid Example.srd [Example.nv1] 1
    = (Some table, NameError).
Proof.
  apply (generate_output_outcome Example.graph Example.hgncid Example.srd
           [Example.nv1] 1).
  - discriminate.
  - intros k Hk.
    assert (Hin : k ∈ dom Example.srd) by (apply elem_of_dom; by eexists).
    assert (Hdom : dom Example.srd = {[ "d0.0"; "d1.0" ]}) by (vm_compute; reflexivity).
    rewrite Hdom in Hin. apply elem_of_union in Hin as [Hin|Hin];
      apply elem_of_singleton in Hin; subst k; vm_compute in Hk; discriminate.
Defined.

(** ** [generate_output]: the mean columns *)

Lemma foldl_Qplus (a : Q) (l : list Q) : foldl Qplus a l == a + Qsum l.
Proof.
  unfold Qsum. revert a. induction l as [|x l IH]; intros a; cbn [foldl].
  - ring.
  - rewrite (IH (a + x)), (IH (0 + x)). ring.
Qed.

Lemma Qsum_cons (x : Q) (l : list Q) : Qsum (x :: l) == x + Qsum l.
Proof. unfold Qsum at 1. cbn [foldl]. rewrite foldl_Qplus. ring. Qed.

Lemma inject_length_cons {A} (x : A) (l : list A) :
  inject_Z (Z.of_nat (length (x :: l))) == 1 + inject_Z (Z.of_nat (length l)).
Proof.
  cbn [length]. rewrite Nat2Z.inj_succ. unfold Z.succ. rewrite inject_Z_plus. ring.
Qed.


Lemma Qsum_fmap_lower {A} (f : A -> Q) (lo : Q) (l : list A) :
  Forall (fun x => lo <= f x) l ->
  inject_Z (Z.of_nat (length l)) * lo <= Qsum (f <$> l).
Proof.
  induction 1 as [|x l Hx _ IH]; [change (0 * lo <= 0); lra|].
  rewrite fmap_cons, Qsum_cons, inject_length_cons. lra.
Qed.





Section MeanColumns.
Variable graph : Graph.
Variable hgncid : list string.
Variable srd : gmap string (list Q).
Variable alpha_FDR : Q.


Lemma replicate_tables_Forall2 (reps : list node_vectors) (dfs : list (list rep_row)) :
  replicate_tables graph hgncid srd reps alpha_FDR = Ok dfs ->
  Forall2 (fun nv df => replicate_table graph hgncid srd nv alpha_FDR = Ok df) reps dfs.
Proof.
  revert dfs. induction reps as [|nv reps IH]; intros dfs; cbn [replicate_tables].
  - intros [= <-]. constructor.
  - destruct (replicate_table graph hgncid srd nv alpha_FDR) as [df|] eqn:Hdf;
      cbn [mbind result_bind]; [|discriminate].
    destruct (replicate_tables graph hgncid srd reps alpha_FDR) as [dfs'|];
      cbn [mbind result_bind]; [|discriminate].
    intros [= <-]. constructor; [exact Hdf|by apply IH].
Qed.



End MeanColumns.


(** ** [generate_output]: the pairs of the final table *)

Lemma merge_outer_keys (k : nat) (left : list merged_row) (right : list rep_row)
    (key : row_key) :
  key ∈ m_key <$> merge_outer k left right <->
  key ∈ m_key <$> left \/ key ∈ rr_key <$> right.
Proof.
  unfold merge_outer. rewrite fmap_app, elem_of_app. split.
  - intros [Hin|Hin].
    + left. apply list_elem_of_fmap in Hin as (m & -> & Hm).
      apply list_elem_of_bind in Hm as (l & Hm & Hl).
      apply list_elem_of_fmap. exists l. split; [|exact Hl].
      destruct (filter (fun r => rr_key r = m_key l) right) as [|r0 ms].
      * apply list_elem_of_singleton in Hm. by subst m.
      * apply list_elem_of_fmap in Hm as (r & -> & _). reflexivity.
    + right. rewrite <- list_fmap_compose in Hin.
      apply list_elem_of_fmap in Hin as (r & -> & Hr).
      apply list_elem_of_filter in Hr as [_ Hr].
      apply list_elem_of_fmap. by exists r.
  - assert (Hleft : key ∈ m_key <$> left ->
              key ∈ m_key <$> (l ← left;
                 match filter (fun r => rr_key r = m_key l) right with
                 | [] => [ {| m_key := m_key l; m_reps := (m_reps l ++ [None])%list |} ]
                 | ms => (fun r => {| m_key := m_key l;
                                      m_reps := (m_reps l ++ [Some (rr_vals r)])%list |})
                         <$> ms
                 end)).
    { intros Hin. apply list_elem_of_fmap in Hin as (l & -> & Hl).
      destruct (filter (fun r => rr_key r = m_key l) right) as [|r0 ms] eqn:Hf.
      - apply list_elem_of_fmap.
        exists {| m_key := m_key l; m_reps := (m_reps l ++ [None])%list |}.
        split; [reflexivity|]. apply list_elem_of_bind. exists l.
        split; [|exact Hl]. rewrite Hf. by left.
      - apply list_elem_of_fmap.
        exists {| m_key := m_key l; m_reps := (m_reps l ++ [Some (rr_vals r0)])%list |}.
        split; [reflexivity|]. apply list_elem_of_bind. exists l.
        split; [|exact Hl]. rewrite Hf. by left. }
    intros [Hin|Hin]; [left; by apply Hleft|].
    destruct (decide (key ∈ m_key <$> left)) as [Hl|Hnl]; [left; by apply Hleft|].
    right. apply list_elem_of_fmap in Hin as (r & -> & Hr).
    rewrite <- list_fmap_compose. apply list_elem_of_fmap. exists r.
    split; [reflexivity|]. apply list_elem_of_filter. by split.
Qed.

Lemma merge_loop_keys (rest : list (list rep_row)) (k0 : nat) (acc : list merged_row)
    (key : row_key) :
  key ∈ m_key <$> foldl (fun acc (kdf : nat * list rep_row) =>
                           merge_outer kdf.1 acc kdf.2) acc
                        (zip (seq k0 (length rest)) rest) <->
  key ∈ m_key <$> acc \/ exists df, df ∈ rest /\ key ∈ rr_key <$> df.
Proof.
  revert k0 acc. induction rest as [|df rest IH]; intros k0 acc; cbn.
  - split; [by left|]. intros [H|(df & Hdf & _)]; [exact H|].
    by apply elem_of_nil in Hdf.
  - rewrite IH, merge_outer_keys. split.
    + intros [[H|H]|(df' & Hdf' & H)].
      * by left.
      * right. exists df. split; [by left|exact H].
      * right. exists df'. split; [by right|exact H].
    + intros [H|(df' & Hdf' & H)]; [left; by left|].
      apply elem_of_cons in Hdf' as [->|Hdf'].
      * left. by right.
      * right. by exists df'.
Qed.

Lemma merge_all_keys (df1 : list rep_row) (rest : list (list rep_row)) (key : row_key) :
  key ∈ m_key <$> merge_all df1 rest <->
  exists df, df ∈ df1 :: rest /\ key ∈ rr_key <$> df.
Proof.
  unfold merge_all. rewrite merge_loop_keys, <- list_fmap_compose. split.
  - intros [H|(df & Hdf & H)].
    + exists df1. split; [by left|exact H].
    + exists df. split; [by right|exact H].
  - intros (df & Hdf & H). apply elem_of_cons in Hdf as [->|Hdf].
    + left. exact H.
    + right. by exists df.
Qed.

(** X12: the outer merge loses no pair and invents none: a key (HGNC,
    Symbol, GO description, GO:ID and the two degrees) labels a row of the
    final table exactly when a row of some replicate's table has it. *)
Theorem generate_output_keys (graph : Graph) (hgncid : list string)
    (srd : gmap string (list Q)) (nvs : list node_vectors) (alpha_FDR : Q)
    (rows : list out_row) (key : row_key) :
  generate_output graph hgncid srd nvs alpha_FDR = Ok rows ->
  (key ∈ o_key <$> rows <->
   exists nv df, nv ∈ nvs /\
     replicate_table graph hgncid srd nv alpha_FDR = Ok df /\ key ∈ rr_key <$> df).
Proof.
  intros Hgo. apply generate_output_Ok in Hgo as (df1 & rest & Hrt & ->).
  apply replicate_tables_Forall2 in Hrt.
  assert (Hkeys : key ∈ o_key <$> (w_out <$> merge_sort
                     (cmp_le (wide_compare (unique hgncid)))
                     (aggregate nvs <$> merge_all df1 rest)) <->
                  key ∈ m_key <$> merge_all df1 rest).
  { rewrite <- list_fmap_compose, merge_sort_Permutation, <- list_fmap_compose.
    reflexivity. }
  rewrite Hkeys, merge_all_keys. split.
  - intros (df & Hdf & Hkey). apply list_elem_of_lookup in Hdf as [k Hk].
    destruct (Forall2_lookup_r _ _ _ _ _ Hrt Hk) as (nv & Hnv & Htab).
    exists nv, df. split; [exact (list_elem_of_lookup_2 _ _ _ Hnv)|]. by split.
  - intros (nv & df & Hnv & Htab & Hkey). apply list_elem_of_lookup in Hnv as [k Hk].
    destruct (Forall2_lookup_l _ _ _ _ _ Hrt Hk) as (df' & Hdf' & Htab').
    rewrite Htab in Htab'. injection Htab' as <-.
    exists df. split; [exact (list_elem_of_lookup_2 _ _ _ Hdf')|exact Hkey].
Qed.

(** The pair (A, GO:1) passes the threshold [3/8] in the first replicate
    only and is in the final table. *)
Lemma generate_output_keys_witness :
  exists rows key,
    generate_output Example.graph Example.hgncid Example.srd
      [Example.nv1; Example.nv2] (3#8) = Ok rows /\
    k_Symbol key = "A" /\ k_GO_ID key = "GO:1" /\ key ∈ o_key <$> rows.
Proof.
  destruct (generate_output Example.graph Example.hgncid Example.srd
              [Example.nv1; Example.nv2] (3#8)) as [rows|e] eqn:E;
    [|vm_compute in E; discriminate].
  set (key := {| k_HGNC := "G1"; k_Symbol := "A"; k_GO_description := "alpha";
                 k_GO_ID := "GO:1"; k_N_con_gene := 3; k_N_con_GO := 2 |}).
  set (df := match replicate_table Example.graph Example.hgncid Example.srd
                     Example.nv1 (3#8) with Ok df => df | Raise _ => [] end).
  assert (Hdf : replicate_table Example.graph Example.hgncid Example.srd
                  Example.nv1 (3#8) = Ok df) by (vm_compute; reflexivity).
  exists rows, key. split; [reflexivity|]. do 2 (split; [reflexivity|]).
  apply (generate_output_keys Example.graph Example.hgncid Example.srd
           [Example.nv1; Example.nv2] (3#8) rows key E).
  exists Example.nv1, df. split; [left|]. split; [exact Hdf|].
  apply list_elem_of_fmap.
  exists {| rr_key := key;
            rr_vals := {| v_similarity := 15#16; v_pval := 1#8; v_padj := 2#8 |} |}.
  split; [reflexivity|].
  apply (list_elem_of_lookup_2 _ 0%nat). vm_compute. reflexivity.
Defined.

(** ** [generate_output]: one row per pair *)

Lemma NoDup_fmap_filter {A B} (f : A -> B) (P : A -> Prop)
    `{!forall x, Decision (P x)} (l : list A) :
  NoDup (f <$> l) -> NoDup (f <$> filter P l).
Proof.
  intros Hl. apply (sublist_NoDup _ _ Hl), fmap_sublist, sublist_filter.
Qed.

(** With distinct keys on the right, a left row matches at most one row. *)
Lemma filter_key_unique (right : list rep_row) (key : row_key)
    (r0 : rep_row) (ms : list rep_row) :
  NoDup (rr_key <$> right) ->
  filter (fun r => rr_key r = key) right = r0 :: ms -> ms = [].
Proof.
  intros Hright Hf.
  pose proof (NoDup_fmap_filter rr_key (fun r => rr_key r = key) right Hright) as Hnd.
  assert (Hall : Forall (fun r => rr_key r = key) (r0 :: ms)).
  { rewrite <- Hf. apply Forall_forall. intros r Hr.
    by apply list_elem_of_filter in Hr as [Hr _]. }
  rewrite Hf in Hnd. destruct ms as [|r1 ms]; [reflexivity|].
  apply Forall_cons in Hall as [H0 Hall]. apply Forall_cons in Hall as [H1 _].
  rewrite !fmap_cons, H0, H1 in Hnd. apply NoDup_cons in Hnd as [Hnd _].
  exfalso. apply Hnd. by left.
Qed.

Lemma merge_outer_matched_keys (left : list merged_row) (right : list rep_row) :
  NoDup (rr_key <$> right) ->
  m_key <$> (l ← left;
     match filter (fun r => rr_key r = m_key l) right with
     | [] => [ {| m_key := m_key l; m_reps := (m_reps l ++ [None])%list |} ]
     | ms => (fun r => {| m_key := m_key l;
                          m_reps := (m_reps l ++ [Some (rr_vals r)])%list |}) <$> ms
     end)
  = m_key <$> left.
Proof.
  intros Hright. induction left as [|l left IH]; [reflexivity|].
  rewrite bind_cons, fmap_app, IH, fmap_cons.
  destruct (filter (fun r => rr_key r = m_key l) right) as [|r0 ms] eqn:Hf;
    [reflexivity|].
  by rewrite (filter_key_unique right (m_key l) r0 ms Hright Hf).
Qed.

Lemma merge_outer_NoDup (k : nat) (left : list merged_row) (right : list rep_row) :
  NoDup (m_key <$> left) -> NoDup (rr_key <$> right) ->
  NoDup (m_key <$> merge_outer k left right).
Proof.
  intros Hleft Hright. unfold merge_outer.
  rewrite fmap_app, (merge_outer_matched_keys left right Hright), <- list_fmap_compose.
  apply NoDup_app. split; [exact Hleft|]. split.
  - intros key Hkey Hin. apply list_elem_of_fmap in Hin as (r & -> & Hr).
    by apply list_elem_of_filter in Hr as [Hr _].
  - apply (NoDup_fmap_filter rr_key (fun r => rr_key r ∉ m_key <$> left) right Hright).
Qed.

Lemma merge_loop_NoDup (rest : list (list rep_row)) (k0 : nat) (acc : list merged_row) :
  NoDup (m_key <$> acc) -> Forall (fun df => NoDup (rr_key <$> df)) rest ->
  NoDup (m_key <$> foldl (fun acc (kdf : nat * list rep_row) =>
                            merge_outer kdf.1 acc kdf.2) acc
                         (zip (seq k0 (length rest)) rest)).
Proof.
  revert k0 acc. induction rest as [|df rest IH]; intros k0 acc Hacc Hrest; cbn.
  - exact Hacc.
  - apply Forall_cons in Hrest as [Hdf Hrest].
    apply IH; [|exact Hrest]. by apply merge_outer_NoDup.
Qed.

Section OneRowPerPair.
Variable graph : Graph.
Variable hgncid : list string.
Variable srd : gmap string (list Q).
Variable alpha_FDR : Q.

Lemma get_GO_df_NoDup (nv : node_vectors) (geneoi : string) (N_gene_con : nat)
    (GOdf : list go_row) :
  (forall ranking, nv !! geneoi = Some ranking -> NoDup ranking.*1) ->
  get_GO_df graph srd nv geneoi N_gene_con alpha_FDR = Ok GOdf ->
  NoDup (go_id <$> GOdf).
Proof.
  intros Hnv. rewrite get_GO_df_selection.
  destruct (scored_table graph srd nv geneoi N_gene_con alpha_FDR) as [simdf|] eqn:Hs;
    cbn; [|discriminate].
  intros [= <-].
  apply scored_table_columns in Hs as (nbrs & ranking & _ & Hrank & Hids & _).
  assert (Hsim : NoDup (go_id <$> simdf)).
  { rewrite Hids. unfold candidates. apply NoDup_fmap_filter, Hnv, Hrank. }
  destruct (Qlt_bool alpha_FDR 1); [|exact Hsim].
  by apply NoDup_fmap_filter.
Qed.

Lemma score_node_NoDup (nv : node_vectors) (df df' : list rep_row) (n : string) :
  (forall ranking, nv !! n = Some ranking -> NoDup ranking.*1) ->
  NoDup (rr_key <$> df) ->
  (forall r, r ∈ df -> k_Symbol (rr_key r) <> n) ->
  score_node graph hgncid srd nv alpha_FDR df n = Ok df' ->
  NoDup (rr_key <$> df') /\
  (forall r, r ∈ df' -> r ∈ df \/ k_Symbol (rr_key r) = n).
Proof.
  intros Hnv Hdf Hother. unfold score_node, getitem.
  assert (Hsame : NoDup (rr_key <$> df) /\
                  (forall r, r ∈ df -> r ∈ df \/ k_Symbol (rr_key r) = n))
    by (split; [exact Hdf|intros r Hr; by left]).
  destruct (g_node graph !! n) as [attrs|]; cbn [mbind result_bind];
    [|by intros [= <-]].
  destruct (attrs !! "HGNC") as [hgnc|]; cbn [mbind result_bind]; [|by intros [= <-]].
  case_bool_decide; [|by intros [= <-]].
  destruct (g_adj graph !! n) as [nbrs|]; cbn [mbind result_bind]; [|by intros [= <-]].
  destruct (get_GO_df graph srd nv n (size nbrs) alpha_FDR) as [GOdf|[]] eqn:HGO;
    cbn; [|by intros [= <-]|discriminate].
  intros [= <-]. pose proof (get_GO_df_NoDup nv n (size nbrs) GOdf Hnv HGO) as Hids.
  split.
  - rewrite fmap_app. apply NoDup_app. split; [exact Hdf|]. split.
    + intros key Hkey Hin. apply list_elem_of_fmap in Hkey as (r & -> & Hr).
      rewrite <- list_fmap_compose in Hin.
      apply list_elem_of_fmap in Hin as (g & Hg & _).
      apply (Hother r Hr). by rewrite Hg.
    + rewrite <- list_fmap_compose.
      apply (NoDup_fmap_1 k_GO_ID). by rewrite <- list_fmap_compose.
  - intros r Hr. apply elem_of_app in Hr as [Hr|Hr]; [by left|right].
    by apply list_elem_of_fmap in Hr as (g & -> & _).
Qed.

Lemma score_nodes_NoDup (nv : node_vectors) (g_view : list string)
    (df df' : list rep_row) :
  (forall n ranking, nv !! n = Some ranking -> NoDup ranking.*1) ->
  NoDup g_view -> NoDup (rr_key <$> df) ->
  (forall r, r ∈ df -> k_Symbol (rr_key r) ∉ g_view) ->
  score_nodes graph hgncid srd nv alpha_FDR df g_view = Ok df' ->
  NoDup (rr_key <$> df').
Proof.
  intros Hnv. revert df.
  induction g_view as [|n g_view IH]; intros df Hview Hdf Hother; cbn [score_nodes].
  - by intros [= <-].
  - apply NoDup_cons in Hview as [Hn Hview].
    destruct (score_node graph hgncid srd nv alpha_FDR df n) as [df1|] eqn:Hs;
      cbn [mbind result_bind]; [|discriminate].
    destruct (score_node_NoDup nv df df1 n (Hnv n) Hdf) as [Hdf1 Hrows]; [|exact Hs|].
    { intros r Hr Heq. apply (Hother r Hr). rewrite Heq. by left. }
    apply IH; [exact Hview|exact Hdf1|].
    intros r Hr Hin. destruct (Hrows r Hr) as [Hold|Hnew].
    + apply (Hother r Hold). by right.
    + apply Hn. by rewrite <- Hnew.
Qed.

Lemma replicate_table_NoDup (nv : node_vectors) (df : list rep_row) :
  (forall n ranking, nv !! n = Some ranking -> NoDup ranking.*1) ->
  NoDup (g_nodes graph) ->
  replicate_table graph hgncid srd nv alpha_FDR = Ok df -> NoDup (rr_key <$> df).
Proof.
  intros Hnv Hnodes. unfold replicate_table.
  destruct (score_nodes graph hgncid srd nv alpha_FDR [] (g_nodes graph)) as [df0|] eqn:Hs;
    cbn [mbind result_bind]; [|discriminate].
  intros [= <-]. rewrite merge_sort_Permutation.
  apply (score_nodes_NoDup nv (g_nodes graph) [] df0 Hnv Hnodes); [constructor| |exact Hs].
  intros r Hr. by apply elem_of_nil in Hr.
Qed.

(** X13: when the nodes of the network are distinct and every ranking of
    an embedding lists each node once, the final table has one row per
    pair: no two of its rows carry the same key. *)
Theorem generate_output_one_row_per_pair (nvs : list node_vectors)
    (rows : list out_row) :
  NoDup (g_nodes graph) ->
  (forall nv n ranking, nv ∈ nvs -> nv !! n = Some ranking -> NoDup ranking.*1) ->
  generate_output graph hgncid srd nvs alpha_FDR = Ok rows ->
  NoDup (o_key <$> rows).
Proof.
  intros Hnodes Hnvs Hgo. apply generate_output_Ok in Hgo as (df1 & rest & Hrt & ->).
  apply replicate_tables_Forall2 in Hrt.
  assert (Hall : Forall (fun df => NoDup (rr_key <$> df)) (df1 :: rest)).
  { apply Forall_lookup_2. intros k df Hk.
    destruct (Forall2_lookup_r _ _ _ _ _ Hrt Hk) as (nv & Hnv & Htab).
    apply (replicate_table_NoDup nv df); [|exact Hnodes|exact Htab].
    intros n ranking. apply (Hnvs nv), (list_elem_of_lookup_2 _ _ _ Hnv). }
  apply Forall_cons in Hall as [Hdf1 Hrest].
  rewrite <- list_fmap_compose, merge_sort_Permutation, <- list_fmap_compose.
  change (NoDup (m_key <$> merge_all df1 rest)). unfold merge_all.
  apply merge_loop_NoDup; [|exact Hrest]. by rewrite <- list_fmap_compose.
Qed.
End OneRowPerPair.

(** Two replicates of the example network. *)
Lemma generate_output_one_row_per_pair_witness :
  exists rows,
    generate_output Example.graph Example.hgncid Example.srd
      [Example.nv1; Example.nv2] 1 = Ok rows /\
    NoDup (o_key <$> rows).
Proof.
  destruct (generate_output Example.graph Example.hgncid Example.srd
              [Example.nv1; Example.nv2] 1) as [rows|e] eqn:E;
    [|vm_compute in E; discriminate].
  exists rows. split; [reflexivity|].
  apply (generate_output_one_row_per_pair Example.graph Example.hgncid Example.srd 1
           [Example.nv1; Example.nv2] rows); [| |exact E].
  - apply (bool_decide_unpack (NoDup (g_nodes Example.graph))). vm_compute. reflexivity.
  - intros nv n ranking Hnv Hn.
    assert (Hdom : n ∈ ["A"; "B"]).
    { assert (Hd : dom nv = {[ "A"; "B" ]}).
      { apply elem_of_cons in Hnv as [->|Hnv]; [vm_compute; reflexivity|].
        apply list_elem_of_singleton in Hnv as ->. vm_compute. reflexivity. }
      assert (Hin : n ∈ dom nv) by (apply elem_of_dom; by eexists).
      rewrite Hd in Hin. apply elem_of_union in Hin as [Hin|Hin];
        apply elem_of_singleton in Hin; subst n; [by left|right; by left]. }
    apply elem_of_cons in Hnv as [->|Hnv];
      [|apply list_elem_of_singleton in Hnv as ->];
      (apply elem_of_cons in Hdom as [->|Hdom];
       [|apply list_elem_of_singleton in Hdom as ->]);
      vm_compute in Hn; injection Hn as <-;
      (match goal with |- ?P => apply (bool_decide_unpack P) end);
      vm_compute; reflexivity.
Defined.

(** ** [generate_output]: which replicates a mean runs over *)

Lemma slot_of_present (key : row_key) (dfs : list (list rep_row))
    (slots : list (option rep_vals)) :
  Forall2 (slot_of key) dfs slots ->
  Forall2 (fun df v => {| rr_key := key; rr_vals := v |} ∈ df)
          (holders key dfs) (present slots).
Proof.
  unfold holders, present.
  induction 1 as [|df o dfs slots Hslot _ IH]; [constructor|].
  rewrite filter_cons. destruct o as [v|]; cbn in *.
  - rewrite decide_True.
    + by constructor.
    + apply list_elem_of_fmap. by eexists; split; [|exact Hslot].
  - by rewrite decide_False.
Qed.

Lemma merge_outer_slots (dfs : list (list rep_row)) (df : list rep_row)
    (ms : list merged_row) :
  (forall df' key, df' ∈ dfs -> key ∈ rr_key <$> df' -> key ∈ m_key <$> ms) ->
  Forall (fun m => Forall2 (slot_of (m_key m)) dfs (m_reps m)) ms ->
  Forall (fun m => Forall2 (slot_of (m_key m)) (dfs ++ [df])%list (m_reps m))
         (merge_outer (length dfs) ms df).
Proof.
  intros Hcover Hms. unfold merge_outer. apply Forall_app. split.
  - apply Forall_bind, Forall_forall. intros l Hl.
    rewrite Forall_forall in Hms. specialize (Hms l Hl). unfold compose.
    destruct (filter (fun r => rr_key r = m_key l) df) as [|r0 matches] eqn:Hf.
    + apply Forall_singleton. cbn. apply Forall2_app; [exact Hms|].
      apply Forall2_cons_2; [|constructor]. cbn. intros Hin.
      apply list_elem_of_fmap in Hin as (r & Hkey & Hr).
      eapply (filter_nil_not_elem_of _ _ r Hf); [by symmetry|exact Hr].
    + rewrite <- Hf. apply Forall_fmap, Forall_forall. intros r Hr.
      apply list_elem_of_filter in Hr as [Hkey Hr]. cbn.
      apply Forall2_app; [exact Hms|]. apply Forall2_cons_2; [|constructor].
      cbn. rewrite <- Hkey. by destruct r as [? ?].
  - apply Forall_fmap, Forall_forall. intros r Hr.
    apply list_elem_of_filter in Hr as [Hnew Hr]. cbn.
    apply Forall2_app.
    + apply Forall2_replicate_r; [reflexivity|].
      apply Forall_forall. intros df' Hdf' Hin. cbn in Hin.
      apply Hnew. by apply (Hcover df').
    + apply Forall2_cons_2; [|constructor]. cbn. by destruct r as [? ?].
Qed.

Lemma merge_loop_slots (rest dfs : list (list rep_row)) (acc : list merged_row) :
  (forall key, key ∈ m_key <$> acc <-> exists df', df' ∈ dfs /\ key ∈ rr_key <$> df') ->
  Forall (fun m => Forall2 (slot_of (m_key m)) dfs (m_reps m)) acc ->
  Forall (fun m => Forall2 (slot_of (m_key m)) (dfs ++ rest)%list (m_reps m))
    (foldl (fun acc (kdf : nat * list rep_row) => merge_outer kdf.1 acc kdf.2) acc
           (zip (seq (length dfs) (length rest)) rest)).
Proof.
  revert dfs acc. induction rest as [|df rest IH]; intros dfs acc Hkeys Hacc; simpl.
  - by rewrite app_nil_r.
  - specialize (IH (dfs ++ [df])%list (merge_outer (length dfs) acc df)).
    rewrite length_app in IH. simpl in IH.
    replace (length dfs + 1)%nat with (S (length dfs)) in IH by lia.
    rewrite <- app_assoc in IH. apply IH.
    + intros key. rewrite merge_outer_keys, Hkeys. split.
      * intros [(df' & Hdf' & Hin)|Hin].
        -- exists df'. split; [apply elem_of_app; by left|exact Hin].
        -- exists df. split; [apply elem_of_app; right; by left|exact Hin].
      * intros (df' & Hdf' & Hin). apply elem_of_app in Hdf' as [Hdf'|Hdf'].
        -- left. by exists df'.
        -- apply list_elem_of_singleton in Hdf' as ->. by right.
    + apply merge_outer_slots; [|exact Hacc].
      intros df' key Hdf' Hin. apply Hkeys. by exists df'.
Qed.

Lemma merge_all_slots (df1 : list rep_row) (rest : list (list rep_row)) :
  Forall (fun m => Forall2 (slot_of (m_key m)) (df1 :: rest) (m_reps m))
         (merge_all df1 rest).
Proof.
  unfold merge_all. apply (merge_loop_slots rest [df1]).
  - intros key. rewrite <- list_fmap_compose. split.
    + intros Hin. exists df1. split; [by left|exact Hin].
    + intros (df' & Hdf' & Hin). by apply list_elem_of_singleton in Hdf' as ->.
  - apply Forall_fmap, Forall_forall. intros r Hr. cbn.
    apply Forall2_cons_2; [|constructor]. cbn. by destruct r as [? ?].
Qed.

(** X14: no replicate that holds a pair is left out of its means.  For
    every row of the final table there is one triple of values per
    replicate table that has a row with the row's key, taken from such a
    row, in the order of the replicates; each mean column is the sum of
    its component over these triples divided by their number. *)
Theorem generate_output_means_over_holders (graph : Graph) (hgncid : list string)
    (srd : gmap string (list Q)) (nvs : list node_vectors) (alpha_FDR : Q)
    (rows : list out_row) (r : out_row) :
  generate_output graph hgncid srd nvs alpha_FDR = Ok rows -> r ∈ rows ->
  exists outdfs vals,
    replicate_tables graph hgncid srd nvs alpha_FDR = Ok outdfs /\
    Forall2 (fun df v => {| rr_key := o_key r; rr_vals := v |} ∈ df)
            (holders (o_key r) outdfs) vals /\
    vals <> [] /\
    let n := inject_Z (Z.of_nat (length vals)) in
    o_mean_sim r = Some (Qsum (v_similarity <$> vals) / n) /\
    o_mean_pval r = Some (Qsum (v_pval <$> vals) / n) /\
    o_mean_padj r = Some (Qsum (v_padj <$> vals) / n).
Proof.
  intros Hgo Hr. apply generate_output_Ok in Hgo as (df1 & rest & Hrt & ->).
  apply list_elem_of_fmap in Hr as (w & -> & Hw).
  rewrite merge_sort_Permutation in Hw.
  apply list_elem_of_fmap in Hw as (m & -> & Hm).
  pose proof (merge_all_slots df1 rest) as Hslots.
  pose proof (merge_all_from df1 rest) as Hfrom.
  rewrite Forall_forall in Hslots, Hfrom.
  specialize (Hslots m Hm). destruct (Hfrom m Hm) as (_ & _ & k0 & v0 & Hk0).
  pose proof (present_nonempty _ _ _ Hk0) as Hne.
  exists (df1 :: rest), (present (m_reps m)). split; [exact Hrt|].
  split; [exact (slot_of_present _ _ _ Hslots)|]. split; [exact Hne|].
  cbn [w_out aggregate o_mean_sim o_mean_pval o_mean_padj].
  rewrite !nanmean_present
    by (rewrite present_column; intros Hnil; apply fmap_nil_inv in Hnil;
        exact (Hne Hnil)).
  rewrite !present_column, !length_fmap. by repeat split.
Qed.

(** The pair (A, GO:1) passes the threshold [3/8] in the first of two
    replicates only: its means run over one triple. *)
Lemma generate_output_means_over_holders_witness :
  exists rows r outdfs vals,
    generate_output Example.graph Example.hgncid Example.srd
      [Example.nv1; Example.nv2] (3#8) = Ok rows /\
    rows !! 0%nat = Some r /\
    replicate_tables Example.graph Example.hgncid Example.srd
      [Example.nv1; Example.nv2] (3#8) = Ok outdfs /\
    Forall2 (fun df v => {| rr_key := o_key r; rr_vals := v |} ∈ df)
            (holders (o_key r) outdfs) vals /\
    o_mean_padj r = Some (Qsum (v_padj <$> vals) / inject_Z (Z.of_nat (length vals))).
Proof.
  destruct (generate_output Example.graph Example.hgncid Example.srd
              [Example.nv1; Example.nv2] (3#8)) as [rows|e] eqn:E;
    [|vm_compute in E; discriminate].
  destruct (rows !! 0%nat) as [r|] eqn:Hr.
  2:{ vm_compute in E. injection E as <-. discriminate. }
  destruct (generate_output_means_over_holders Example.graph Example.hgncid Example.srd
              [Example.nv1; Example.nv2] (3#8) rows r E (list_elem_of_lookup_2 _ _ _ Hr))
    as (outdfs & vals & Hrt & Hvals & _ & _ & _ & Hpadj).
  exists rows, r, outdfs, vals.
  exact (conj eq_refl (conj Hr (conj Hrt (conj Hvals Hpadj)))).
Defined.

(** * [make_indra_sif.py]: the gene list and the row filter *)

(** ** [str.split] and [str.strip] *)

Lemma str_split_nonempty (sep : ascii) (s : string) : str_split sep s <> [].
Proof.
  destruct s as [|a s]; cbn [str_split]; [discriminate|].
  destruct (decide (a = sep)); [discriminate|].
  destruct (str_split sep s); discriminate.
Qed.

Lemma str_split_no_sep (sep : ascii) (s : string) :
  contains sep s = false -> str_split sep s = [s].
Proof.
  induction s as [|a s IH]; cbn [str_split contains]; [reflexivity|].
  intros H. apply orb_false_elim in H as [Ha Hs].
  apply bool_decide_eq_false in Ha. destruct (decide (a = sep)); [contradiction|].
  by rewrite (IH Hs).
Qed.

Lemma str_split_app (sep : ascii) (p q : string) :
  contains sep p = false ->
  str_split sep (p +:+ String sep q) = p :: str_split sep q.
Proof.
  induction p as [|a p IH].
  - intros _. change ("" +:+ String sep q) with (String sep q). cbn [str_split].
    destruct (decide (sep = sep)); [reflexivity|contradiction].
  - change (String a p +:+ String sep q) with (String a (p +:+ String sep q)).
    cbn [str_split contains].
    intros H. apply orb_false_elim in H as [Ha Hp].
    apply bool_decide_eq_false in Ha. destruct (decide (a = sep)); [contradiction|].
    by rewrite (IH Hp).
Qed.

Lemma str_split_second (sep : ascii) (s : string) :
  str_split sep s !! 1%nat = None <-> contains sep s = false.
Proof.
  split.
  - induction s as [|a s IH]; cbn [str_split contains]; [reflexivity|].
    destruct (decide (a = sep)) as [Ha|Ha].
    + pose proof (str_split_nonempty sep s).
      destruct (str_split sep s); [congruence|discriminate].
    + rewrite bool_decide_eq_false_2 by exact Ha. cbn [orb].
      destruct (str_split sep s) as [|p ps]; [intros _; by apply IH|].
      intros H. apply IH. exact H.
  - intros H. by rewrite (str_split_no_sep sep s H).
Qed.

Lemma str_split_parts (sep : ascii) (s : string) :
  Forall (fun p => contains sep p = false) (str_split sep s).
Proof.
  induction s as [|a s IH]; cbn [str_split].
  - by constructor.
  - destruct (decide (a = sep)) as [Ha|Ha]; [by constructor|].
    destruct (str_split sep s) as [|p ps]; cbn [contains].
    + constructor; [|constructor]. cbn. by rewrite bool_decide_eq_false_2.
    + apply Forall_cons in IH as [Hp Hps]. constructor; [|exact Hps].
      cbn [contains]. by rewrite bool_decide_eq_false_2.
Qed.

Lemma contains_lstrip (sep : ascii) (s : string) :
  isspace sep = false -> contains sep (str_lstrip s) = contains sep s.
Proof.
  intros Hsep. induction s as [|a s IH]; cbn [str_lstrip contains]; [reflexivity|].
  destruct (isspace a) eqn:Ha; [|reflexivity].
  rewrite IH, bool_decide_eq_false_2; [reflexivity|]. congruence.
Qed.

Lemma contains_rstrip (sep : ascii) (s : string) :
  isspace sep = false -> contains sep (str_rstrip s) = contains sep s.
Proof.
  intros Hsep. induction s as [|a s IH]; cbn [str_rstrip contains]; [reflexivity|].
  rewrite <- IH. destruct (str_rstrip s) as [|b t]; [|reflexivity].
  cbn [contains]. rewrite orb_false_r.
  destruct (isspace a) eqn:Ha; cbn [contains]; [|by rewrite orb_false_r].
  symmetry. apply bool_decide_eq_false_2. congruence.
Qed.

Lemma contains_strip (sep : ascii) (s : string) :
  isspace sep = false -> contains sep (str_strip s) = contains sep s.
Proof.
  intros Hsep. unfold str_strip. by rewrite contains_rstrip, contains_lstrip.
Qed.

Lemma str_lstrip_cases (s : string) :
  str_lstrip s = "" \/ exists a t, str_lstrip s = String a t /\ isspace a = false.
Proof.
  induction s as [|a s IH]; cbn [str_lstrip]; [by left|].
  destruct (isspace a) eqn:Ha; [exact IH|]. right. by exists a, s.
Qed.

Lemma str_rstrip_head (a : ascii) (t : string) :
  isspace a = false -> str_rstrip (String a t) <> "".
Proof.
  intros Ha. cbn [str_rstrip]. destruct (str_rstrip t); [|discriminate].
  rewrite Ha. discriminate.
Qed.

Lemma str_lstrip_blank (s : string) : str_lstrip s = "" -> str_rstrip s = "".
Proof.
  induction s as [|a s IH]; cbn [str_lstrip str_rstrip]; [reflexivity|].
  destruct (isspace a) eqn:Ha; [|discriminate].
  intros H. by rewrite (IH H).
Qed.

Lemma str_strip_blank (s : string) : str_strip s = "" -> str_rstrip s = "".
Proof.
  unfold str_strip. intros H. apply str_lstrip_blank.
  destruct (str_lstrip_cases s) as [E|(a & t & E & Ha)]; [exact E|].
  rewrite E in H. by destruct (str_rstrip_head a t Ha).
Qed.

Lemma str_rstrip_app (s t : string) :
  str_rstrip (s +:+ t)
  = match str_rstrip t with
    | EmptyString => str_rstrip s
    | t' => s +:+ t'
    end.
Proof.
  induction s as [|a s IH].
  - change ("" +:+ t) with t. by destruct (str_rstrip t).
  - change (String a s +:+ t) with (String a (s +:+ t)). cbn [str_rstrip].
    rewrite IH. destruct (str_rstrip t) as [|b t']; [reflexivity|].
    change (String a s +:+ String b t') with (String a (s +:+ String b t')).
    by destruct s.
Qed.

Lemma str_lstrip_length (s : string) :
  str_lstrip s = s \/ (String.length (str_lstrip s) < String.length s)%nat.
Proof.
  induction s as [|a s IH]; cbn [str_lstrip]; [by left|].
  destruct (isspace a); [|by left]. right. cbn [String.length].
  destruct IH as [->|IH]; lia.
Qed.

Lemma str_rstrip_length (s : string) :
  (String.length (str_rstrip s) <= String.length s)%nat.
Proof.
  induction s as [|a s IH]; cbn [str_rstrip]; [reflexivity|].
  destruct (str_rstrip s) as [|b t].
  - destruct (isspace a); cbn [String.length]; lia.
  - cbn [String.length] in *. lia.
Qed.

Lemma str_strip_fixed (s : string) : str_strip s = s -> str_rstrip s = s.
Proof.
  unfold str_strip. intros H.
  destruct (str_lstrip_length s) as [E|Hlt]; [by rewrite E in H|].
  pose proof (str_rstrip_length (str_lstrip s)) as Hle.
  rewrite H in Hle. lia.
Qed.

(** A line [HGNC:<id>] followed by white space. *)
Lemma load_genes_line (id ws : string) :
  contains ":"%char id = false -> str_strip id = id -> str_strip ws = "" ->
  str_split ":"%char (str_strip ("HGNC:" +:+ id +:+ ws)) !! 1%nat = Some id.
Proof.
  intros Hcolon Hid Hws.
  assert (Hstrip : str_strip ("HGNC:" +:+ id +:+ ws) = "HGNC:" +:+ id).
  { unfold str_strip.
    change (str_lstrip ("HGNC:" +:+ id +:+ ws)) with ("HGNC:" +:+ id +:+ ws).
    rewrite str_rstrip_app, str_rstrip_app, (str_strip_blank ws Hws),
      (str_strip_fixed id Hid).
    by destruct id. }
  rewrite Hstrip.
  change ("HGNC:" +:+ id) with ("HGNC" +:+ String ":"%char id).
  rewrite str_split_app by reflexivity.
  by rewrite (str_split_no_sep _ id Hcolon).
Qed.

(** X15: [load_genes] reads back a written gene list.  From lines of the
    form [HGNC:<id>], each followed by any white space (a newline, a
    carriage return and a newline, or nothing), it returns the identifiers
    in order, when no identifier contains a colon or begins or ends with
    white space. *)
Theorem load_genes_round_trip (ids lines : list string) :
  Forall (fun id => contains ":"%char id = false /\ str_strip id = id) ids ->
  Forall2 (fun id l => exists ws, str_strip ws = "" /\ l = "HGNC:" +:+ id +:+ ws)
          ids lines ->
  load_genes lines = Some ids.
Proof.
  intros Hids Hlines. unfold load_genes. apply mapM_Some_2.
  apply Forall2_flip. revert Hids.
  induction Hlines as [|id l ids lines (ws & Hws & ->) _ IH]; intros Hids;
    [constructor|].
  apply Forall_cons in Hids as [[Hcolon Hid] Hids].
  constructor; [|by apply IH]. by apply load_genes_line.
Qed.

(** Two lines, the last one without newline. *)
Lemma load_genes_round_trip_witness :
  load_genes ["HGNC:1097" +:+ String (ascii_of_nat 10) ""; "HGNC:6407"]
  = Some ["1097"; "6407"].
Proof.
  apply (load_genes_round_trip ["1097"; "6407"]).
  - repeat constructor.
  - constructor; [exists (String (ascii_of_nat 10) ""); by split|].
    constructor; [exists ""; by split|constructor].
Defined.

(** X16: [load_genes] raises [IndexError] exactly when some line holds no
    colon, as an empty last line does.  When it returns, it returns one
    identifier per line, and no identifier contains a colon: of a line
    [HGNC:1:2] only [1] is kept. *)
Theorem load_genes_outcome (lines : list string) :
  (load_genes lines = None <-> exists l, l ∈ lines /\ contains ":"%char l = false) /\
  (forall genes, load_genes lines = Some genes ->
     length genes = length lines /\
     Forall (fun g => contains ":"%char g = false) genes).
Proof.
  unfold load_genes. split.
  - rewrite mapM_None, Exists_exists. split.
    + intros (l & Hl & Hnone). exists l. split; [exact Hl|].
      apply str_split_second in Hnone. by rewrite contains_strip in Hnone.
    + intros (l & Hl & Hnone). exists l. split; [exact Hl|].
      apply str_split_second. by rewrite contains_strip.
  - intros genes Hsome. apply mapM_Some_1 in Hsome. split.
    + symmetry. by eapply Forall2_length.
    + apply Forall_forall. intros g Hg.
      apply list_elem_of_lookup in Hg as [i Hi].
      destruct (Forall2_lookup_r _ _ _ _ _ Hsome Hi) as (l & _ & Hpart).
      pose proof (str_split_parts ":"%char (str_strip l)) as Hparts.
      rewrite Forall_forall in Hparts.
      apply Hparts, (list_elem_of_lookup_2 _ _ _ Hpart).
Qed.

(** ** [filter_to_genes] *)

(** X17: the filter of [make_indra_sif.py] is the filter of
    [ngf/make_indra_sif.py] restricted to the rows between two genes:
    whatever the FamPlex terms, the older script keeps exactly those rows
    the newer one keeps whose two agents are both in the [HGNC] name
    space, in the same order. *)
Theorem filter_to_genes_restricts (df : list stmt_row) (genes fplx_terms : list string) :
  MakeIndraSif.filter_to_genes df genes
  = filter (fun r => agA_ns r = "HGNC" /\ agB_ns r = "HGNC")
           (Ngf.filter_to_genes df genes fplx_terms) /\
  MakeIndraSif.filter_to_genes df genes
    `sublist_of` Ngf.filter_to_genes df genes fplx_terms.
Proof.
  assert (E : MakeIndraSif.filter_to_genes df genes
              = filter (fun r => agA_ns r = "HGNC" /\ agB_ns r = "HGNC")
                       (Ngf.filter_to_genes df genes fplx_terms)).
  { unfold MakeIndraSif.filter_to_genes, Ngf.filter_to_genes.
    rewrite list_filter_filter. apply list_filter_iff. intros r.
    unfold Ngf.source_filter, Ngf.target_filter. split.
    - intros [[HA HAin] [HB HBin]]. split; [by split|].
      split; [left; by split|left; left; by split].
    - intros [[HA HB] [[[_ HAin]|[HA' _]] [[[_ HBin]|[HB' _]]|HB']]];
        try (rewrite HA in HA'; discriminate);
        try (rewrite HB in HB'; discriminate).
      by repeat split. }
  split; [exact E|]. rewrite E. apply sublist_filter.
Qed.

(** ** [get_famplex_terms] *)

Lemma all_parents_elem_of (parent_ids : string -> list string) (genes : list string)
    (init : gset string) (t : string) :
  t ∈ foldl (fun acc hgnc_id => acc ∪ list_to_set (parent_ids hgnc_id)) init genes <->
  t ∈ init \/ exists g, g ∈ genes /\ t ∈ parent_ids g.
Proof.
  revert init. induction genes as [|g genes IH]; intros init; cbn [foldl].
  - split; [by left|]. intros [H|(g & Hg & _)]; [exact H|].
    by apply elem_of_nil in Hg.
  - rewrite IH, elem_of_union, elem_of_list_to_set. split.
    + intros [[H|H]|(g' & Hg' & H)].
      * by left.
      * right. exists g. split; [by left|exact H].
      * right. exists g'. split; [by right|exact H].
    + intros [H|(g' & Hg' & H)]; [left; by left|].
      apply elem_of_cons in Hg' as [->|Hg'].
      * left. by right.
      * right. by exists g'.
Qed.

Lemma StronglySorted_strict (l : list string) :
  StronglySorted (cmp_le String.compare) l -> NoDup l ->
  StronglySorted (fun s t => String.compare s t = Lt) l.
Proof.
  induction 1 as [|s l Hl IH Hall]; intros Hnd; [constructor|].
  apply NoDup_cons in Hnd as [Hs Hnd]. constructor; [by apply IH|].
  apply Forall_forall. intros t Ht. rewrite Forall_forall in Hall.
  specialize (Hall t Ht). unfold cmp_le in Hall.
  destruct (String.compare s t) eqn:E; [|reflexivity|congruence].
  apply String.compare_eq_iff in E. by subst t.
Qed.

(** X18: [get_famplex_terms] returns each parent of a listed gene once,
    in strictly ascending order, and nothing else; the order of the genes
    and their repetitions do not matter. *)
Theorem get_famplex_terms_sorted_set (parent_ids : string -> list string)
    (genes : list string) :
  (forall t, t ∈ Ngf.get_famplex_terms parent_ids genes <->
             exists g, g ∈ genes /\ t ∈ parent_ids g) /\
  StronglySorted (fun s t => String.compare s t = Lt)
                 (Ngf.get_famplex_terms parent_ids genes) /\
  (forall genes', (forall g, g ∈ genes <-> g ∈ genes') ->
     Ngf.get_famplex_terms parent_ids genes' = Ngf.get_famplex_terms parent_ids genes).
Proof.
  unfold Ngf.get_famplex_terms. split; [|split].
  - intros t. rewrite merge_sort_Permutation, elem_of_elements, all_parents_elem_of.
    split; [intros [H|H]; [by apply elem_of_empty in H|exact H]|by right].
  - apply StronglySorted_strict.
    + apply StronglySorted_merge_sort; apply _.
    + rewrite merge_sort_Permutation. apply NoDup_elements.
  - intros genes' Hsame. do 2 f_equal. apply set_eq. intros t.
    rewrite !all_parents_elem_of. split.
    + intros [H|(g & Hg & H)]; [by left|]. right. exists g. by rewrite Hsame.
    + intros [H|(g & Hg & H)]; [by left|]. right. exists g. by rewrite <- Hsame.
Qed.

(** * Mouse genes *)

(** ** The node loop in mouse mode *)

Section MouseLoopFacts.
Variable graph : Graph.
Variable mdf : list mouse_gene.
Variable srd : gmap string (list Q).
Variable nv : node_vectors.
Variable alpha_FDR : Q.

Lemma drop_lookup_cases {A} (l : list A) (i : nat) :
  (l !! i = None /\ drop i l = []) \/
  (exists x, l !! i = Some x /\ drop i l = x :: drop (S i) l).
Proof.
  revert i. induction l as [|y l IH]; intros i.
  - left. by rewrite lookup_nil, drop_nil.
  - destruct i as [|i]; [right; by exists y|]. apply (IH i).
Qed.

(** The loop over the mouse identifiers of one node, in closed form. *)
Lemma append_copies_spec (symbols : list string) (hid n : string) (N_gene_con : nat)
    (mgis : list string) (i : nat) (df : list mouse_row) :
  append_copies graph srd nv alpha_FDR symbols hid n N_gene_con mgis i df
  = match get_GO_df graph srd nv n N_gene_con alpha_FDR with
    | Raise e => (df, match mgis with [] => None | _ => Some (Exn e) end)
    | Ok GOdf =>
        ((df ++ mjoin (zip_with (fun mgi s => mouse_frame mgi s hid n N_gene_con GOdf)
                                mgis (drop i symbols)))%list,
         if decide (length (drop i symbols) < length mgis)%nat
         then Some IndexError else None)
    end.
Proof.
  revert i df. induction mgis as [|mgi mgis IH]; intros i df; cbn [append_copies].
  - destruct (get_GO_df graph srd nv n N_gene_con alpha_FDR) as [GOdf|e];
      [|reflexivity].
    cbn. rewrite app_nil_r. destruct (decide _) as [H|H]; [lia|reflexivity].
  - destruct (get_GO_df graph srd nv n N_gene_con alpha_FDR) as [GOdf|e] eqn:HGO;
      [|reflexivity].
    destruct (drop_lookup_cases symbols i) as [[Hi Hd]|(s & Hi & Hd)];
      rewrite Hi, Hd.
    + cbn. rewrite app_nil_r. destruct (decide _) as [H|H]; [reflexivity|lia].
    + rewrite IH. cbn [zip_with mjoin list_join length]. f_equal.
      * by rewrite <- app_assoc.
      * destruct (decide (length (drop (S i) symbols) < length mgis)%nat),
          (decide (S (length (drop (S i) symbols)) < S (length mgis))%nat);
          (reflexivity || lia).
Qed.

Lemma mapped_row_mouse_frame (mgi symbol hid n : string) (N_gene_con : nat)
    (GOdf : list go_row) :
  mapped_row <$> mouse_frame mgi symbol hid n N_gene_con GOdf
  = (fun g => {| rr_key := {| k_HGNC := hid; k_Symbol := n;
                              k_GO_description := go_description g;
                              k_GO_ID := go_id g; k_N_con_gene := N_gene_con;
                              k_N_con_GO := go_N_con g |};
                 rr_vals := {| v_similarity := go_similarity g; v_pval := go_pval g;
                               v_padj := go_padj g |} |}) <$> GOdf.
Proof. unfold mouse_frame. by rewrite <- list_fmap_compose. Qed.

Lemma mapped_row_copies (hid n : string) (N_gene_con : nat) (GOdf : list go_row)
    (mgis symbols : list string) :
  (length mgis <= length symbols)%nat ->
  mapped_row <$> mjoin (zip_with (fun mgi s => mouse_frame mgi s hid n N_gene_con GOdf)
                                 mgis symbols)
  = mjoin (replicate (length mgis)
             (mapped_row <$> mouse_frame "" "" hid n N_gene_con GOdf)).
Proof.
  revert symbols. induction mgis as [|mgi mgis IH]; intros symbols Hlen;
    [reflexivity|].
  destruct symbols as [|s symbols]; cbn [length] in Hlen; [lia|].
  cbn [zip_with mjoin list_join length replicate].
  rewrite fmap_app, IH by lia. f_equal. by rewrite !mapped_row_mouse_frame.
Qed.

Lemma join_replicate_nil {A} (k : nat) : mjoin (replicate k (@nil A)) = [].
Proof. induction k as [|k IH]; [reflexivity|exact IH]. Qed.

Lemma unique_from_length (seen l : list string) :
  (length (unique_from seen l) <= length l)%nat.
Proof.
  revert seen. induction l as [|x l IH]; intros seen; cbn [unique_from];
    [reflexivity|].
  case_bool_decide; cbn [length]; [specialize (IH seen)|specialize (IH (x :: seen))];
    lia.
Qed.

Lemma unique_nonempty (l : list string) : l <> [] -> unique l <> [].
Proof.
  destruct l as [|x l]; [congruence|]. intros _. unfold unique. cbn [unique_from].
  rewrite bool_decide_eq_false_2; [discriminate|]. apply not_elem_of_nil.
Qed.

(** The rows the loop body of mouse mode appends when it returns. *)
Lemma score_node_mouse_rows (df df' : list mouse_row) (n : string)
    (attrs : gmap string string) (hid : string) :
  g_node graph !! n = Some attrs -> attrs !! "HGNC" = Some hid ->
  score_node_mouse graph mdf srd nv alpha_FDR df n = (df', None) ->
  exists new human,
    df' = (df ++ new)%list /\
    score_node graph (mg_HGNC <$> mdf) srd nv alpha_FDR [] n = Ok human /\
    mapped_row <$> new
    = mjoin (replicate
               (length (unique (mg_MGI <$> filter (fun g => mg_HGNC g = hid) mdf)))
               human) /\
    Forall (fun r => exists g1 g2,
              g1 ∈ mdf /\ mg_HGNC g1 = hid /\ mr_MGI r = mg_MGI g1 /\
              g2 ∈ mdf /\ mg_HGNC g2 = hid /\ mr_Symbol r = mg_Symbol g2) new.
Proof.
  intros Hattrs Hhid. unfold score_node_mouse, score_node, getitem.
  rewrite Hattrs. cbn [mbind result_bind]. rewrite Hhid. cbn [mbind result_bind].
  set (sel := filter (fun g => mg_HGNC g = hid) mdf).
  assert (Hskip : forall human : list rep_row, human = [] ->
            mapped_row <$> [] = mjoin (replicate (length (unique (mg_MGI <$> sel))) human)).
  { intros human ->. by rewrite join_replicate_nil. }
  case_bool_decide as Hlisted.
  2:{ intros [= <-]. exists [], []. rewrite app_nil_r.
      split; [reflexivity|]. split; [reflexivity|]. split; [by apply Hskip|constructor]. }
  destruct (g_adj graph !! n) as [nbrs|] eqn:Hadj; cbn [mbind result_bind].
  2:{ intros [= <-]. exists [], []. rewrite app_nil_r.
      split; [reflexivity|]. split; [reflexivity|]. split; [by apply Hskip|constructor]. }
  rewrite append_copies_spec, drop_0.
  destruct (get_GO_df graph srd nv n (size nbrs) alpha_FDR) as [GOdf|e] eqn:HGO;
    cbn [mbind result_bind try_except_KeyError].
  - destruct (decide _) as [Hshort|Hlong]; [discriminate|].
    intros [= <-]. eexists _, _. split; [reflexivity|]. split; [reflexivity|].
    split.
    + rewrite app_nil_l, mapped_row_copies by lia.
      by rewrite mapped_row_mouse_frame.
    + apply Forall_forall. intros r Hr.
      apply list_elem_of_join in Hr as (frame & Hr & Hframe).
      apply elem_of_lookup_zip_with in Hframe as (i & mgi & s & -> & Hmgi & Hs).
      apply list_elem_of_fmap in Hr as (g & -> & _). cbn.
      apply list_elem_of_lookup_2, elem_of_unique, list_elem_of_fmap in Hmgi
        as (g1 & -> & Hg1).
      apply list_elem_of_lookup_2, elem_of_unique, list_elem_of_fmap in Hs
        as (g2 & -> & Hg2).
      apply list_elem_of_filter in Hg1 as [H1 Hg1].
      apply list_elem_of_filter in Hg2 as [H2 Hg2].
      by exists g1, g2.
  - destruct (unique (mg_MGI <$> sel)) as [|mgi mgis] eqn:Hmgis.
    + exfalso. apply (unique_nonempty (mg_MGI <$> sel)); [|exact Hmgis].
      apply list_elem_of_fmap in Hlisted as (g & Hg & Hin).
      intros Hnil. apply fmap_nil_inv in Hnil.
      assert (Hsel : g ∈ sel) by (apply list_elem_of_filter; by split).
      rewrite Hnil in Hsel. by apply elem_of_nil in Hsel.
    + destruct e; [|discriminate]. intros [= <-]. exists [], [].
      rewrite app_nil_r. split; [reflexivity|]. split; [reflexivity|].
      split; [|constructor]. by rewrite join_replicate_nil.
Qed.

(** X19: in mouse mode a node yields the rows of human mode once per
    mouse gene.  When the loop body returns for a node with [HGNC]
    attribute [hid], the rows it appends are, up to the labels [MGI] and
    [Symbol], the rows that the loop body of human mode (with the column
    [HGNC] of [mdf] as gene list) gives for the node, repeated once for
    each distinct [MGI] entry mapped to [hid]; and every label is the
    [MGI], respectively the [Symbol], entry of a row of [mdf] mapped to
    [hid]. *)
Theorem score_node_mouse_copies (df df' : list mouse_row) (n : string)
    (attrs : gmap string string) (hid : string) :
  g_node graph !! n = Some attrs -> attrs !! "HGNC" = Some hid ->
  score_node_mouse graph mdf srd nv alpha_FDR df n = (df', None) ->
  exists new human,
    df' = (df ++ new)%list /\
    score_node graph (mg_HGNC <$> mdf) srd nv alpha_FDR [] n = Ok human /\
    mapped_row <$> new
    = mjoin (replicate
               (length (unique (mg_MGI <$> filter (fun g => mg_HGNC g = hid) mdf)))
               human) /\
    Forall (fun r => exists g1 g2,
              g1 ∈ mdf /\ mg_HGNC g1 = hid /\ mr_MGI r = mg_MGI g1 /\
              g2 ∈ mdf /\ mg_HGNC g2 = hid /\ mr_Symbol r = mg_Symbol g2) new.
Proof. apply score_node_mouse_rows. Qed.

(** X20: the loop body of mouse mode never ends in [KeyError].  It ends
    in [ZeroDivisionError] exactly when the loop body of human mode does,
    and in [IndexError] exactly when the node is a listed gene that
    [get_GO_df] scores and the rows of [mdf] mapped to its [HGNC]
    identifier hold fewer distinct [Symbol] than distinct [MGI] entries. *)
Theorem score_node_mouse_errors (df : list mouse_row) (n : string) :
  (score_node_mouse graph mdf srd nv alpha_FDR df n).2 <> Some (Exn KeyError) /\
  ((score_node_mouse graph mdf srd nv alpha_FDR df n).2 = Some (Exn ZeroDivisionError)
   <-> score_node graph (mg_HGNC <$> mdf) srd nv alpha_FDR [] n
       = Raise ZeroDivisionError) /\
  ((score_node_mouse graph mdf srd nv alpha_FDR df n).2 = Some IndexError
   <-> exists attrs hid nbrs GOdf,
         g_node graph !! n = Some attrs /\ attrs !! "HGNC" = Some hid /\
         hid ∈ mg_HGNC <$> mdf /\ g_adj graph !! n = Some nbrs /\
         get_GO_df graph srd nv n (size nbrs) alpha_FDR = Ok GOdf /\
         (length (unique (mg_Symbol <$> filter (fun g => mg_HGNC g = hid) mdf))
          < length (unique (mg_MGI <$> filter (fun g => mg_HGNC g = hid) mdf)))%nat).
Proof.
  unfold score_node_mouse, score_node, getitem.
  destruct (g_node graph !! n) as [attrs|] eqn:Hattrs; cbn [mbind result_bind snd].
  2:{ split; [discriminate|]. split; [split; discriminate|].
      split; [discriminate|]. intros (? & ? & ? & ? & ? & _). discriminate. }
  destruct (attrs !! "HGNC") as [hid|] eqn:Hhid; cbn [mbind result_bind snd].
  2:{ split; [discriminate|]. split; [split; discriminate|].
      split; [discriminate|]. intros (a & ? & ? & ? & Ha & Hh & _).
      injection Ha as <-. rewrite Hhid in Hh. discriminate. }
  case_bool_decide as Hlisted; cbn [snd].
  2:{ split; [discriminate|]. split; [split; discriminate|].
      split; [discriminate|]. intros (a & h & ? & ? & Ha & Hh & Hin & _).
      injection Ha as <-. rewrite Hhid in Hh. injection Hh as <-. contradiction. }
  destruct (g_adj graph !! n) as [nbrs|] eqn:Hadj; cbn [mbind result_bind snd].
  2:{ split; [discriminate|]. split; [split; discriminate|].
      split; [discriminate|]. intros (? & ? & ? & ? & _ & _ & _ & ? & _). discriminate. }
  rewrite append_copies_spec, drop_0.
  set (sel := filter (fun g => mg_HGNC g = hid) mdf).
  assert (Hmgis : unique (mg_MGI <$> sel) <> []).
  { apply unique_nonempty. apply list_elem_of_fmap in Hlisted as (g & Hg & Hin).
    intros Hnil. apply fmap_nil_inv in Hnil.
    assert (Hsel : g ∈ sel) by (apply list_elem_of_filter; by split).
    rewrite Hnil in Hsel. by apply elem_of_nil in Hsel. }
  destruct (get_GO_df graph srd nv n (size nbrs) alpha_FDR) as [GOdf|e] eqn:HGO;
    cbn [mbind result_bind try_except_KeyError].
  - destruct (decide _) as [Hshort|Hlong]; cbn [snd].
    + split; [discriminate|]. split; [split; discriminate|]. split; [|reflexivity].
      intros _. by exists attrs, hid, nbrs, GOdf.
    + split; [discriminate|]. split; [split; discriminate|]. split; [discriminate|].
      intros (a & h & nb & G & Ha & Hh & _ & Hnb & _ & Hlt).
      injection Ha as <-. rewrite Hhid in Hh. injection Hh as <-. fold sel in Hlt. lia.
  - destruct (unique (mg_MGI <$> sel)) as [|mgi mgis]; [congruence|].
    destruct e; cbn [snd].
    + split; [discriminate|]. split; [split; discriminate|]. split; [discriminate|].
      intros (a & h & nb & G & _ & _ & _ & Hnb & HG & _).
      injection Hnb as <-. congruence.
    + split; [discriminate|]. split; [by split|]. split; [discriminate|].
      intros (a & h & nb & G & _ & _ & _ & Hnb & HG & _).
      injection Hnb as <-. congruence.
Qed.
End MouseLoopFacts.

(** Gene [A] of the example network has two mouse genes: its two rows
    come twice. *)
Lemma score_node_mouse_copies_witness :
  exists df' human,
    score_node_mouse Example.graph MouseExample.mdf Example.srd Example.nv1 1 [] "A"
    = (df', None) /\
    score_node Example.graph (mg_HGNC <$> MouseExample.mdf) Example.srd Example.nv1 1
      [] "A" = Ok human /\
    mapped_row <$> df' = (human ++ human)%list.
Proof.
  destruct (score_node_mouse Example.graph MouseExample.mdf Example.srd Example.nv1 1
              [] "A") as [df' err] eqn:E.
  assert (Herr : err = None) by (vm_compute in E; by injection E as _ <-).
  subst err.
  destruct (score_node_mouse_copies Example.graph MouseExample.mdf Example.srd
              Example.nv1 1 [] df' "A" (Example.gene_attrs "G1") "G1"
              ltac:(vm_compute; reflexivity) ltac:(vm_compute; reflexivity) E)
    as (new & human & Hdf' & Hhuman & Hrows & _).
  exists df', human. split; [reflexivity|]. split; [exact Hhuman|].
  rewrite Hdf', app_nil_l, Hrows.
  change (length (unique (mg_MGI <$> filter (fun g => mg_HGNC g = "G1")
                                            MouseExample.mdf))) with 2%nat.
  cbn [replicate mjoin list_join]. by rewrite app_nil_r.
Defined.

Lemma unique_from_NoDup (seen l : list string) :
  NoDup l -> (forall x, x ∈ l -> x ∉ seen) -> unique_from seen l = l.
Proof.
  intros Hnd. revert seen. induction Hnd as [|x l Hx Hnd IH]; intros seen Hseen;
    cbn [unique_from]; [reflexivity|].
  rewrite bool_decide_eq_false_2 by (apply Hseen; by left).
  f_equal. apply IH. intros y Hy Hin. apply elem_of_cons in Hin as [->|Hin].
  - contradiction.
  - apply (Hseen y); [by right|exact Hin].
Qed.

Lemma unique_NoDup (l : list string) : NoDup l -> unique l = l.
Proof.
  intros Hnd. apply unique_from_NoDup; [exact Hnd|].
  intros x _. apply not_elem_of_nil.
Qed.

(** X21: how [MGI] and [Symbol] are paired.  When the rows of [mdf]
    mapped to the [HGNC] identifier of a node hold pairwise distinct [MGI]
    entries and pairwise distinct [Symbol] entries, the loop body of mouse
    mode never ends in [IndexError] on that node, and every row it appends
    is labelled with the [MGI] and the [Symbol] entry of one and the same
    row of [mdf]. *)
Theorem score_node_mouse_pairs (graph : Graph) (mdf : list mouse_gene)
    (srd : gmap string (list Q)) (nv : node_vectors) (alpha_FDR : Q)
    (df : list mouse_row) (n : string) (attrs : gmap string string) (hid : string) :
  g_node graph !! n = Some attrs -> attrs !! "HGNC" = Some hid ->
  NoDup (mg_MGI <$> filter (fun g => mg_HGNC g = hid) mdf) ->
  NoDup (mg_Symbol <$> filter (fun g => mg_HGNC g = hid) mdf) ->
  exists new,
    (score_node_mouse graph mdf srd nv alpha_FDR df n).1 = (df ++ new)%list /\
    (score_node_mouse graph mdf srd nv alpha_FDR df n).2 <> Some IndexError /\
    Forall (fun r => exists g, g ∈ mdf /\ mg_HGNC g = hid /\
                               mr_MGI r = mg_MGI g /\ mr_Symbol r = mg_Symbol g) new.
Proof.
  intros Hattrs Hhid Hmgi Hsym. unfold score_node_mouse. rewrite Hattrs, Hhid.
  assert (Hsame : exists new : list mouse_row,
            (df, @None mouse_exn).1 = (df ++ new)%list /\
            (df, @None mouse_exn).2 <> Some IndexError /\
            Forall (fun r => exists g, g ∈ mdf /\ mg_HGNC g = hid /\
                               mr_MGI r = mg_MGI g /\ mr_Symbol r = mg_Symbol g) new).
  { exists []. cbn. rewrite app_nil_r. split; [reflexivity|].
    split; [discriminate|constructor]. }
  case_bool_decide as Hlisted; [|exact Hsame].
  destruct (g_adj graph !! n) as [nbrs|]; [|exact Hsame].
  rewrite append_copies_spec, drop_0, (unique_NoDup _ Hmgi), (unique_NoDup _ Hsym).
  set (sel := filter (fun g => mg_HGNC g = hid) mdf).
  destruct (get_GO_df graph srd nv n (size nbrs) alpha_FDR) as [GOdf|e].
  - rewrite !length_fmap. destruct (decide _) as [Hlt|_]; [lia|].
    eexists. cbn [fst snd]. split; [reflexivity|]. split; [discriminate|].
    apply Forall_forall. intros r Hr.
    apply list_elem_of_join in Hr as (frame & Hr & Hframe).
    apply elem_of_lookup_zip_with in Hframe as (i & mgi & s & -> & Hi_mgi & Hi_s).
    apply list_elem_of_fmap in Hr as (g0 & -> & _). cbn.
    rewrite list_lookup_fmap in Hi_mgi, Hi_s.
    destruct (sel !! i) as [g|] eqn:Hg; [|discriminate].
    injection Hi_mgi as <-. injection Hi_s as <-.
    apply list_elem_of_lookup_2, list_elem_of_filter in Hg as [Hh Hg].
    by exists g.
  - destruct (mg_MGI <$> sel) as [|mgi mgis]; [exact Hsame|].
    destruct e; exists []; cbn; rewrite app_nil_r;
      (split; [reflexivity|]; split; [discriminate|constructor]).
Qed.

(** Gene [A] of the example network: its rows carry the pairs
    (MGI:101, a1) and (MGI:102, a2). *)
Lemma score_node_mouse_pairs_witness :
  exists new,
    (score_node_mouse Example.graph MouseExample.mdf Example.srd Example.nv1 1 [] "A").1
    = new /\
    Forall (fun r => exists g, g ∈ MouseExample.mdf /\ mg_HGNC g = "G1" /\
                               mr_MGI r = mg_MGI g /\ mr_Symbol r = mg_Symbol g) new.
Proof.
  destruct (score_node_mouse_pairs Example.graph MouseExample.mdf Example.srd
              Example.nv1 1 [] "A" (Example.gene_attrs "G1") "G1"
              ltac:(vm_compute; reflexivity) ltac:(vm_compute; reflexivity))
    as (new & Hnew & _ & Hall).
  - apply (bool_decide_unpack (NoDup _)). vm_compute. reflexivity.
  - apply (bool_decide_unpack (NoDup _)). vm_compute. reflexivity.
  - exists new. split; [exact Hnew|exact Hall].
Defined.

(** ** [_load_mouse_genes] *)

Lemma strip_MGI_prefixed (id : string) : strip_MGI ("MGI:" +:+ id) = id.
Proof. reflexivity. Qed.

(** The column [HGNC] that [_load_mouse_genes] inserts has one entry per
    row, never an empty one: the identifier the client gives for the [MGI]
    entry without its prefix, or [NA]. *)
Lemma load_mouse_genes_HGNC_column (get_hgnc_from_mouse : string -> option string)
    (rows : list (string * string)) :
  mg_MGI <$> _load_mouse_genes get_hgnc_from_mouse rows = rows.*1 /\
  mg_Symbol <$> _load_mouse_genes get_hgnc_from_mouse rows = rows.*2 /\
  Forall (fun g => mg_HGNC g <> "" /\
                   (mg_HGNC g = "NA" \/
                    get_hgnc_from_mouse (strip_MGI (mg_MGI g)) = Some (mg_HGNC g)))
         (_load_mouse_genes get_hgnc_from_mouse rows).
Proof.
  unfold _load_mouse_genes. split; [|split].
  - rewrite <- list_fmap_compose. reflexivity.
  - rewrite <- list_fmap_compose. reflexivity.
  - apply Forall_fmap, Forall_forall. intros [id sym] _. cbn.
    unfold hgnc_of_mouse.
    destruct (get_hgnc_from_mouse (strip_MGI id)) as [h|]; [|split; [discriminate|by left]].
    destruct (decide (h = "")) as [->|Hh]; [split; [discriminate|by left]|].
    split; [exact Hh|by right].
Qed.

(** The labels of the rows the loop body of mouse mode appends, whatever
    way it ends. *)
Lemma score_node_mouse_labels (graph : Graph) (mdf : list mouse_gene)
    (srd : gmap string (list Q)) (nv : node_vectors) (alpha_FDR : Q)
    (df : list mouse_row) (n : string) (attrs : gmap string string) (hid : string) :
  g_node graph !! n = Some attrs -> attrs !! "HGNC" = Some hid ->
  exists new,
    (score_node_mouse graph mdf srd nv alpha_FDR df n).1 = (df ++ new)%list /\
    Forall (fun r => mr_mapped_HGNC r = hid /\ mr_mapped_Symbol r = n /\
                     exists g, g ∈ mdf /\ mg_HGNC g = hid /\ mr_MGI r = mg_MGI g) new.
Proof.
  intros Hattrs Hhid. unfold score_node_mouse. rewrite Hattrs, Hhid.
  assert (Hsame : exists new : list mouse_row,
            (df, @None mouse_exn).1 = (df ++ new)%list /\
            Forall (fun r => mr_mapped_HGNC r = hid /\ mr_mapped_Symbol r = n /\
                     exists g, g ∈ mdf /\ mg_HGNC g = hid /\ mr_MGI r = mg_MGI g) new).
  { exists []. cbn. rewrite app_nil_r. split; [reflexivity|constructor]. }
  case_bool_decide as Hlisted; [|exact Hsame].
  destruct (g_adj graph !! n) as [nbrs|]; [|exact Hsame].
  rewrite append_copies_spec, drop_0.
  set (sel := filter (fun g => mg_HGNC g = hid) mdf).
  destruct (get_GO_df graph srd nv n (size nbrs) alpha_FDR) as [GOdf|e].
  - eexists. split; [by destruct (decide _)|].
    apply Forall_forall. intros r Hr.
    apply list_elem_of_join in Hr as (frame & Hr & Hframe).
    apply elem_of_zip_with in Hframe as (mgi & s & -> & Hmgi & _).
    apply list_elem_of_fmap in Hr as (g0 & -> & _). cbn.
    do 2 (split; [reflexivity|]).
    apply elem_of_unique, list_elem_of_fmap in Hmgi as (g & -> & Hg).
    apply list_elem_of_filter in Hg as [Hh Hg]. by exists g.
  - exists []. rewrite app_nil_r. split; [|constructor].
    destruct (unique (mg_MGI <$> sel)); [reflexivity|]. by destruct e.
Qed.

(** X22: [_load_mouse_genes] and the loop body together.  With [mdf]
    built by [_load_mouse_genes] from the rows read, every row appended
    for a node whose [HGNC] attribute is not the string [NA] carries that
    attribute as [mapped HGNC], the node as [mapped Symbol], and as [MGI]
    an entry of the rows read for which the client, asked without the
    prefix [MGI:], gives that identifier. *)
Theorem score_node_mouse_orthologs (get_hgnc_from_mouse : string -> option string)
    (rows : list (string * string)) (graph : Graph)
    (srd : gmap string (list Q)) (nv : node_vectors) (alpha_FDR : Q)
    (df : list mouse_row) (n : string) (attrs : gmap string string) (hid : string) :
  g_node graph !! n = Some attrs -> attrs !! "HGNC" = Some hid -> hid <> "NA" ->
  exists new,
    (score_node_mouse graph (_load_mouse_genes get_hgnc_from_mouse rows)
       srd nv alpha_FDR df n).1 = (df ++ new)%list /\
    Forall (fun r => mr_mapped_HGNC r = hid /\ mr_mapped_Symbol r = n /\
                     mr_MGI r ∈ rows.*1 /\
                     get_hgnc_from_mouse (strip_MGI (mr_MGI r)) = Some hid) new.
Proof.
  intros Hattrs Hhid HNA.
  destruct (score_node_mouse_labels graph (_load_mouse_genes get_hgnc_from_mouse rows)
              srd nv alpha_FDR df n attrs hid Hattrs Hhid) as (new & Hnew & Hall).
  exists new. split; [exact Hnew|].
  eapply Forall_impl; [exact Hall|]. cbn.
  intros r (HH & HS & g & Hg & Hgh & Hmgi). do 2 (split; [assumption|]).
  destruct (load_mouse_genes_HGNC_column get_hgnc_from_mouse rows)
    as (Hcol & _ & Hcolumn).
  rewrite Forall_forall in Hcolumn. destruct (Hcolumn g Hg) as [_ [Hna|Hget]].
  { congruence. }
  split.
  - rewrite Hmgi, <- Hcol. apply list_elem_of_fmap. by exists g.
  - by rewrite Hmgi, Hget, Hgh.
Qed.

(** The mouse genes [MGI:101] and [MGI:102] have the human ortholog [G1],
    the identifier of gene [A]. *)
Lemma score_node_mouse_orthologs_witness :
  exists new,
    (score_node_mouse Example.graph
       (_load_mouse_genes (fun id => if decide (id = "201") then Some "G2"
                                    else Some "G1")
                          [("MGI:101", "a1"); ("MGI:102", "a2"); ("MGI:201", "b")])
       Example.srd Example.nv1 1 [] "A").1 = new /\
    Forall (fun r => mr_mapped_HGNC r = "G1" /\ mr_mapped_Symbol r = "A" /\
                     mr_MGI r ∈ ["MGI:101"; "MGI:102"; "MGI:201"]) new.
Proof.
  destruct (score_node_mouse_orthologs
              (fun id => if decide (id = "201") then Some "G2" else Some "G1")
              [("MGI:101", "a1"); ("MGI:102", "a2"); ("MGI:201", "b")]
              Example.graph Example.srd Example.nv1 1 [] "A"
              (Example.gene_attrs "G1") "G1"
              ltac:(vm_compute; reflexivity) ltac:(vm_compute; reflexivity)
              ltac:(discriminate))
    as (new & Hnew & Hall).
  exists new. split; [exact Hnew|].
  eapply Forall_impl; [exact Hall|]. cbn. intros r (H1 & H2 & H3 & _).
  exact (conj H1 (conj H2 H3)).
Defined.

(** ** Mouse mode and human mode over the whole network *)

Section MouseAndHuman.
Variable graph : Graph.
Variable mdf : list mouse_gene.
Variable srd : gmap string (list Q).
Variable nv : node_vectors.
Variable alpha_FDR : Q.

Lemma score_node_mouse_None_node (df df' : list mouse_row) (n : string) :
  g_node graph !! n = None \/
  (exists attrs, g_node graph !! n = Some attrs /\ attrs !! "HGNC" = None) ->
  score_node_mouse graph mdf srd nv alpha_FDR df n = (df, None) /\
  forall hgncid, score_node graph hgncid srd nv alpha_FDR [] n = Ok [].
Proof.
  unfold score_node_mouse, score_node, getitem.
  intros [Hn|(attrs & Hn & Hh)]; rewrite Hn; cbn; [by split|].
  rewrite Hh. by split.
Qed.

(** X23: with one mouse gene per human gene, mouse mode scores what human
    mode scores.  When no [HGNC] entry of [mdf] is shared by two distinct
    [MGI] entries and the node loop of mouse mode returns, the node loop
    of human mode, run with the column [HGNC] of [mdf] as gene list,
    returns the same rows in the same order, up to the two labels [MGI]
    and [Symbol]. *)
Theorem score_nodes_mouse_one_to_one (g_view : list string)
    (df df' : list mouse_row) :
  (forall hid, length (unique (mg_MGI <$> filter (fun g => mg_HGNC g = hid) mdf)) <= 1)%nat ->
  score_nodes_mouse graph mdf srd nv alpha_FDR df g_view = (df', None) ->
  score_nodes graph (mg_HGNC <$> mdf) srd nv alpha_FDR (mapped_row <$> df) g_view
  = Ok (mapped_row <$> df').
Proof.
  intros Hone. revert df.
  induction g_view as [|n g_view IH]; intros df; cbn [score_nodes_mouse score_nodes].
  - by intros [= <-].
  - destruct (score_node_mouse graph mdf srd nv alpha_FDR df n) as [df1 [e|]] eqn:Hn;
      [discriminate|].
    intros Hrest. rewrite score_node_from_nil.
    assert (Hhuman : score_node graph (mg_HGNC <$> mdf) srd nv alpha_FDR [] n
                     = Ok (mapped_row <$> drop (length df) df1) /\
                     df1 = (df ++ drop (length df) df1)%list).
    { destruct (g_node graph !! n) as [attrs|] eqn:Hattrs.
      2:{ destruct (score_node_mouse_None_node df df1 n (or_introl Hattrs)) as [E1 E2].
          rewrite E1 in Hn. injection Hn as <-.
          rewrite drop_all. cbn. split; [apply E2|by rewrite app_nil_r]. }
      destruct (attrs !! "HGNC") as [hid|] eqn:Hhid.
      2:{ destruct (score_node_mouse_None_node df df1 n
                      (or_intror (ex_intro _ attrs (conj Hattrs Hhid)))) as [E1 E2].
          rewrite E1 in Hn. injection Hn as <-.
          rewrite drop_all. cbn. split; [apply E2|by rewrite app_nil_r]. }
      destruct (score_node_mouse_rows graph mdf srd nv alpha_FDR df df1 n attrs hid
                  Hattrs Hhid Hn) as (new & human & -> & Hhuman & Hrows & _).
      rewrite drop_app_length. split; [|reflexivity].
      rewrite Hhuman, Hrows. f_equal.
      specialize (Hone hid).
      destruct (length (unique (mg_MGI <$> filter (fun g => mg_HGNC g = hid) mdf)))
        as [|[|k]] eqn:Hk; [|cbn; by rewrite app_nil_r|lia].
      (* no mouse gene: the node is not listed, human mode gives no row *)
      cbn. unfold score_node, getitem in Hhuman.
      rewrite Hattrs in Hhuman. cbn in Hhuman. rewrite Hhid in Hhuman. cbn in Hhuman.
      case_bool_decide as Hlisted; [|by injection Hhuman as <-].
      exfalso. apply length_zero_iff_nil in Hk.
      apply (unique_nonempty _) in Hk; [exact Hk|].
      apply list_elem_of_fmap in Hlisted as (g & Hg & Hin).
      intros Hnil. apply fmap_nil_inv in Hnil.
      assert (Hsel : g ∈ filter (fun g => mg_HGNC g = hid) mdf)
        by (apply list_elem_of_filter; by split).
      rewrite Hnil in Hsel. by apply elem_of_nil in Hsel. }
    destruct Hhuman as [Hhuman Hdf1]. rewrite Hhuman. cbn [fmap result_fmap mbind result_bind].
    rewrite <- fmap_app, <- Hdf1. by apply IH.
Qed.
End MouseAndHuman.

(** The example network with one mouse gene for each of its two genes. *)
Lemma score_nodes_mouse_one_to_one_witness :
  exists df',
    score_nodes_mouse Example.graph (drop 1 MouseExample.mdf) Example.srd Example.nv1 1
      [] (g_nodes Example.graph) = (df', None) /\
    score_nodes Example.graph (mg_HGNC <$> drop 1 MouseExample.mdf) Example.srd
      Example.nv1 1 [] (g_nodes Example.graph) = Ok (mapped_row <$> df').
Proof.
  destruct (score_nodes_mouse Example.graph (drop 1 MouseExample.mdf) Example.srd
              Example.nv1 1 [] (g_nodes Example.graph)) as [df' err] eqn:E.
  assert (Herr : err = None) by (vm_compute in E; by injection E as _ <-).
  subst err. exists df'. split; [reflexivity|].
  apply (score_nodes_mouse_one_to_one Example.graph (drop 1 MouseExample.mdf)
           Example.srd Example.nv1 1 (g_nodes Example.graph) [] df'); [|exact E].
  intros hid.
  destruct (decide (hid = "G1")) as [->|H1]; [vm_compute; lia|].
  destruct (decide (hid = "G2")) as [->|H2]; [vm_compute; lia|].
  etransitivity; [apply unique_from_length|]. rewrite length_fmap.
  cbn [drop MouseExample.mdf]. rewrite !filter_cons, filter_nil.
  rewrite !decide_False by (cbn; congruence). cbn [length]. lia.
Defined.

(** * The order of the nodes of the network *)

#[export] Instance rep_compare_order (categories : list string)
  : CmpOrder (rep_compare categories).
Proof.
  unfold rep_compare.
  apply (lex_compare_order
           (fun r1 r2 => option_compare Nat.compare
                           (cat_code categories (k_HGNC (rr_key r1)))
                           (cat_code categories (k_HGNC (rr_key r2))))
           (fun r1 r2 => lex (String.compare (k_Symbol (rr_key r1))
                                             (k_Symbol (rr_key r2)))
                             (String.compare (k_GO_ID (rr_key r1))
                                             (k_GO_ID (rr_key r2))))).
Qed.

Lemma lex_Eq (c1 c2 : comparison) : lex c1 c2 = Eq -> c1 = Eq /\ c2 = Eq.
Proof. destruct c1; cbn; [by split|discriminate|discriminate]. Qed.

Lemma NoDup_fmap_eq {A B} (f : A -> B) (l : list A) (x y : A) :
  NoDup (f <$> l) -> x ∈ l -> y ∈ l -> f x = f y -> x = y.
Proof.
  induction l as [|z l IH]; intros Hnd Hx Hy Hf; [by apply elem_of_nil in Hx|].
  rewrite fmap_cons in Hnd. apply NoDup_cons in Hnd as [Hz Hnd].
  apply elem_of_cons in Hx as [->|Hx]; apply elem_of_cons in Hy as [->|Hy].
  - reflexivity.
  - exfalso. apply Hz. rewrite Hf. apply list_elem_of_fmap. by exists y.
  - exfalso. apply Hz. rewrite <- Hf. apply list_elem_of_fmap. by exists x.
  - by apply IH.
Qed.

Lemma same_table_trans (r1 r2 r3 : result (list rep_row)) :
  same_table r1 r2 -> same_table r2 r3 -> same_table r1 r3.
Proof.
  destruct r1 as [a|e1], r2 as [b|e2], r3 as [c|e3]; cbn; try tauto.
  - intros H1 H2. by rewrite H1.
  - congruence.
Qed.

Section NodeOrder.
Variable graph : Graph.
Variable hgncid : list string.
Variable srd : gmap string (list Q).
Variable nv : node_vectors.
Variable alpha_FDR : Q.
Hypothesis rankings_NoDup : forall n ranking, nv !! n = Some ranking -> NoDup ranking.*1.

Lemma score_nodes_perm_df (g_view : list string) (df df' : list rep_row) :
  df ≡ₚ df' ->
  same_table (score_nodes graph hgncid srd nv alpha_FDR df g_view)
             (score_nodes graph hgncid srd nv alpha_FDR df' g_view).
Proof.
  revert df df'. induction g_view as [|n g_view IH]; intros df df' Hdf;
    cbn [score_nodes]; [exact Hdf|].
  rewrite (score_node_from_nil graph srd nv alpha_FDR hgncid df n),
    (score_node_from_nil graph srd nv alpha_FDR hgncid df' n).
  destruct (score_node graph hgncid srd nv alpha_FDR [] n) as [new|e]; cbn;
    [|reflexivity].
  apply IH. by rewrite Hdf.
Qed.

Lemma score_nodes_perm (g_view g_view' : list string) :
  g_view ≡ₚ g_view' -> forall df df', df ≡ₚ df' ->
  same_table (score_nodes graph hgncid srd nv alpha_FDR df g_view)
             (score_nodes graph hgncid srd nv alpha_FDR df' g_view').
Proof.
  induction 1 as [|x l l' Hl IH|x y l|l l' l'' _ IH1 _ IH2]; intros df df' Hdf.
  - exact Hdf.
  - cbn [score_nodes].
    rewrite (score_node_from_nil graph srd nv alpha_FDR hgncid df x),
      (score_node_from_nil graph srd nv alpha_FDR hgncid df' x).
    destruct (score_node graph hgncid srd nv alpha_FDR [] x) as [new|e]; cbn;
      [|reflexivity].
    apply IH. by rewrite Hdf.
  - cbn [score_nodes].
    rewrite (score_node_from_nil graph srd nv alpha_FDR hgncid df y),
      (score_node_from_nil graph srd nv alpha_FDR hgncid df' x).
    destruct (score_node graph hgncid srd nv alpha_FDR [] x) as [nx|ex] eqn:Ex,
      (score_node graph hgncid srd nv alpha_FDR [] y) as [ny|ey] eqn:Ey; cbn.
    + rewrite (score_node_from_nil graph srd nv alpha_FDR hgncid (df ++ ny) x),
        (score_node_from_nil graph srd nv alpha_FDR hgncid (df' ++ nx) y), Ex, Ey.
      cbn. apply score_nodes_perm_df.
      rewrite Hdf, <- !app_assoc. apply Permutation_app_head, Permutation_app_comm.
    + by rewrite (score_node_from_nil graph srd nv alpha_FDR hgncid (df' ++ nx) y), Ey.
    + by rewrite (score_node_from_nil graph srd nv alpha_FDR hgncid (df ++ ny) x), Ex.
    + destruct (score_node_error graph hgncid srd nv alpha_FDR [] x ex Ex) as [-> _].
      by destruct (score_node_error graph hgncid srd nv alpha_FDR [] y ey Ey) as [-> _].
  - eapply same_table_trans; [apply (IH1 df df' Hdf)|apply (IH2 df' df')]. reflexivity.
Qed.

(** Two rows of a replicate that the sort of the replicate cannot tell
    apart are one row. *)
Lemma row_of_node_antisym (n1 n2 : string) (r1 r2 : rep_row) :
  row_of_node graph hgncid srd nv alpha_FDR n1 r1 ->
  row_of_node graph hgncid srd nv alpha_FDR n2 r2 ->
  cmp_le (rep_compare (unique hgncid)) r1 r2 ->
  cmp_le (rep_compare (unique hgncid)) r2 r1 ->
  r1 = r2.
Proof.
  intros (attrs1 & nbrs1 & GOdf1 & g1 & Ha1 & Hh1 & _ & Hs1 & Hn1 & Hc1 & HG1 & Hg1
          & Hid1 & Hd1 & Hgo1 & Hv1)
         (attrs2 & nbrs2 & GOdf2 & g2 & Ha2 & Hh2 & _ & Hs2 & Hn2 & Hc2 & HG2 & Hg2
          & Hid2 & Hd2 & Hgo2 & Hv2) H12 H21.
  assert (Heq : rep_compare (unique hgncid) r1 r2 = Eq).
  { unfold cmp_le in H12, H21.
    rewrite (cmp_antisym (cmp:=rep_compare (unique hgncid)) r1 r2) in H21.
    destruct (rep_compare (unique hgncid) r1 r2); cbn in H21; congruence. }
  unfold rep_compare in Heq. apply lex_Eq in Heq as [_ Heq].
  apply lex_Eq in Heq as [Hsym Hid].
  apply String.compare_eq_iff in Hsym, Hid.
  assert (n1 = n2) as <- by congruence.
  rewrite Ha1 in Ha2. injection Ha2 as <-.
  rewrite Hn1 in Hn2. injection Hn2 as <-.
  rewrite HG1 in HG2. injection HG2 as <-.
  assert (g1 = g2) as <-.
  { apply (NoDup_fmap_eq go_id GOdf1); [|exact Hg1|exact Hg2|congruence].
    eapply (get_GO_df_NoDup graph srd alpha_FDR nv n1); [apply rankings_NoDup|exact HG1]. }
  destruct r1 as [[h1 s1 d1 i1 c1 o1] v1], r2 as [[h2 s2 d2 i2 c2 o2] v2]. cbn in *.
  rewrite Hh1 in Hh2. injection Hh2 as <-. congruence.
Qed.

(** The table of a replicate does not depend on the order in which the
    nodes are visited. *)
Lemma replicate_table_with_nodes (nodes : list string) :
  nodes ≡ₚ g_nodes graph ->
  replicate_table (with_nodes graph nodes) hgncid srd nv alpha_FDR
  = replicate_table graph hgncid srd nv alpha_FDR.
Proof.
  intros Hperm. unfold replicate_table. cbn [g_nodes with_nodes].
  rewrite score_nodes_with_nodes.
  pose proof (score_nodes_perm nodes (g_nodes graph) Hperm [] [] (reflexivity _)) as Hsame.
  destruct (score_nodes graph hgncid srd nv alpha_FDR [] nodes) as [a|e1] eqn:Ea,
    (score_nodes graph hgncid srd nv alpha_FDR [] (g_nodes graph)) as [b|e2] eqn:Eb;
    cbn in Hsame; try contradiction; cbn [mbind result_bind]; [|by subst].
  f_equal. apply (StronglySorted_unique_strong (cmp_le (rep_compare (unique hgncid)))).
  - intros r1 r2 Hr1 Hr2. rewrite merge_sort_Permutation in Hr1, Hr2.
    destruct (score_nodes_rows graph hgncid srd nv alpha_FDR _ _ _ Ea) as (new1 & -> & H1).
    destruct (score_nodes_rows graph hgncid srd nv alpha_FDR _ _ _ Eb) as (new2 & -> & H2).
    rewrite Forall_forall in H1, H2.
    destruct (H1 r1 Hr1) as (n1 & _ & Hrow1), (H2 r2 Hr2) as (n2 & _ & Hrow2).
    by apply (row_of_node_antisym n1 n2).
  - apply StronglySorted_merge_sort; apply _.
  - apply StronglySorted_merge_sort; apply _.
  - by rewrite !merge_sort_Permutation.
Qed.
End NodeOrder.

(** X24: the result does not depend on the order in which the network
    lists its nodes.  When every ranking of an embedding lists each node
    at most once, [generate_output] on the network with its nodes in any
    other order fails with the same error or returns the same table, row
    for row. *)
Theorem generate_output_node_order (graph : Graph) (hgncid : list string)
    (srd : gmap string (list Q)) (nvs : list node_vectors) (alpha_FDR : Q)
    (nodes : list string) :
  (forall nv n ranking, nv ∈ nvs -> nv !! n = Some ranking -> NoDup ranking.*1) ->
  nodes ≡ₚ g_nodes graph ->
  generate_output (with_nodes graph nodes) hgncid srd nvs alpha_FDR
  = generate_output graph hgncid srd nvs alpha_FDR.
Proof.
  intros Hnvs Hperm. unfold generate_output.
  assert (Hrt : forall reps, (forall nv, nv ∈ reps -> nv ∈ nvs) ->
            replicate_tables (with_nodes graph nodes) hgncid srd reps alpha_FDR
            = replicate_tables graph hgncid srd reps alpha_FDR).
  { induction reps as [|nv reps IH]; intros Hsub; [reflexivity|].
    cbn [replicate_tables].
    rewrite (replicate_table_with_nodes graph hgncid srd nv alpha_FDR); [|
      intros n ranking; apply (Hnvs nv), Hsub; by left|exact Hperm].
    rewrite IH; [reflexivity|]. intros nv' Hnv'. apply Hsub. by right. }
  by rewrite Hrt.
Qed.

(** The example network with its nodes listed backwards. *)
Lemma generate_output_node_order_witness :
  generate_output (with_nodes Example.graph ["GO:2"; "GO:1"; "B"; "A"])
    Example.hgncid Example.srd [Example.nv1; Example.nv2] 1
  = generate_output Example.graph Example.hgncid Example.srd
      [Example.nv1; Example.nv2] 1.
Proof.
  apply (generate_output_node_order Example.graph Example.hgncid Example.srd
           [Example.nv1; Example.nv2] 1 ["GO:2"; "GO:1"; "B"; "A"]).
  - intros nv n ranking Hnv Hn.
    assert (Hdom : n ∈ ["A"; "B"]).
    { assert (Hd : dom nv = {[ "A"; "B" ]}).
      { apply elem_of_cons in Hnv as [->|Hnv]; [vm_compute; reflexivity|].
        apply list_elem_of_singleton in Hnv as ->. vm_compute. reflexivity. }
      assert (Hin : n ∈ dom nv) by (apply elem_of_dom; by eexists).
      rewrite Hd in Hin. apply elem_of_union in Hin as [Hin|Hin];
        apply elem_of_singleton in Hin; subst n; [by left|right; by left]. }
    apply elem_of_cons in Hnv as [->|Hnv];
      [|apply list_elem_of_singleton in Hnv as ->];
      (apply elem_of_cons in Hdom as [->|Hdom];
       [|apply list_elem_of_singleton in Hdom as ->]);
      vm_compute in Hn; injection Hn as <-;
      (match goal with |- ?P => apply (bool_decide_unpack P) end);
      vm_compute; reflexivity.
  - change (g_nodes Example.graph) with (reverse ["GO:2"; "GO:1"; "B"; "A"]).
    symmetry. apply reverse_Permutation.
Defined.

(** * The standard errors of the final table *)

Lemma Qdiv_nonneg (x y : Q) : 0 <= x -> 0 <= y -> 0 <= x / y.
Proof.
  intros Hx Hy. unfold Qdiv. apply Qmult_le_0_compat; [exact Hx|].
  by apply Qinv_le_0_compat.
Qed.

Lemma Qsquare_nonneg (a : Q) : 0 <= a * a.
Proof. unfold Qle, Qmult. cbn. nia. Qed.

Lemma inject_nat_nonneg (n : nat) : 0 <= inject_Z (Z.of_nat n).
Proof. change 0 with (inject_Z 0). rewrite <- Zle_Qle. lia. Qed.

Lemma sem_cases (nvs : list node_vectors) (xs : list (option Q)) :
  ((length (present xs) <= 1)%nat -> sem nvs xs = None) /\
  ((2 <= length (present xs))%nat ->
   exists s, sem nvs xs = Some s /\ 0 <= radicand s).
Proof.
  unfold sem, nanstd, nanvar. split; intros Hlen.
  - apply Nat.leb_le in Hlen. by rewrite Hlen.
  - destruct (length (present xs) <=? 1)%nat eqn:E; [apply Nat.leb_le in E; lia|].
    eexists. split; [reflexivity|]. cbn [radicand root_div np_sqrt].
    apply Qdiv_nonneg; [|apply inject_nat_nonneg].
    apply Qdiv_nonneg; [|apply inject_nat_nonneg].
    set (avg := Qsum (present xs) / inject_Z (Z.of_nat (length (present xs)))).
    pose proof (Qsum_fmap_lower (fun x => (avg - x) * (avg - x)) 0 (present xs)) as H.
    rewrite Qmult_0_r in H. apply H, Forall_forall. intros x _.
    apply Qsquare_nonneg.
Qed.

(** X25: a row of the final table has standard errors exactly when at
    least two replicate tables hold its pair.  The number of replicate
    tables with a row of the row's key lies between 1 and [Nreps]; when it
    is 1 the three sem columns are missing, otherwise the three are present
    and each is the square root of a non-negative number. *)
Theorem generate_output_sem_presence (graph : Graph) (hgncid : list string)
    (srd : gmap string (list Q)) (nvs : list node_vectors) (alpha_FDR : Q)
    (rows : list out_row) (r : out_row) :
  generate_output graph hgncid srd nvs alpha_FDR = Ok rows -> r ∈ rows ->
  exists outdfs,
    replicate_tables graph hgncid srd nvs alpha_FDR = Ok outdfs /\
    let k := length (holders (o_key r) outdfs) in
    (1 <= k <= Nreps nvs)%nat /\
    (k = 1%nat ->
     o_sem_sim r = None /\ o_sem_pval r = None /\ o_sem_padj r = None) /\
    ((2 <= k)%nat ->
     exists s1 s2 s3,
       o_sem_sim r = Some s1 /\ o_sem_pval r = Some s2 /\ o_sem_padj r = Some s3 /\
       0 <= radicand s1 /\ 0 <= radicand s2 /\ 0 <= radicand s3).
Proof.
  intros Hgo Hr. apply generate_output_Ok in Hgo as (df1 & rest & Hrt & ->).
  apply list_elem_of_fmap in Hr as (w & -> & Hw).
  rewrite merge_sort_Permutation in Hw.
  apply list_elem_of_fmap in Hw as (m & -> & Hm).
  pose proof (merge_all_slots df1 rest) as Hslots.
  pose proof (merge_all_from df1 rest) as Hfrom.
  rewrite Forall_forall in Hslots, Hfrom.
  specialize (Hslots m Hm). destruct (Hfrom m Hm) as (_ & _ & k0 & v0 & Hk0).
  pose proof (present_nonempty _ _ _ Hk0) as Hne.
  pose proof (Forall2_length _ _ _ (slot_of_present _ _ _ Hslots)) as Hlen.
  exists (df1 :: rest). split; [exact Hrt|].
  cbn [w_out aggregate o_key o_sem_sim o_sem_pval o_sem_padj]. cbn zeta.
  rewrite Hlen.
  assert (Hcol : forall f, length (present (column f m)) = length (present (m_reps m))).
  { intros f. by rewrite present_column, length_fmap. }
  split; [split|split].
  - destruct (present (m_reps m)); [congruence|cbn [length]; lia].
  - rewrite <- Hlen. unfold holders.
    etransitivity; [apply length_filter|].
    by rewrite (replicate_tables_length _ _ _ _ _ _ Hrt).
  - intros Hone.
    repeat split; apply (proj1 (sem_cases nvs _)); rewrite Hcol; lia.
  - intros Htwo.
    destruct (proj2 (sem_cases nvs (column v_similarity m))) as (s1 & E1 & H1);
      [rewrite Hcol; lia|].
    destruct (proj2 (sem_cases nvs (column v_pval m))) as (s2 & E2 & H2);
      [rewrite Hcol; lia|].
    destruct (proj2 (sem_cases nvs (column v_padj m))) as (s3 & E3 & H3);
      [rewrite Hcol; lia|].
    by exists s1, s2, s3.
Qed.

(** The first row of the run over two replicates at threshold 1: both
    replicates hold its pair. *)
Lemma generate_output_sem_presence_witness :
  exists rows r outdfs,
    generate_output Example.graph Example.hgncid Example.srd
      [Example.nv1; Example.nv2] 1 = Ok rows /\
    rows !! 0%nat = Some r /\
    replicate_tables Example.graph Example.hgncid Example.srd
      [Example.nv1; Example.nv2] 1 = Ok outdfs /\
    (1 <= length (holders (o_key r) outdfs) <= 2)%nat.
Proof.
  destruct (generate_output Example.graph Example.hgncid Example.srd
              [Example.nv1; Example.nv2] 1) as [rows|e] eqn:E;
    [|vm_compute in E; discriminate].
  destruct (rows !! 0%nat) as [r|] eqn:Hr.
  2:{ vm_compute in E. injection E as <-. discriminate. }
  destruct (generate_output_sem_presence Example.graph Example.hgncid Example.srd
              [Example.nv1; Example.nv2] 1 rows r E (list_elem_of_lookup_2 _ _ _ Hr))
    as (outdfs & Hrt & Hk & _).
  exists rows, r, outdfs.
  exact (conj eq_refl (conj Hr (conj Hrt Hk))).
Defined.
